(** * Whisper (Vysper): the LLM request-orchestration client

    A shallow embedding of [src/core/config.js] ([ConfigManager.getApiKeys])
    and of the [LLMService] class (credential pool, error classifier,
    retry loop, raw-transport response validation and payload transform,
    MCQ answer extractor), with the properties checked against them.

    Modelling conventions.
    - A JavaScript string is a [string]: a sequence of code units below 256.
      White space and case mapping are those of ECMAScript restricted to
      that range.
    - JavaScript values that the code inspects dynamically ([!x],
      [typeof x], [Array.isArray x], property reads) are values of
      [Js.value]; the exceptions the code can raise are results in [Js.res].
    - The mutable fields of the service ([models], [currentKeyIndex],
      [exhaustedKeys]) are a record threaded through every method.
    - Network calls and [Math.random()] are answered by oracles: the
      outcome of the n-th call, as a function of n. Every effect of a call
      is recorded in a trace.
    - A delay in milliseconds is the rational that the binary64 number
      of the code is; sums and products that are not exact are rounded
      as IEEE 754 rounds them (module [Binary64]). *)

From Stdlib Require Import String Ascii List ZArith QArith Qminmax Qpower Qabs
  Lia Lqa Bool DecimalString.
From stdpp Require Import gmap sets list strings.
Import ListNotations.
Local Open Scope string_scope.
Set Warnings "-register-all".

(* ================================================================== *)
(** * JavaScript strings *)

Module JsString.

Definition code (c : ascii) : nat := nat_of_ascii c.

Definition inRange (lo hi : nat) (c : ascii) : bool :=
  (lo <=? code c)%nat && (code c <=? hi)%nat.

(** ECMAScript [WhiteSpace] and [LineTerminator] below 256:
    TAB, LF, VT, FF, CR, SP and NBSP. This is what [trim] strips and
    what [\s] matches. *)
Definition isWhiteSpace (c : ascii) : bool :=
  inRange 9 13 c || (code c =? 32)%nat || (code c =? 160)%nat.

(** Upper-case letters below 256: A-Z, and U+00C0..U+00DE except the
    multiplication sign U+00D7. *)
Definition isUpper (c : ascii) : bool :=
  inRange 65 90 c || (inRange 192 222 c && negb (code c =? 215)%nat).

(** Lower-case letters below 256 whose upper case is below 256 too:
    a-z, and U+00E0..U+00FE except the division sign U+00F7. *)
Definition isLower (c : ascii) : bool :=
  inRange 97 122 c || (inRange 224 254 c && negb (code c =? 247)%nat).

Definition lowerChar (c : ascii) : ascii :=
  if isUpper c then ascii_of_nat (code c + 32) else c.

Definition upperChar (c : ascii) : ascii :=
  if isLower c then ascii_of_nat (code c - 32) else c.

Fixpoint mapChars (f : ascii -> ascii) (s : string) : string :=
  match s with
  | EmptyString => EmptyString
  | String c s' => String (f c) (mapChars f s')
  end.

(** [String.prototype.toLowerCase] *)
Definition toLowerCase : string -> string := mapChars lowerChar.

(** [String.prototype.toUpperCase]; exact on the letters above (the code
    applies it to a service name and to a letter a-e). *)
Definition toUpperCase : string -> string := mapChars upperChar.

(** [s.startsWith(p)] *)
Fixpoint startsWith (s p : string) {struct p} : bool :=
  match p, s with
  | EmptyString, _ => true
  | String _ _, EmptyString => false
  | String a p', String b s' => Ascii.eqb a b && startsWith s' p'
  end.

(** [String.prototype.includes] *)
Fixpoint includes (s needle : string) : bool :=
  startsWith s needle ||
  match s with
  | EmptyString => false
  | String _ s' => includes s' needle
  end.

Fixpoint trimStart (s : string) : string :=
  match s with
  | EmptyString => EmptyString
  | String c s' => if isWhiteSpace c then trimStart s' else s
  end.

Fixpoint trimEnd (s : string) : string :=
  match s with
  | EmptyString => EmptyString
  | String c s' =>
      match trimEnd s' with
      | EmptyString => if isWhiteSpace c then EmptyString else String c EmptyString
      | t => String c t
      end
  end.

(** [String.prototype.trim] *)
Definition trim (s : string) : string := trimEnd (trimStart s).

(** [s.split(sep)] where [sep] is a regular expression matching exactly
    one code unit of the class [sep]. *)
Fixpoint split (sep : ascii -> bool) (s : string) : list string :=
  match s with
  | EmptyString => [EmptyString]
  | String c s' =>
      if sep c then EmptyString :: split sep s'
      else match split sep s' with
           | h :: t => String c h :: t
           | [] => [String c EmptyString]
           end
  end.

(** [s.substring(0, n)] *)
Fixpoint take (n : nat) (s : string) : string :=
  match n, s with
  | S n', String c s' => String c (take n' s')
  | _, _ => EmptyString
  end.

Fixpoint allChars (p : ascii -> bool) (s : string) : bool :=
  match s with
  | EmptyString => true
  | String c s' => p c && allChars p s'
  end.

Definition headChar (s : string) : option ascii :=
  match s with EmptyString => None | String c _ => Some c end.

Fixpoint lastChar (s : string) : option ascii :=
  match s with
  | EmptyString => None
  | String c EmptyString => Some c
  | String _ s' => lastChar s'
  end.

(** Segments glued back with the separators that were between them. *)
Fixpoint interleave (segs : list string) (seps : list ascii) : string :=
  match segs, seps with
  | [], _ => EmptyString
  | [s], _ => s
  | s :: segs', c :: seps' => s ++ String c (interleave segs' seps')
  | s :: segs', [] => s ++ interleave segs' []
  end.


(** [k] is [s] without the white space at its two ends. *)
Definition Trimmed (s k : string) : Prop :=
  (exists l r, s = l ++ k ++ r
               /\ allChars isWhiteSpace l = true
               /\ allChars isWhiteSpace r = true)
  /\ (forall c, headChar k = Some c -> isWhiteSpace c = false)
  /\ (forall c, lastChar k = Some c -> isWhiteSpace c = false).

End JsString.

(* ================================================================== *)
(** * Configuration: [ConfigManager.getApiKeys] *)

Module Config.
Import JsString.

(** [process.env]: a variable is a string or is missing. *)
Definition Env := string -> option string.

Definition newline : ascii := ascii_of_nat 10.

(** the separator class of [/[,\n]/] *)
Definition isSeparator (c : ascii) : bool :=
  Ascii.eqb c "," || Ascii.eqb c newline.

Definition placeholder : string := "your-api-key-here".

Definition envKey (service : string) : string :=
  toUpperCase service ++ "_API_KEY".

(** the [filter] callback: [key.length > 0 && key !== 'your-api-key-here'] *)
Definition keepKey (key : string) : bool :=
  (0 <? String.length key)%nat && negb (String.eqb key placeholder).

Definition getApiKeys (env : Env) (service : string) : list string :=
  match env (envKey service) with
  | None => []
  | Some EmptyString => []
  | Some apiKeyValue =>
      List.filter keepKey (map trim (split isSeparator apiKeyValue))
  end.

(** [getApiKey]: the first key, for backward compatibility. *)
Definition getApiKey (env : Env) (service : string) : option string :=
  match env (envKey service) with
  | None => None
  | Some EmptyString => None
  | Some _ => head (getApiKeys env service)
  end.


End Config.

(* ================================================================== *)
(** * JavaScript values and exceptions *)

Module Js.
Import JsString.

(** The values the code inspects dynamically. [Num n] is an integral
    number in the safe range (token counts, HTTP codes), printed in
    decimal; [Real q lit] is a non-integral number [q], hence not zero,
    with the notation [ToString] prints for it (0.7, 0.95). An object is
    the list of its own properties, in insertion order. *)
Inductive value : Type :=
| Undefined
| Null
| Bool (b : bool)
| Num (n : Z)
| Real (q : Q) (lit : string)
| Str (s : string)
| Arr (items : list value)
| Obj (props : list (string * value)).

(** A thrown [Error]: [name], [message] and the two fields the code reads
    from it besides ([error.status], [error.statusCode]; [Undefined] when
    the error does not carry them). *)
Record error : Type := mkError {
  name : string;
  message : string;
  status : value;
  statusCode : value
}.

(** [new Error(msg)] *)
Definition Error (msg : string) : error :=
  {| name := "Error"; message := msg;
     status := Undefined; statusCode := Undefined |}.

(** [new TypeError(msg)], as raised by the language itself. *)
Definition TypeError (msg : string) : error :=
  {| name := "TypeError"; message := msg;
     status := Undefined; statusCode := Undefined |}.

(** [Error.prototype.toString] *)
Definition errorToString (e : error) : string :=
  match name e, message e with
  | EmptyString, m => m
  | n, EmptyString => n
  | n, m => n ++ ": " ++ m
  end.

(** The outcome of evaluating code that may raise. *)
Inductive res (A : Type) : Type :=
| Ok (a : A)
| Throw (e : error).
Arguments Ok {A} a.
Arguments Throw {A} e.

Definition bind {A B : Type} (r : res A) (k : A -> res B) : res B :=
  match r with
  | Ok a => k a
  | Throw e => Throw e
  end.

Notation "'let*' x ':=' r 'in' k" := (bind r (fun x => k))
  (at level 10, x name, r at level 100, k at level 200).

(** [ToBoolean] *)
Definition truthy (v : value) : bool :=
  match v with
  | Undefined | Null => false
  | Bool b => b
  | Num n => negb (n =? 0)%Z
  | Real _ _ => true
  | Str s => negb (String.eqb s "")
  | Arr _ | Obj _ => true
  end.

Fixpoint lookupProp (k : string) (props : list (string * value)) : value :=
  match props with
  | [] => Undefined
  | (k', v) :: rest => if String.eqb k k' then v else lookupProp k rest
  end.

(** A property read [v.k]. Reading from [null] or [undefined] raises a
    [TypeError]; a primitive or an array has none of the properties the
    code reads by name, so the read gives [undefined]. *)
Definition get (v : value) (k : string) : res value :=
  match v with
  | Undefined =>
      Throw (TypeError ("Cannot read properties of undefined (reading '" ++ k ++ "')"))
  | Null =>
      Throw (TypeError ("Cannot read properties of null (reading '" ++ k ++ "')"))
  | Obj props => Ok (lookupProp k props)
  | _ => Ok Undefined
  end.

(** [Array.isArray] *)
Definition isArray (v : value) : bool :=
  match v with Arr _ => true | _ => false end.

(** [a || b] on values *)
Definition or (a b : value) : value := if truthy a then a else b.

(** [v === 'literal'] *)
Definition isStr (v : value) (s : string) : bool :=
  match v with Str s' => String.eqb s' s | _ => false end.

(** [v === n] for a numeric literal [n] *)
Definition isNum (v : value) (n : Z) : bool :=
  match v with Num m => (m =? n)%Z | _ => false end.

(** Decimal notation of an integer, as [ToString] gives it. *)
Definition showZ (n : Z) : string := NilZero.string_of_int (Z.to_int n).

(** [ToString], as a template literal applies it. *)
Fixpoint toString (v : value) : string :=
  match v with
  | Undefined => "undefined"
  | Null => "null"
  | Bool true => "true"
  | Bool false => "false"
  | Num n => showZ n
  | Real _ lit => lit
  | Str s => s
  | Arr items =>
      (fix join (l : list value) : string :=
         match l with
         | [] => ""
         | [x] => match x with Undefined | Null => "" | _ => toString x end
         | x :: rest =>
             (match x with Undefined | Null => "" | _ => toString x end)
               ++ "," ++ join rest
         end) items
  | Obj _ => "[object Object]"
  end.

(** [ToNumber]: [null] and [false] count 0, [true] counts 1, [undefined]
    and objects are not numbers, an array counts as the string it prints
    as, and a string counts when, trimmed, it is empty or a plain sequence
    of decimal digits (signs, fractions, exponents and radix prefixes are
    not read). *)
Definition digitsValue (s : string) : option Z :=
  match s with
  | EmptyString => Some 0%Z
  | _ =>
      if allChars (inRange 48 57) s
      then Some (Z.of_nat (fold_left (fun acc c => (10 * acc + (code c - 48))%nat)
                                     (list_ascii_of_string s) 0%nat))
      else None
  end.

Definition toNumber (v : value) : option Q :=
  match v with
  | Null | Bool false => Some 0%Q
  | Bool true => Some 1%Q
  | Num n => Some (inject_Z n)
  | Real q _ => Some q
  | Str s => option_map inject_Z (digitsValue (trim s))
  | Arr _ => option_map inject_Z (digitsValue (trim (toString v)))
  | Undefined | Obj _ => None
  end.

(** [lo <= v && v <= hi] for numeric literals *)
Definition between (lo hi : Z) (v : value) : bool :=
  match toNumber v with
  | Some q => Qle_bool (inject_Z lo) q && Qle_bool q (inject_Z hi)
  | None => false
  end.

End Js.

(* ================================================================== *)
(** * Error classifier: [LLMService.analyzeError] *)

Module Classifier.
Import JsString.

Record ErrorInfo : Type := mkErrorInfo {
  type : string;
  isNetworkError : bool;
  isRetryable : bool;
  suggestedAction : string
}.

Definition includesAny (s : string) (needles : list string) : bool :=
  existsb (includes s) needles.

Definition networkNeedles : list string :=
  ["fetch failed"; "network error"; "enotfound"; "econnrefused";
   "econnreset"; "econnaborted"; "socket hang up"; "connection reset"].
Definition authNeedles : list string :=
  ["unauthorized"; "invalid api key"; "forbidden"; "401"; "403"].
Definition rateLimitNeedles : list string :=
  ["quota"; "rate limit"; "too many requests"; "429"; "resource exhausted"].
Definition timeoutNeedles : list string :=
  ["request timeout"; "timeout"; "timed out"].
Definition serverNeedles : list string :=
  ["500"; "502"; "503"; "504"; "internal server error"; "bad gateway";
   "service unavailable"].
Definition invalidRequestNeedles : list string :=
  ["400"; "bad request"; "invalid request"].

Definition analyzeError (error : Js.error) : ErrorInfo :=
  let errorMessage := toLowerCase (Js.message error) in
  let errorString := toLowerCase (Js.errorToString error) in
  if includesAny errorMessage networkNeedles
     || includes errorString "fetch failed" then
    {| type := "NETWORK_ERROR"; isNetworkError := true; isRetryable := true;
       suggestedAction := "Check internet connection and firewall settings" |}
  else if includesAny errorMessage authNeedles then
    {| type := "AUTH_ERROR"; isNetworkError := false; isRetryable := false;
       suggestedAction := "Verify Gemini API key configuration" |}
  else if includesAny errorMessage rateLimitNeedles then
    {| type := "RATE_LIMIT_ERROR"; isNetworkError := false; isRetryable := true;
       suggestedAction := "Wait before retrying or check API quota" |}
  else if includesAny errorMessage timeoutNeedles then
    {| type := "TIMEOUT_ERROR"; isNetworkError := true; isRetryable := true;
       suggestedAction := "Check network latency or increase timeout" |}
  else if includesAny errorMessage serverNeedles then
    {| type := "SERVER_ERROR"; isNetworkError := false; isRetryable := true;
       suggestedAction := "Server error - will retry automatically" |}
  else if includesAny errorMessage invalidRequestNeedles then
    {| type := "INVALID_REQUEST_ERROR"; isNetworkError := false;
       isRetryable := false;
       suggestedAction := "Check request format and parameters" |}
  else
    {| type := "UNKNOWN_ERROR"; isNetworkError := false; isRetryable := true;
       suggestedAction := "Check logs for more details" |}.

(** The checks of [analyzeError], by row of the table, for the statements
    about it. *)
Definition row (needles : list string) (e : Js.error) : bool :=
  includesAny (toLowerCase (Js.message e)) needles.

Definition networkRow (e : Js.error) : bool :=
  row networkNeedles e
  || includes (toLowerCase (Js.errorToString e)) "fetch failed".

(** The seven kinds of the taxonomy. *)
Definition kinds : list string :=
  ["NETWORK_ERROR"; "AUTH_ERROR"; "RATE_LIMIT_ERROR"; "TIMEOUT_ERROR";
   "SERVER_ERROR"; "INVALID_REQUEST_ERROR"; "UNKNOWN_ERROR"].

End Classifier.

(* ================================================================== *)
(** * Credential pool: [getNextModel], [markKeyExhausted] *)

Module Pool.

(** A bound client ([this.models[i]]), named by the key it was built from. *)
Definition Model := string.

(** The mutable fields of [LLMService] that the pool reads and writes. *)
Record LLMService : Type := mkService {
  models : list Model;
  currentKeyIndex : nat;
  exhaustedKeys : gset nat
}.

Definition setCurrentKeyIndex (i : nat) (s : LLMService) : LLMService :=
  {| models := models s; currentKeyIndex := i;
     exhaustedKeys := exhaustedKeys s |}.

Definition setExhaustedKeys (e : gset nat) (s : LLMService) : LLMService :=
  {| models := models s; currentKeyIndex := currentKeyIndex s;
     exhaustedKeys := e |}.

(** [this.exhaustedKeys.has(i)] *)
Definition has (i : nat) (s : LLMService) : bool :=
  bool_decide (i ∈ exhaustedKeys s).

(** The [while (attempts < this.models.length)] loop of [getNextModel];
    [remaining] is [this.models.length - attempts]. [Some m] is a
    [return m] from inside the loop, [None] is the loop running out. *)
Fixpoint rotate (remaining : nat) (s : LLMService)
  : option (option Model) * LLMService :=
  match remaining with
  | O => (None, s)
  | S remaining' =>
      if has (currentKeyIndex s) s
      then rotate remaining'
             (setCurrentKeyIndex
                ((currentKeyIndex s + 1) mod length (models s)) s)
      else (Some (models s !! currentKeyIndex s), s)
  end.

(** [getNextModel()]: the model, or [None] for [null] (and for the
    [undefined] an out-of-range array read gives), with the service after
    the call. *)
Definition getNextModel (s : LLMService) : option Model * LLMService :=
  match models s with
  | [] => (None, s)
  | [m] => (Some m, s)
  | _ =>
      match rotate (length (models s)) s with
      | (Some m, s') => (m, s')
      | (None, s') =>
          (models s' !! 0%nat,
           setCurrentKeyIndex 0 (setExhaustedKeys ∅ s'))
      end
  end.

(** [markKeyExhausted(keyIndex)]. The index moves on from
    [this.currentKeyIndex], not from [keyIndex]. (With no model at all
    the remainder is [NaN] in the source; no caller gets there.) *)
Definition markKeyExhausted (keyIndex : nat) (s : LLMService) : LLMService :=
  setCurrentKeyIndex ((currentKeyIndex s + 1) mod length (models s))
    (setExhaustedKeys ({[ keyIndex ]} ∪ exhaustedKeys s) s).

(** Marking a list of indices, one call each. *)
Definition markAll (l : list nat) (s : LLMService) : LLMService :=
  fold_left (fun s k => markKeyExhausted k s) l s.

(** A pool of three credentials, the last two exhausted, and a pool of
    one credential. *)
Definition samplePool : LLMService :=
  mkService ["AIzaKey1"; "AIzaKey2"; "AIzaKey3"] 1 {[ 1; 2 ]}.

Definition singlePool : LLMService := mkService ["AIzaKey1"] 0 ∅.

End Pool.

(* ================================================================== *)
(** * Raw transport: response validation and payload transform *)

Module Transport.
Import JsString.
Import Js.

(** ** The [res.on('end')] handler of [_makeAlternativeRequest] *)

(** What the handler has in hand: the status code, the body [data], and
    what [JSON.parse(data)] gives (a value, or the [SyntaxError] it
    raises). *)
Record HttpReply : Type := mkReply {
  replyStatus : Z;
  data : string;
  parsed : res value
}.

Section Handler.

(** [JSON.stringify], a built-in of the platform. *)
Variable stringify : value -> string.

(** The branch [res.statusCode !== 200]: the error that is rejected. *)
Definition statusError (r : HttpReply) : error :=
  let fallback :=
    ("HTTP " ++ showZ (replyStatus r) ++ ": " ++ take 200 (data r),
     Num (replyStatus r)) in
  let '(errorMessage, errorCode) :=
    match parsed r with
    | Throw _ => fallback
    | Ok errorResponse =>
        match get errorResponse "error" with
        | Throw _ => fallback
        | Ok err =>
            if truthy err then
              match get err "message", get err "code" with
              | Ok m, Ok c =>
                  ("HTTP " ++ showZ (replyStatus r) ++ ": "
                     ++ toString (or m (Str (stringify err))),
                   or c (Num (replyStatus r)))
              | _, _ => fallback
              end
            else fallback
        end
    end in
  {| name := "Error"; message := errorMessage;
     status := Undefined; statusCode := errorCode |}.

Definition truncationMessage (usageInfo : value) : res string :=
  let* thoughts := get usageInfo "thoughtsTokenCount" in
  let* total := get usageInfo "totalTokenCount" in
  Ok ("Response truncated: MAX_TOKENS limit reached with no content. "
        ++ "Thoughts tokens: " ++ toString (or thoughts (Num 0))
        ++ ", Total tokens: " ++ toString (or total (Num 0))
        ++ ". Consider increasing maxOutputTokens significantly.").

(** [!parts || !Array.isArray(parts) || parts.length === 0] *)
Definition noParts (parts : value) : bool :=
  match parts with
  | Arr (_ :: _) => false
  | _ => true
  end.

(** The checks from [candidate.content.parts] down to the text. The outer
    [Ok]/[Throw] is an exception escaping the checks (a [TypeError] from
    reading a property of [null]); the inner one is [resolve]/[reject]. *)
Definition extractText (content : value) : res (res string) :=
  let* parts := get content "parts" in
  if negb (truthy parts) then
    Ok (Throw (Error "Invalid response structure: content missing parts"))
  else
  match parts with
  | Arr (firstPart :: _) =>
      if negb (truthy firstPart) then
        Ok (Throw (Error "Invalid response structure: part missing text"))
      else
      let* text := get firstPart "text" in
      if negb (truthy text) then
        Ok (Throw (Error "Invalid response structure: part missing text"))
      else
      match text with
      | Str t =>
          if String.eqb (trim t) "" then
            Ok (Throw (Error "Empty or invalid text content in Gemini response"))
          else Ok (Ok (trim t))
      | _ =>
          Ok (Throw (Error "Empty or invalid text content in Gemini response"))
      end
  | _ =>
      Ok (Throw (Error "Invalid response structure: parts array is empty"))
  end.

(** The structural checks on a parsed 200 reply, in the order of the
    source. *)
Definition validate (response : value) : res (res string) :=
  let* err := get response "error" in
  if truthy err then
    let* m := get err "message" in
    Ok (Throw (Error ("Gemini API error: "
                        ++ toString (or m (Str (stringify err))))))
  else
  let* candidates := get response "candidates" in
  if negb (truthy candidates) then
    Ok (Throw (Error "Invalid response structure: missing candidates array"))
  else
  match candidates with
  | Arr (candidate :: _) =>
      let* content := get candidate "content" in
      if negb (truthy content) then
        Ok (Throw (Error "Invalid response structure: candidate missing content"))
      else
      let* finishReason := get candidate "finishReason" in
      if isStr finishReason "MAX_TOKENS" then
        let* usageMetadata := get response "usageMetadata" in
        let usageInfo := or usageMetadata (Obj []) in
        let* parts := get content "parts" in
        if noParts parts then
          let* msg := truncationMessage usageInfo in
          Ok (Throw (Error msg))
        else extractText content
      else extractText content
  | _ =>
      Ok (Throw (Error "Invalid response structure: candidates array is empty"))
  end.

(** The whole handler: what the promise settles to. *)
Definition handleResponse (r : HttpReply) : res string :=
  if negb (replyStatus r =? 200)%Z then Throw (statusError r)
  else
    match parsed r with
    | Throw parseError =>
        Throw (Error ("Failed to parse JSON response: " ++ message parseError))
    | Ok response =>
        match validate response with
        | Ok settled => settled
        | Throw parseError =>
            Throw (Error ("Failed to parse response: " ++ message parseError))
        end
    end.

End Handler.

(** ** [transformRequestForHttpTransport] *)

Definition normalizePart (part : value) : res value :=
  if negb (truthy part) then Ok (Obj [])
  else
    let* text := get part "text" in
    match text with
    | Str t => Ok (Obj [("text", Str t)])
    | _ =>
        let* inlineData := get part "inlineData" in
        if truthy inlineData then Ok (Obj [("inline_data", inlineData)])
        else
          let* fileData := get part "fileData" in
          if truthy fileData then Ok (Obj [("file_data", fileData)])
          else Ok part
    end.

(** [xs.map(f)] for a callback that may raise. *)
Fixpoint mapRes {A B : Type} (f : A -> res B) (l : list A) : res (list B) :=
  match l with
  | [] => Ok []
  | x :: rest =>
      let* y := f x in
      let* ys := mapRes f rest in
      Ok (y :: ys)
  end.

(** [(parts || []).map(normalizePart)]: a truthy [parts] that is not an
    array has no [map] method. *)
Definition normalizeParts (parts : value) : res value :=
  match or parts (Arr []) with
  | Arr items =>
      let* items' := mapRes normalizePart items in
      Ok (Arr items')
  | _ => Throw (TypeError "(intermediate value).map is not a function")
  end.

Definition transformContent (content : value) : res value :=
  let* role := get content "role" in
  let* parts := get content "parts" in
  let* parts' := normalizeParts parts in
  Ok (Obj [("role", role); ("parts", parts')]).

(** Property names [0], [1], ... of an array or of a string. *)
Definition indexed (items : list value) : list (string * value) :=
  imap (fun i v => (showZ (Z.of_nat i), v)) items.

(** [{ ...v }]: the own enumerable properties of [v]. *)
Definition spread (v : value) : value :=
  match v with
  | Obj props => Obj props
  | Arr items => Obj (indexed items)
  | Str s =>
      Obj (indexed (map (fun c => Str (String c EmptyString))
                        (list_ascii_of_string s)))
  | _ => Obj []
  end.

(** [if (request.k) payload.k' = f(request.k)] *)
Definition copyIf (request : value) (k k' : string)
    (f : value -> res value) : res (list (string * value)) :=
  let* v := get request k in
  if truthy v then
    let* v' := f v in
    Ok [(k', v')]
  else Ok [].

Definition transformRequestForHttpTransport (request : value) : res value :=
  let* system_instruction :=
    copyIf request "systemInstruction" "system_instruction"
      (fun si =>
         let* parts := get si "parts" in
         let* parts' := normalizeParts parts in
         Ok (Obj [("parts", parts')])) in
  let* contentsV := get request "contents" in
  let* contents :=
    match contentsV with
    | Arr items =>
        let* items' := mapRes transformContent items in
        Ok [("contents", Arr items')]
    | _ => Ok []
    end in
  let* generation_config :=
    copyIf request "generationConfig" "generation_config"
      (fun v => Ok (spread v)) in
  let* safety_settings :=
    copyIf request "safetySettings" "safety_settings" Ok in
  let* tools := copyIf request "tools" "tools" Ok in
  let* tool_config := copyIf request "toolConfig" "tool_config" Ok in
  let* cached_content :=
    copyIf request "cachedContent" "cached_content" Ok in
  Ok (Obj (system_instruction ++ contents ++ generation_config
             ++ safety_settings ++ tools ++ tool_config ++ cached_content)).


(** ** The request value, and its two layouts *)

(** A part of a turn: a text, inline data or a file reference. *)
Inductive Part : Type :=
| TextPart (text : string)
| InlineDataPart (inlineData : list (string * value))
| FileDataPart (fileData : list (string * value)).

Record Turn : Type := mkTurn {
  role : string;
  parts : list Part
}.

(** The logical request: an optional system instruction, the turns in
    order, the generation parameters. *)
Record Request : Type := mkRequest {
  systemInstruction : option (list Part);
  contents : list Turn;
  generationConfig : list (string * value)
}.

(** The object the request builders lay out for the native client. *)
Definition encodePart (p : Part) : value :=
  match p with
  | TextPart t => Obj [("text", Str t)]
  | InlineDataPart d => Obj [("inlineData", Obj d)]
  | FileDataPart d => Obj [("fileData", Obj d)]
  end.

Definition encodeTurn (t : Turn) : value :=
  Obj [("role", Str (role t)); ("parts", Arr (map encodePart (parts t)))].

Definition encodeRequest (r : Request) : value :=
  Obj ([("contents", Arr (map encodeTurn (contents r)));
        ("generationConfig", Obj (generationConfig r))]
       ++ match systemInstruction r with
          | Some ps =>
              [("systemInstruction", Obj [("parts", Arr (map encodePart ps))])]
          | None => []
          end).

(** The payload for the wire: the names the transform writes are in
    snake case; what it copies keeps its names. *)
Definition wirePart (p : Part) : value :=
  match p with
  | TextPart t => Obj [("text", Str t)]
  | InlineDataPart d => Obj [("inline_data", Obj d)]
  | FileDataPart d => Obj [("file_data", Obj d)]
  end.

Definition wireTurn (t : Turn) : value :=
  Obj [("role", Str (role t)); ("parts", Arr (map wirePart (parts t)))].

Definition wirePayload (r : Request) : value :=
  Obj (match systemInstruction r with
       | Some ps =>
           [("system_instruction", Obj [("parts", Arr (map wirePart ps))])]
       | None => []
       end
       ++ [("contents", Arr (map wireTurn (contents r)));
           ("generation_config", Obj (generationConfig r))]).

(** Reading a payload back: the roles of its turns, and the texts of the
    parts of each turn, in order. *)
Definition items (v : value) : list value :=
  match v with Arr l => l | _ => [] end.

Definition prop (k : string) (v : value) : value :=
  match v with Obj props => lookupProp k props | _ => Undefined end.

Definition payloadRoles (payload : value) : list value :=
  map (prop "role") (items (prop "contents" payload)).

Definition payloadTexts (payload : value) : list (list value) :=
  map (fun turn => map (prop "text") (items (prop "parts" turn)))
      (items (prop "contents" payload)).

Definition partText (p : Part) : value :=
  match p with TextPart t => Str t | _ => Undefined end.

(** The names of the properties of an object. *)
Definition keys (v : value) : list string :=
  match v with Obj props => map fst props | _ => [] end.

(** A name in snake case has no upper-case letter. *)
Definition isSnakeCase (k : string) : bool :=
  allChars (fun c => negb (isUpper c)) k.

(** The request of [buildGeminiRequest] for one user message and a
    system instruction, with the fixed generation parameters. *)
Definition sampleRequest : Request :=
  {| systemInstruction := Some [TextPart "You are a helpful assistant."];
     contents :=
       [mkTurn "user" [TextPart "What is a stable sort?"];
        mkTurn "model" [TextPart "One that keeps equal keys in order."];
        mkTurn "user" [TextPart "Context: DSA analysis request"]];
     generationConfig :=
       [("temperature", Real (7 # 10) "0.7");
        ("maxOutputTokens", Num 8192);
        ("topK", Num 40);
        ("topP", Real (95 # 100) "0.95")] |}.

(** ** Sample replies *)

Definition candidateReply (parts : list value) (usage : list (string * value))
  : HttpReply :=
  {| replyStatus := 200; data := "";
     parsed :=
       Ok (Obj [("candidates",
                 Arr [Obj [("content",
                            Obj (("role", Str "model")
                                   :: match parts with
                                      | [] => []
                                      | _ => [("parts", Arr parts)]
                                      end));
                           ("finishReason", Str "MAX_TOKENS")]]);
                ("usageMetadata", Obj usage)]) |}.

(** A truncated reply with a text in its first part. *)
Definition partialReply : HttpReply :=
  candidateReply [Obj [("text", Str " The answer is B because ")]]
                 [("totalTokenCount", Num 8400)].


End Transport.

(* ================================================================== *)
(** * Binary64 arithmetic *)

(** The numbers of the language are IEEE 754 binary64. A finite one is a
    rational; the result of an operation is the exact result rounded to
    the nearest binary64, ties to the even mantissa (53 bits of
    precision, spacing [2^-1074] for the subnormals). *)

Module Binary64.
Local Open Scope Q_scope.

(** [floor (log2 q)] for a positive [q] *)
Definition exponent (q : Q) : Z :=
  let e0 := (Z.log2 (Qnum q) - Z.log2 (Zpos (Qden q)))%Z in
  if Qle_bool (2 ^ e0) q then e0 else (e0 - 1)%Z.

(** The integer nearest to [q], the even one of two that are as near. *)
Definition nearestEven (q : Q) : Z :=
  let n := Qnum q in
  let d := Zpos (Qden q) in
  let f := (n / d)%Z in
  match (2 * (n mod d) ?= d)%Z with
  | Lt => f
  | Gt => (f + 1)%Z
  | Eq => if Z.even f then f else (f + 1)%Z
  end.

(** The binary64 numbers around a positive [q] are the multiples of
    [2 ^ ulpExponent q]. *)
Definition ulpExponent (q : Q) : Z := Z.max (exponent q - 52) (-1074).

Definition roundPositive (q : Q) : Q :=
  let ex := ulpExponent q in
  Qred (inject_Z (nearestEven (q / 2 ^ ex)) * 2 ^ ex).

(** The binary64 number nearest to [q], for a [q] that does not round
    to an infinity. *)
Definition round (q : Q) : Q :=
  match Qnum q with
  | Z0 => 0
  | Zpos _ => roundPositive q
  | Zneg _ => - roundPositive (- q)
  end.

(** The rationals that round to an infinity: from half a spacing above
    the largest finite number on. *)
Definition overflows (q : Q) : bool :=
  Qle_bool (2 ^ 1024 - 2 ^ 970) (Qabs q).

(** The largest binary64 number below 1. *)
Definition belowOne : Q := 1 - 2 ^ (-53).

End Binary64.

(* ================================================================== *)
(** * Retry loop: [executeRequest] and [executeAlternativeRequest] *)

Module Orchestrator.
Import JsString.
Import Classifier.
Import Pool.

(** What [Promise.race([currentModel.generateContent(request),
    timeoutPromise])], followed by [result.response.text()], comes to. *)
Inductive SdkOutcome : Type :=
| SdkRejects (e : Js.error)   (* the request, or [text()], raises [e] *)
| SdkTimeout                  (* the timer wins: [Error('Request timeout')] *)
| SdkNoResponse               (* [!result || !result.response] *)
| SdkText (text : Js.value).  (* what [result.response.text()] returns *)

(** What the HTTPS request of [_makeAlternativeRequest] comes to. *)
Inductive HttpsOutcome : Type :=
| HttpsReply (r : Transport.HttpReply)   (* the [end] event *)
| HttpsError (e : Js.error)              (* the [error] event *)
| HttpsTimeout.                          (* the [timeout] event *)

(** The effects a call leaves behind, oldest first. *)
Inductive Event : Type :=
| Preflight
| SdkCall (keyIndex : nat)
| HttpsCall (keyIndex attempt : nat) (requestTimeout : Z)
| MarkedExhausted (keyIndex : nat)
| Sleep (ms : Q).

(** The service, the number of network calls and of [Math.random()]
    draws made so far, and the effects so far. *)
Record World : Type := mkWorld {
  svc : LLMService;
  clock : nat;
  draws : nat;
  trace : list Event
}.

Definition setSvc (s : LLMService) (w : World) : World :=
  {| svc := s; clock := clock w; draws := draws w; trace := trace w |}.

Definition emit (e : Event) (w : World) : World :=
  {| svc := svc w; clock := clock w; draws := draws w;
     trace := trace w ++ [e] |}.

Definition tick (w : World) : World :=
  {| svc := svc w; clock := S (clock w); draws := draws w;
     trace := trace w |}.

Definition drawn (w : World) : World :=
  {| svc := svc w; clock := clock w; draws := S (draws w);
     trace := trace w |}.

(** [this.markKeyExhausted(k)], with the warning it logs. *)
Definition mark (k : nat) (w : World) : World :=
  emit (MarkedExhausted k) (setSvc (markKeyExhausted k (svc w)) w).

(** The error [executeRequest] raises: [finalError.message],
    [finalError.errorAnalysis], [finalError.originalError]. *)
Record FinalError : Type := mkFinal {
  finalMessage : string;
  errorAnalysis : option ErrorInfo;
  originalError : option Js.error
}.

(** How one pass through the body of the [for] loop ends: a [return], a
    [throw], or the end of the body (reached by [continue] as well), after
    which the loop runs [attempt++]. [Next] carries [lastError]. *)
Inductive Step : Type :=
| Return (text : string)
| Raise (e : FinalError)
| Next (lastError : Js.error).

Section Run.

(** Configuration: [llm.gemini.maxRetries], [llm.gemini.timeout],
    [llm.gemini.enableFallbackMethod], [config.getApiKeys('GEMINI')]. *)
Variable maxRetries : nat.
Variable timeout : Z.
Variable enableFallbackMethod : bool.
Variable apiKeys : list string.

(** The request, and the platform's [JSON.stringify]. *)
Variable geminiRequest : Js.value.
Variable stringify : Js.value -> string.

(** The outside world: the outcome of the [n]-th network call, given the
    key it is made with (and the attempt number of the raw transport),
    and the [n]-th number [Math.random()] draws: a binary64 number,
    at least 0 and below 1. *)
Variable sdk : nat -> nat -> SdkOutcome.
Variable https : nat -> nat -> nat -> HttpsOutcome.
Variable random : nat -> Q.

(** ** Raw transport *)

Definition isAlternativeRequestRetryable
    (errorMessage : string) (statusCode : Js.value) : bool :=
  if String.eqb errorMessage "" then false
  else
    let message := toLowerCase errorMessage in
    if Js.isNum statusCode 503 || Js.isNum statusCode 429
       || Js.between 500 504 statusCode then true
    else if includes message "timeout" then true
    else if includes message "econnreset" || includes message "econnaborted"
            || includes message "socket hang up"
            || includes message "connection reset" then true
    else if Js.isNum statusCode 400 || Js.isNum statusCode 401
            || Js.isNum statusCode 403 then false
    else false.

(** [_makeAlternativeRequest]: the request goes out with a timeout that
    grows by ten seconds per attempt; the promise settles to a text or to
    an error. *)
Definition makeAlternativeRequest (attempt keyIndex : nat) (w : World)
  : Js.res string * World :=
  let requestTimeout := (timeout + (Z.of_nat attempt - 1) * 10000)%Z in
  let w' := tick (emit (HttpsCall keyIndex attempt requestTimeout) w) in
  match https (clock w) keyIndex attempt with
  | HttpsReply r => (Transport.handleResponse stringify r, w')
  | HttpsError e =>
      (Js.Throw (Js.Error ("Alternative request failed: " ++ Js.message e)), w')
  | HttpsTimeout =>
      (Js.Throw (Js.Error "Alternative request timeout"), w')
  end.

(** How the retry loop for one key ends: a [return], a [throw], or a
    [break] (or the loop running out) that moves on to the next key. *)
Inductive KeyStep : Type :=
| KeyReturn (text : string)
| KeyThrow (e : Js.error)
| KeyBreak.

(** [Math.min(2000 * Math.pow(2, attempt - 1), 10000)]; in binary64 the
    product is exact or [Infinity], and so is the minimum. *)
Definition alternativeBackoff (attempt : nat) : Q :=
  Qmin (2000 * 2 ^ (Z.of_nat attempt - 1)) 10000%Q.

(** [for (let attempt = 1; attempt <= maxRetries; attempt++)] for one
    key; [remaining] is [maxRetries - attempt + 1]. *)
Fixpoint keyAttempts (altMaxRetries remaining attempt keyIndex : nat)
    (isLastKey : bool) (lastError : option Js.error) (w : World)
  : KeyStep * option Js.error * World :=
  match remaining with
  | O => (KeyBreak, lastError, w)
  | S remaining' =>
      match makeAlternativeRequest attempt keyIndex w with
      | (Js.Ok result, w1) =>
          (KeyReturn result, lastError,
           setSvc (setCurrentKeyIndex keyIndex (svc w1)) w1)
      | (Js.Throw error, w1) =>
          let errorMessage :=
            if String.eqb (Js.message error) ""
            then Js.errorToString error else Js.message error in
          let statusCode := Js.statusCode error in
          let isQuotaError :=
            Js.isNum statusCode 429 || Js.isNum statusCode 503
            || includes (toLowerCase errorMessage) "quota"
            || includes (toLowerCase errorMessage) "rate limit"
            || includes (toLowerCase errorMessage) "overloaded" in
          if isQuotaError then (KeyBreak, Some error, mark keyIndex w1)
          else
            let isRetryable :=
              isAlternativeRequestRetryable errorMessage statusCode in
            if negb isRetryable || (attempt =? altMaxRetries)%nat then
              if isLastKey then (KeyThrow error, Some error, w1)
              else (KeyBreak, Some error, w1)
            else
              keyAttempts altMaxRetries remaining' (S attempt) keyIndex
                isLastKey (Some error)
                (emit (Sleep (alternativeBackoff attempt)) w1)
      end
  end.

(** [for (const keyInfo of keysToTry)] *)
Fixpoint tryKeys (altMaxRetries : nat) (keysToTry : list nat)
    (lastError : option Js.error) (w : World) : Js.res string * World :=
  match keysToTry with
  | [] =>
      (Js.Throw (match lastError with
                 | Some e => e
                 | None => Js.Error "All API keys exhausted"
                 end), w)
  | keyIndex :: rest =>
      match Transport.transformRequestForHttpTransport geminiRequest with
      | Js.Throw transformError => (Js.Throw transformError, w)
      | Js.Ok _ =>
          let isLastKey := match rest with [] => true | _ => false end in
          match keyAttempts altMaxRetries altMaxRetries 1 keyIndex
                  isLastKey lastError w with
          | (KeyReturn text, _, w') => (Js.Ok text, w')
          | (KeyThrow e, _, w') => (Js.Throw e, w')
          | (KeyBreak, lastError', w') =>
              tryKeys altMaxRetries rest lastError' w'
          end
      end
  end.

(** [executeAlternativeRequest(geminiRequest, maxRetries, keyIndex)];
    [keyIndex] is [None] for [null]. *)
Definition executeAlternativeRequest (altMaxRetries : nat)
    (keyIndex : option nat) (w : World) : Js.res string * World :=
  let n := length apiKeys in
  let currentKeyIdx :=
    match keyIndex with
    | Some k => if (k <? n)%nat then k
                else if (currentKeyIndex (svc w) <? n)%nat
                     then currentKeyIndex (svc w) else 0%nat
    | None => if (currentKeyIndex (svc w) <? n)%nat
              then currentKeyIndex (svc w) else 0%nat
    end in
  if (n =? 0)%nat then
    (Js.Throw (Js.Error "No Gemini API keys available for alternative request"), w)
  else
    let candidates :=
      List.filter (fun idx => negb (has idx (svc w)))
        (map (fun i => (currentKeyIdx + i) mod n) (seq 0 n)) in
    match candidates with
    | [] =>
        tryKeys altMaxRetries [currentKeyIdx] None
          (setSvc (setExhaustedKeys ∅ (svc w)) w)
    | _ => tryKeys altMaxRetries candidates None w
    end.

(** ** Native transport and the retry loop *)

(** The effects of the [try] block before the request goes out. *)
Definition preflight (attempt : nat) : list Event :=
  if (attempt =? 1)%nat then [Preflight] else [].

(** The [try] block of one pass: the text it returns, or the error it
    raises into the [catch] block. *)
Definition tryNative (attempt : nat) (w : World)
  : (string + Js.error) * World :=
  let w0 := if (attempt =? 1)%nat then emit Preflight w else w in
  let '(currentModel, s') := getNextModel (svc w0) in
  let w1 := setSvc s' w0 in
  match currentModel with
  | None => (inr (Js.Error "No available Gemini models"), w1)
  | Some _ =>
      let currentKeyIndex := currentKeyIndex s' in
      let w2 := tick (emit (SdkCall currentKeyIndex) w1) in
      match sdk (clock w1) currentKeyIndex with
      | SdkRejects e => (inr e, w2)
      | SdkTimeout => (inr (Js.Error "Request timeout"), w2)
      | SdkNoResponse => (inr (Js.Error "Empty response from Gemini API"), w2)
      | SdkText (Js.Str responseText) =>
          if String.eqb (trim responseText) ""
          then (inr (Js.Error "Empty text content in Gemini response"), w2)
          else (inl (trim responseText), w2)
      | SdkText _ =>
          (inr (Js.Error "Empty text content in Gemini response"), w2)
      end
  end.

(** The identifier [currentKeyIndex] as the [catch] block of
    [executeRequest] sees it. [const currentKeyIndex = this.currentKeyIndex]
    is declared inside the [try] block; a [const] is scoped to its block,
    the [catch] block is another block, and no enclosing scope binds the
    name. So [typeof currentKeyIndex] is ['undefined'] in [catch],
    whatever the [try] block stored: [None]. *)
Definition currentKeyIndexInCatch : option nat := None.

Definition isQuotaError (error : Js.error) (errorInfo : ErrorInfo) : bool :=
  let errorMessage := toLowerCase (Js.message error) in
  String.eqb (type errorInfo) "RATE_LIMIT_ERROR"
  || includes errorMessage "quota"
  || includes errorMessage "rate limit"
  || includes errorMessage "429"
  || Js.isNum (Js.status error) 429.

(** The quota branch of the [catch] block: [true] when it ends in
    [continue]. [ck] is what the identifier [currentKeyIndex] denotes. *)
Definition switchKeyOnQuota (ck : option nat) (error : Js.error)
    (errorInfo : ErrorInfo) (w : World) : bool * World :=
  match ck with
  | Some k =>
      if isQuotaError error errorInfo
         && (1 <? length (models (svc w)))%nat then
        let w1 := mark k w in
        if (size (exhaustedKeys (svc w1)) <? length (models (svc w1)))%nat
        then (true, w1) else (false, w1)
      else (false, w)
  | None => (false, w)
  end.

(** The raw-transport fallback of the [catch] block: the text it returns,
    if any. *)
Definition tryFallback (ck : option nat) (w : World)
  : option string * World :=
  match executeAlternativeRequest 3 ck w with
  | (Js.Ok fallbackResponse, w1) => (Some fallbackResponse, w1)
  | (Js.Throw _, w1) =>
      match ck with
      | Some k =>
          let n := length (models (svc w1)) in
          let nextKeyIndex := ((k + 1) mod n)%nat in
          if (1 <? n)%nat && negb (nextKeyIndex =? k)%nat then
            match executeAlternativeRequest 3 (Some nextKeyIndex) w1 with
            | (Js.Ok nextKeyResponse, w2) =>
                (Some nextKeyResponse,
                 setSvc (setCurrentKeyIndex nextKeyIndex (svc w2)) w2)
            | (Js.Throw _, w2) => (None, w2)
            end
          else (None, w1)
      | None => (None, w1)
      end
  end.

(** The extra request of the last attempt, with the next key. *)
Definition tryNextKeyOnce (ck : option nat) (w : World)
  : option string * World :=
  match ck with
  | Some k =>
      let n := length (models (svc w)) in
      let nextKeyIndex := ((k + 1) mod n)%nat in
      if (1 <? n)%nat && negb (nextKeyIndex =? k)%nat
         && negb (has nextKeyIndex (svc w)) then
        let w1 := setSvc (setCurrentKeyIndex nextKeyIndex (svc w)) w in
        let w2 := tick (emit (SdkCall nextKeyIndex) w1) in
        match sdk (clock w1) nextKeyIndex with
        | SdkText (Js.Str responseText) =>
            if String.eqb (trim responseText) "" then (None, w2)
            else (Some (trim responseText), w2)
        | _ => (None, w2)
        end
      else (None, w)
  | None => (None, w)
  end.

(** [Math.min(baseDelay * Math.pow(2, attempt - 1) + jitter, 10000)] in
    binary64. The product of [baseDelay] and the power of two is exact,
    unless the power or the product is [Infinity]; then the sum is
    [Infinity] and the minimum is 10000. The sum is rounded. *)
Definition backoffDelay (isNetworkError : bool) (attempt : nat) (jitter : Q)
  : Q :=
  let baseDelay : Q := if isNetworkError then 2000%Q else 1000%Q in
  let exponentialDelay := (baseDelay * 2 ^ (Z.of_nat attempt - 1))%Q in
  if Binary64.overflows exponentialDelay then 10000%Q
  else Qmin (Binary64.round (exponentialDelay + jitter)) 10000%Q.

(** The [catch] block of one pass. *)
Definition onFailure (ck : option nat) (attempt : nat) (error : Js.error)
    (w : World) : Step * World :=
  let errorInfo := analyzeError error in
  let '(continue, w1) := switchKeyOnQuota ck error errorInfo w in
  if continue then (Next error, w1)
  else if negb (isRetryable errorInfo) then
    (Raise {| finalMessage :=
                "Gemini API error (non-retryable): " ++ Js.message error;
              errorAnalysis := Some errorInfo;
              originalError := Some error |}, w1)
  else
    let '(fallback, w2) :=
      if String.eqb (type errorInfo) "NETWORK_ERROR"
         && enableFallbackMethod && (attempt <=? 2)%nat
      then tryFallback ck w1 else (None, w1) in
    match fallback with
    | Some text => (Return text, w2)
    | None =>
        if (attempt =? maxRetries)%nat then
          match tryNextKeyOnce ck w2 with
          | (Some text, w3) => (Return text, w3)
          | (None, w3) =>
              (Raise {| finalMessage :=
                          "Gemini API failed after "
                            ++ Js.showZ (Z.of_nat maxRetries)
                            ++ " attempts: " ++ Js.message error;
                        errorAnalysis := Some errorInfo;
                        originalError := Some error |}, w3)
          end
        else
          let jitter := Binary64.round (random (draws w2) * 1000) in
          let delay := backoffDelay (isNetworkError errorInfo) attempt jitter in
          (Next error, emit (Sleep delay) (drawn w2))
    end.

(** One pass through the body of the [for] loop. *)
Definition pass (attempt : nat) (w : World) : Step * World :=
  match tryNative attempt w with
  | (inl text, w') => (Return text, w')
  | (inr error, w') => onFailure currentKeyIndexInCatch attempt error w'
  end.

(** [for (let attempt = 1; attempt <= maxRetries; attempt++)];
    [remaining] is [maxRetries - attempt + 1]. After the loop comes the
    [throw] the source calls unreachable. *)
Fixpoint attempts (remaining attempt : nat) (lastError : option Js.error)
    (w : World) : (string + FinalError) * World :=
  match remaining with
  | O =>
      (inr {| finalMessage :=
                "Gemini API failed after " ++ Js.showZ (Z.of_nat maxRetries)
                  ++ " attempts: "
                  ++ match lastError with
                     | Some e =>
                         if String.eqb (Js.message e) ""
                         then "Unknown error" else Js.message e
                     | None => "Unknown error"
                     end;
              errorAnalysis := option_map analyzeError lastError;
              originalError := lastError |}, w)
  | S remaining' =>
      match pass attempt w with
      | (Return text, w') => (inl text, w')
      | (Raise e, w') => (inr e, w')
      | (Next error, w') => attempts remaining' (S attempt) (Some error) w'
      end
  end.

Definition executeRequest (w : World) : (string + FinalError) * World :=
  attempts maxRetries 1 None w.

(** What [processTextWithSkill] raises from its first [try]/[catch]:
    the error of [executeRequest], or one of the raw transport. *)
Inductive Failure : Type :=
| FinalFailure (e : FinalError)
| RawFailure (e : Js.error).

(** The first [try]/[catch] of [processTextWithSkill]: the request goes
    through [executeRequest] and, when that fails with a message that
    contains 'fetch failed', through the raw transport, with the current
    key and then with the next one. The boolean is
    [usedAlternativeMethod]. *)
Definition requestWithFallback (w : World)
  : (string * bool + Failure) * World :=
  match executeRequest w with
  | (inl response, w1) => (inl (response, false), w1)
  | (inr error, w1) =>
      if includes (finalMessage error) "fetch failed"
         && enableFallbackMethod then
        match executeAlternativeRequest 3 None w1 with
        | (Js.Ok response, w2) => (inl (response, true), w2)
        | (Js.Throw altError, w2) =>
            let n := length (models (svc w2)) in
            if (1 <? n)%nat then
              let nextKeyIndex := ((currentKeyIndex (svc w2) + 1) mod n)%nat in
              match executeAlternativeRequest 3 (Some nextKeyIndex) w2 with
              | (Js.Ok response, w3) =>
                  (inl (response, true),
                   setSvc (setCurrentKeyIndex nextKeyIndex (svc w3)) w3)
              | (Js.Throw nextKeyError, w3) =>
                  (inr (RawFailure nextKeyError), w3)
              end
            else (inr (RawFailure altError), w2)
        end
      else (inr (FinalFailure error), w1)
  end.

End Run.

(** ** Sample runs *)

Definition sampleKeys : list string := ["AIzaKey1"; "AIzaKey2"].

(** Two credentials, none exhausted, nothing done yet. *)
Definition sampleWorld : World :=
  mkWorld (mkService sampleKeys 0 ∅) 0 0 [].

Definition quotaError : Js.error :=
  Js.Error "[429 Too Many Requests] Quota exceeded".

Definition authError : Js.error :=
  Js.Error "API key not valid: 403 Forbidden".

(** Two attempts allowed, every request refused for quota, no jitter. *)
Definition sampleRun (w : World) : (string + FinalError) * World :=
  executeRequest 2 60000 true sampleKeys (Js.Obj []) (fun _ => EmptyString)
    (fun _ _ => SdkRejects quotaError) (fun _ _ _ => HttpsTimeout)
    (fun _ => 0%Q) w.

(** The first pass of that run. *)
Definition samplePass (w : World) : Step * World :=
  pass 2 60000 true sampleKeys (Js.Obj []) (fun _ => EmptyString)
    (fun _ _ => SdkRejects quotaError) (fun _ _ _ => HttpsTimeout)
    (fun _ => 0%Q) 1 w.

(** The default five attempts, every request refused for quota. *)
Definition quotaRun (w : World) : (string + FinalError) * World :=
  executeRequest 5 60000 true sampleKeys (Js.Obj []) (fun _ => EmptyString)
    (fun _ _ => SdkRejects quotaError) (fun _ _ _ => HttpsTimeout)
    (fun _ => 0%Q) w.

(** The largest binary64 number below 1 but one: 1 - 2^-52. *)
Definition lateDraw : Q := 4503599627370495 # 4503599627370496.

(** The same run when every draw of [Math.random] is [lateDraw]. *)
Definition jitterRun (w : World) : (string + FinalError) * World :=
  executeRequest 5 60000 true sampleKeys (Js.Obj []) (fun _ => EmptyString)
    (fun _ _ => SdkRejects quotaError) (fun _ _ _ => HttpsTimeout)
    (fun _ => lateDraw) w.

End Orchestrator.

(* ================================================================== *)
(** * Regular expressions *)

(** The fragment of ECMAScript regular expressions that
    [extractMcqAnswer] uses, with the backtracking semantics of the
    language specification (pattern matchers taking a continuation). *)

Module Regex.
Import JsString.

(** An item of a character class. *)
Inductive Item : Type :=
| Ch (c : ascii)            (* a literal character *)
| Range (lo hi : ascii)     (* [lo-hi] *)
| Space                     (* \s *)
| NotSpace                  (* \S *)
| Word                      (* \w *)
| Digit.                    (* \d *)

Inductive Re : Type :=
| Empty
| Class (negated : bool) (items : list Item)   (* [...] or [^...] *)
| Dot                                          (* . *)
| Seq (a b : Re)
| Alt (a b : Re)                               (* a|b *)
| Repeat (min : nat) (max : option nat) (greedy : bool) (r : Re)
| Group (n : nat) (r : Re)                     (* n-th capturing (...) *)
| LineStart                                    (* ^ *)
| LineEnd                                      (* $ *)
| WordBoundary                                 (* \b *)
| LookAhead (r : Re).                          (* (?=...) *)

Record Flags : Type := mkFlags {
  global : bool;       (* g *)
  ignoreCase : bool;   (* i *)
  multiline : bool     (* m *)
}.

(** A regular expression object. *)
Record RegExp : Type := mkRegExp {
  source : Re;
  flags : Flags
}.

(** ** Writing patterns *)

Definition chr (c : ascii) : Re := Class false [Ch c].

(** A literal string. *)
Fixpoint lit (s : string) : Re :=
  match s with
  | EmptyString => Empty
  | String c EmptyString => chr c
  | String c s' => Seq (chr c) (lit s')
  end.

Fixpoint seq (rs : list Re) : Re :=
  match rs with
  | [] => Empty
  | [r] => r
  | r :: rs' => Seq r (seq rs')
  end.

Fixpoint alt (rs : list Re) : Re :=
  match rs with
  | [] => Empty
  | [r] => r
  | r :: rs' => Alt r (alt rs')
  end.

Definition star (r : Re) : Re := Repeat 0 None true r.          (* r* *)
Definition plus (r : Re) : Re := Repeat 1 None true r.          (* r+ *)
Definition opt (r : Re) : Re := Repeat 0 (Some 1) true r.       (* r? *)
Definition lazyStar (r : Re) : Re := Repeat 0 None false r.     (* r*? *)
Definition lazyPlus (r : Re) : Re := Repeat 1 None false r.     (* r+? *)
Definition lazyBetween (lo hi : nat) (r : Re) : Re :=           (* r{lo,hi}? *)
  Repeat lo (Some hi) false r.
Definition between (lo hi : nat) (r : Re) : Re :=               (* r{lo,hi} *)
  Repeat lo (Some hi) true r.

Definition space : Re := Class false [Space].                   (* \s *)
Definition word : Re := Class false [Word].                     (* \w *)
Definition digit : Re := Class false [Digit].                   (* \d *)
Definition any : Re := Class false [Space; NotSpace].           (* [\s\S] *)
Definition anything : Re := Class true [].                      (* [^] *)
Definition oneOf (items : list Item) : Re := Class false items.
Definition noneOf (items : list Item) : Re := Class true items.

Definition LF : ascii := ascii_of_nat 10.
Definition CR : ascii := ascii_of_nat 13.

(** ** Matching *)

Definition isLineTerminator (c : ascii) : bool :=
  Ascii.eqb c LF || Ascii.eqb c CR.

Definition isWordChar (c : ascii) : bool :=
  inRange 97 122 c || inRange 65 90 c || inRange 48 57 c
  || Ascii.eqb c "_".

Definition itemHas (i : Item) (c : ascii) : bool :=
  match i with
  | Ch c' => Ascii.eqb c c'
  | Range lo hi => inRange (code lo) (code hi) c
  | Space => isWhiteSpace c
  | NotSpace => negb (isWhiteSpace c)
  | Word => isWordChar c
  | Digit => inRange 48 57 c
  end.

Definition setHas (items : list Item) (c : ascii) : bool :=
  existsb (fun i => itemHas i c) items.

(** A class matches [c] when it has a member equal to [c]; under the
    flag [i], a member with the same canonical (upper-case) form. A
    negated class matches when the class does not. *)
Definition classMatches (fl : Flags) (negated : bool) (items : list Item)
    (c : ascii) : bool :=
  let found :=
    if ignoreCase fl
    then setHas items c || setHas items (upperChar c)
         || setHas items (lowerChar c)
    else setHas items c in
  if negated then negb found else found.

(** The state of a match: the character before the current position,
    the input from the current position on, the position, and the
    captures made so far (group number, captured text). *)
Record State : Type := mkState {
  prev : option ascii;
  rest : string;
  pos : nat;
  captures : list (nat * string)
}.

Definition step (st : State) (c : ascii) (rest' : string) : State :=
  {| prev := Some c; rest := rest'; pos := S (pos st);
     captures := captures st |}.

Definition capture (n : nat) (from to : State) : State :=
  {| prev := prev to; rest := rest to; pos := pos to;
     captures := (n, take (pos to - pos from) (rest from)) :: captures to |}.

Definition nextIsWord (st : State) : bool :=
  match rest st with
  | String c _ => isWordChar c
  | EmptyString => false
  end.

Definition prevIsWord (st : State) : bool :=
  match prev st with
  | Some c => isWordChar c
  | None => false
  end.

(** The matcher of [r]: from state [st], with continuation [k] for what
    follows. Alternatives are tried in order, and a failure of the
    continuation backtracks. In a repetition, an iteration that matches
    nothing once the minimum is reached is refused; [fuel] bounds the
    number of iterations by the minimum plus the input left, which they
    cannot exceed. (The language also resets, at each iteration, the
    captures of the groups inside the repetition; no pattern below has a
    group inside a repetition.) *)
Fixpoint run (fl : Flags) (r : Re) (st : State)
    (k : State -> option State) {struct r} : option State :=
  match r with
  | Empty => k st
  | Class negated items =>
      match rest st with
      | String c rest' =>
          if classMatches fl negated items c then k (step st c rest')
          else None
      | EmptyString => None
      end
  | Dot =>
      match rest st with
      | String c rest' =>
          if isLineTerminator c then None else k (step st c rest')
      | EmptyString => None
      end
  | Seq a b => run fl a st (fun st' => run fl b st' k)
  | Alt a b =>
      match run fl a st k with
      | Some st' => Some st'
      | None => run fl b st k
      end
  | Repeat min max greedy r' =>
      (fix loop (fuel min : nat) (max : option nat) (st : State)
         : option State :=
         match fuel with
         | O => None
         | S fuel' =>
             match max with
             | Some O => k st
             | _ =>
                 let iterate :=
                   run fl r' st
                     (fun st' =>
                        if (min =? 0)%nat && (pos st' =? pos st)%nat
                        then None
                        else loop fuel' (Nat.pred min)
                               (option_map Nat.pred max) st') in
                 if (0 <? min)%nat then iterate
                 else if greedy then
                   match iterate with
                   | Some st' => Some st'
                   | None => k st
                   end
                 else
                   match k st with
                   | Some st' => Some st'
                   | None => iterate
                   end
             end
         end) (min + String.length (rest st) + 2)%nat min max st
  | Group n r' => run fl r' st (fun st' => k (capture n st st'))
  | LineStart =>
      match prev st with
      | None => k st
      | Some c => if multiline fl && isLineTerminator c then k st else None
      end
  | LineEnd =>
      match rest st with
      | EmptyString => k st
      | String c _ =>
          if multiline fl && isLineTerminator c then k st else None
      end
  | WordBoundary =>
      if xorb (prevIsWord st) (nextIsWord st) then k st else None
  | LookAhead r' =>
      match run fl r' st Some with
      | Some st' =>
          k {| prev := prev st; rest := rest st; pos := pos st;
               captures := captures st' |}
      | None => None
      end
  end.

(** A successful match: where it starts and ends, the matched text and
    the captures. *)
Record Match : Type := mkMatch {
  index : nat;
  endIndex : nat;
  matched : string;
  groups : list (nat * string)
}.

(** [match[n]]: the text of group [n], if the group took part. *)
Fixpoint group (n : nat) (gs : list (nat * string)) : option string :=
  match gs with
  | [] => None
  | (n', s) :: gs' => if (n =? n')%nat then Some s else group n gs'
  end.

(** The first match that starts at or after the current position, the
    input before which ends with [prev]. *)
Fixpoint search (re : RegExp) (prev : option ascii) (s : string) (i : nat)
  : option Match :=
  match run (flags re) (source re)
            {| prev := prev; rest := s; pos := i; captures := [] |} Some with
  | Some st =>
      Some {| index := i; endIndex := pos st;
              matched := take (pos st - i) s; groups := captures st |}
  | None =>
      match s with
      | String c s' => search re (Some c) s' (S i)
      | EmptyString => None
      end
  end.

Definition found {A : Type} (o : option A) : bool :=
  match o with Some _ => true | None => false end.

(** [re.exec(s)] with [lastIndex] 0. *)
Definition exec (re : RegExp) (s : string) : option Match :=
  search re None s 0.

(** [re.test(s)] with [lastIndex] 0. *)
Definition test (re : RegExp) (s : string) : bool := found (exec re s).

(** [s.substring(n)] *)
Fixpoint drop (n : nat) (s : string) : string :=
  match n, s with
  | S n', String _ s' => drop n' s'
  | _, _ => s
  end.

(** The character before position [i] of [s]. *)
Definition charBefore (i : nat) (s : string) : option ascii :=
  match i with
  | O => None
  | S i' => headChar (drop i' s)
  end.

(** All the matches of a global search, in order: after a match the
    search goes on from its end, and one position further after an empty
    match. *)
Fixpoint matchesFrom (fuel : nat) (re : RegExp) (s : string)
    (lastIndex : nat) : list Match :=
  match fuel with
  | O => []
  | S fuel' =>
      if (String.length s <? lastIndex)%nat then []
      else
        match search re (charBefore lastIndex s) (drop lastIndex s)
                lastIndex with
        | None => []
        | Some m =>
            m :: matchesFrom fuel' re s
                   (if (endIndex m =? index m)%nat
                    then S (endIndex m) else endIndex m)
        end
  end.

Definition allMatches (re : RegExp) (s : string) : list Match :=
  matchesFrom (S (String.length s)) re s 0.

(** The matches [replace], [match] and [matchAll] go through: all of
    them for a global expression, the first one otherwise. *)
Definition matchesOf (re : RegExp) (s : string) : list Match :=
  if global (flags re) then allMatches re s
  else match exec re s with Some m => [m] | None => [] end.

(** [s.replace(re, f)] for a replacer function [f] of the match. *)
Fixpoint replaceFrom (f : Match -> string) (ms : list Match) (s : string)
    (i : nat) : string :=
  match ms with
  | [] => s
  | m :: ms' =>
      take (index m - i) s ++ f m
        ++ replaceFrom f ms' (drop (endIndex m - i) s) (endIndex m)
  end.

Definition replaceWith (re : RegExp) (f : Match -> string) (s : string)
  : string :=
  replaceFrom f (matchesOf re s) s 0.

(** [s.replace(re, 'text')], for a text without [$]. *)
Definition replace (re : RegExp) (text : string) (s : string) : string :=
  replaceWith re (fun _ => text) s.

(** [s.replace(re, '$1')] *)
Definition replaceByGroup1 (re : RegExp) (s : string) : string :=
  replaceWith re (fun m => match group 1 (groups m) with
                           | Some g => g
                           | None => EmptyString
                           end) s.

(** [s.match(re)] for a global [re]: the matched texts, [None] for
    [null]. *)
Definition matchGlobal (re : RegExp) (s : string) : option (list string) :=
  match allMatches re s with
  | [] => None
  | ms => Some (map matched ms)
  end.

End Regex.

(* ================================================================== *)
(** * MCQ answer extractor: [extractMcqAnswer] *)

Module Mcq.
Import JsString.
Import Regex.

Definition g : Flags := mkFlags true false false.
Definition i : Flags := mkFlags false true false.
Definition gi : Flags := mkFlags true true false.
Definition gm : Flags := mkFlags true false true.
Definition im : Flags := mkFlags false true true.
Definition gim : Flags := mkFlags true true true.
Definition noFlags : Flags := mkFlags false false false.

(** [[a-eA-E]], [[A-E]], [[\)\.]] *)
Definition letterAE : Re := oneOf [Range "a" "e"; Range "A" "E"].
Definition upperAE : Re := oneOf [Range "A" "E"].
Definition parenOrDot : Re := oneOf [Ch ")"; Ch "."].
Definition newline : Re := chr LF.
Definition notNewline : Re := noneOf [Ch LF].

(** ** Step 1: coding problems *)

Definition codingProblemIndicators : list RegExp :=
  [ (* /class\s+\w+\s*\{/i *)
    mkRegExp (seq [lit "class"; plus space; plus word; star space; chr "{"]) i;
    (* /(?:def|function|public|private|protected)\s+\w+\s*\(/i *)
    mkRegExp (seq [alt [lit "def"; lit "function"; lit "public";
                        lit "private"; lit "protected"];
                   plus space; plus word; star space; chr "("]) i;
    (* /leetcode|hackerrank|codeforces|atcoder/i *)
    mkRegExp (alt [lit "leetcode"; lit "hackerrank"; lit "codeforces";
                   lit "atcoder"]) i;
    (* /\d+\.\s+\w+.*rectangle|array|tree|graph|string/i *)
    mkRegExp (alt [seq [plus digit; chr "."; plus space; plus word;
                        star Dot; lit "rectangle"];
                   lit "array"; lit "tree"; lit "graph"; lit "string"]) i;
    (* /solution|implement|algorithm|code\s+to/i *)
    mkRegExp (alt [lit "solution"; lit "implement"; lit "algorithm";
                   seq [lit "code"; plus space; lit "to"]]) i;
    (* /return\s+(?:true|false|\w+)/i *)
    mkRegExp (seq [lit "return"; plus space;
                   alt [lit "true"; lit "false"; plus word]]) i;
    (* /#include|using\s+namespace|import\s+/i *)
    mkRegExp (alt [lit "#include";
                   seq [lit "using"; plus space; lit "namespace"];
                   seq [lit "import"; plus space]]) i;
    (* /vector|list|map|set|queue|stack/i *)
    mkRegExp (alt [lit "vector"; lit "list"; lit "map"; lit "set";
                   lit "queue"; lit "stack"]) i;
    (* /int\s+\w+\s*\(|void\s+\w+\s*\(|bool\s+\w+\s*\(/i *)
    mkRegExp (alt [seq [lit "int"; plus space; plus word; star space; chr "("];
                   seq [lit "void"; plus space; plus word; star space; chr "("];
                   seq [lit "bool"; plus space; plus word; star space; chr "("]])
             i ].

(** /```[\s\S]*?```/ and its global form *)
Definition fence : Re := seq [lit "```"; lazyStar any; lit "```"].
Definition codeBlock : RegExp := mkRegExp fence noFlags.
Definition codeBlocks : RegExp := mkRegExp fence g.

Definition codingSkills : list string :=
  ["dsa"; "programming"; "devops"; "data-science"; "system-design"].

(** ** Step 2: detection *)

Definition mcqPatterns : list RegExp :=
  [ (* /(?:which|what|choose|select|pick).*?(?:option|answer|choice|letter)
        [\s\S]{0,200}?[a-eA-E][\)\.]/gi *)
    mkRegExp (seq [alt [lit "which"; lit "what"; lit "choose"; lit "select";
                        lit "pick"];
                   lazyStar Dot;
                   alt [lit "option"; lit "answer"; lit "choice"; lit "letter"];
                   lazyBetween 0 200 any; letterAE; parenOrDot]) gi;
    (* /(?:option|answer|choice)\s*[a-eA-E][\)\.]/gi *)
    mkRegExp (seq [alt [lit "option"; lit "answer"; lit "choice"];
                   star space; letterAE; parenOrDot]) gi;
    (* /[a-eA-E][\)\.]\s+[A-Z][a-z]+/gi *)
    mkRegExp (seq [letterAE; parenOrDot; plus space;
                   oneOf [Range "A" "Z"]; plus (oneOf [Range "a" "z"])]) gi;
    (* /^\s*[a-eA-E][\)\.]\s+[A-Z]/gm *)
    mkRegExp (seq [LineStart; star space; letterAE; parenOrDot; plus space;
                   oneOf [Range "A" "Z"]]) gm ].

(** ** Step 3: the letter *)

(** /```[\w]*\n?/g, /```/g and /`([^`]+)`/g *)
Definition fenceOpen : RegExp :=
  mkRegExp (seq [lit "```"; star (oneOf [Word]); opt newline]) g.
Definition fenceMark : RegExp := mkRegExp (lit "```") g.
Definition inlineCode : RegExp :=
  mkRegExp (seq [chr "`"; Group 1 (plus (noneOf [Ch "`"])); chr "`"]) g.

(** The response with the code fences removed and their content kept. *)
Definition cleanForLetter (response : string) : string :=
  trim (replaceByGroup1 inlineCode
          (replaceWith codeBlocks
             (fun m => trim (replace fenceMark ""
                               (replace fenceOpen "" (matched m))))
             response)).

Definition answerPatterns : list RegExp :=
  [ (* /(?:answer|correct|right|solution)[\s:]*([a-eA-E])/gi *)
    mkRegExp (seq [alt [lit "answer"; lit "correct"; lit "right";
                        lit "solution"];
                   star (oneOf [Space; Ch ":"]); Group 1 letterAE]) gi;
    (* /(?:option|choice)\s*([a-eA-E])\s*
        (?:is|are|was|were|correct|right|answer)/gi *)
    mkRegExp (seq [alt [lit "option"; lit "choice"]; star space;
                   Group 1 letterAE; star space;
                   alt [lit "is"; lit "are"; lit "was"; lit "were";
                        lit "correct"; lit "right"; lit "answer"]]) gi;
    (* /^([a-eA-E])[\)\.]\s*(?:is|the|correct|answer)/gim *)
    mkRegExp (seq [LineStart; Group 1 letterAE; parenOrDot; star space;
                   alt [lit "is"; lit "the"; lit "correct"; lit "answer"]])
             gim;
    (* /(?:select|choose|pick)\s*([a-eA-E])/gi *)
    mkRegExp (seq [alt [lit "select"; lit "choose"; lit "pick"]; star space;
                   Group 1 letterAE]) gi;
    (* /answer\s*:\s*([a-eA-E])/gi *)
    mkRegExp (seq [lit "answer"; star space; chr ":"; star space;
                   Group 1 letterAE]) gi;
    (* /\b([a-eA-E])\b/g *)
    mkRegExp (seq [WordBoundary; Group 1 letterAE; WordBoundary]) g ].

(** /([a-eA-E])/i *)
Definition anyLetter : RegExp := mkRegExp (Group 1 letterAE) i.

(** [match.match(/([a-eA-E])/i)], then [letterMatch[1].toUpperCase()]:
    the first letter a-e of the matched text, whatever its place. *)
Definition letterOf (matchedText : string) : option ascii :=
  match exec anyLetter matchedText with
  | Some m =>
      match group 1 (groups m) with
      | Some (String c _) => Some (upperChar c)
      | _ => None
      end
  | None => None
  end.

(** The inner loop: the first matched text that gives a letter. *)
Fixpoint firstLetter (matches : list string) : option ascii :=
  match matches with
  | [] => None
  | m :: rest =>
      match letterOf m with
      | Some c => Some c
      | None => firstLetter rest
      end
  end.

(** The outer loop over [answerPatterns]. *)
Fixpoint extractLetter (patterns : list RegExp) (cleanResponse : string)
  : option ascii :=
  match patterns with
  | [] => None
  | pattern :: rest =>
      match matchGlobal pattern cleanResponse with
      | Some matches =>
          match firstLetter matches with
          | Some c => Some c
          | None => extractLetter rest cleanResponse
          end
      | None => extractLetter rest cleanResponse
      end
  end.

(** ** Step 4: the text of the option *)

(** [s.matchAll(re)]: a [TypeError] for an expression without the flag
    [g]. *)
Definition matchAll (re : RegExp) (s : string) : Js.res (list Match) :=
  if global (flags re) then Js.Ok (allMatches re s)
  else Js.Throw (Js.TypeError
         "String.prototype.matchAll called with a non-global RegExp argument").

Section Letter.

(** [letterUpper] and [letterLower] *)
Variable U L : ascii.

Definition theLetter : Re := oneOf [Ch U; Ch L].
Definition lineStartOrSpace : Re := alt [LineStart; oneOf [Space; Ch LF]].

(** (?=\s*(?:[A-E][\).]|$|\n\s*[A-E][\).]|\n\s*[A-E]\s|\n)) *)
Definition untilNextOption : Re :=
  LookAhead
    (seq [star space;
          alt [seq [upperAE; parenOrDot];
               LineEnd;
               seq [newline; star space; upperAE; parenOrDot];
               seq [newline; star space; upperAE; space];
               newline]]).

Definition optionPatterns : list RegExp :=
  [ (* 1: (?:^|[\s\n])([Xx])[\).]\s+([^\n]{1,500}?)(?=...), 'im' *)
    mkRegExp (seq [lineStartOrSpace; Group 1 theLetter; parenOrDot;
                   plus space; Group 2 (lazyBetween 1 500 notNewline);
                   untilNextOption]) im;
    (* 2: (?:^|[\s\n])([Xx])[\).]\s+([^\n]+?)
          (?=\s*(?:[A-E][\).]|$|\n)), 'im' *)
    mkRegExp (seq [lineStartOrSpace; Group 1 theLetter; parenOrDot;
                   plus space; Group 2 (lazyPlus notNewline);
                   LookAhead (seq [star space;
                                   alt [seq [upperAE; parenOrDot]; LineEnd;
                                        newline]])]) im;
    (* 3: (?:^|[\s\n])([Xx])\s+([^\n]{1,500}?)(?=...), 'im' *)
    mkRegExp (seq [lineStartOrSpace; Group 1 theLetter; plus space;
                   Group 2 (lazyBetween 1 500 notNewline);
                   untilNextOption]) im;
    (* 4: (?:^|[\s\n])([Xx])[\).]\s+([\s\S]{1,800}?)(?=...), 'im' *)
    mkRegExp (seq [lineStartOrSpace; Group 1 theLetter; parenOrDot;
                   plus space; Group 2 (lazyBetween 1 800 any);
                   untilNextOption]) im;
    (* 5: ([Xx])[\).]\s*([^Xx]{1,600}?)
          (?=\s*[A-E][\).]|\s*[A-E]\s|$), 'i' *)
    mkRegExp (seq [Group 1 theLetter; parenOrDot; star space;
                   Group 2 (lazyBetween 1 600 (noneOf [Ch U; Ch L]));
                   LookAhead (alt [seq [star space; upperAE; parenOrDot];
                                   seq [star space; upperAE; space];
                                   LineEnd])]) i;
    (* 6: (?:^|\n)\s*([Xx])[\).]\s+([\s\S]{1,800}?)
          (?=\s*(?:\n\s*[A-E][\).]|\n\s*[A-E]\s|$|\n)), 'im' *)
    mkRegExp (seq [alt [LineStart; newline]; star space; Group 1 theLetter;
                   parenOrDot; plus space; Group 2 (lazyBetween 1 800 any);
                   LookAhead
                     (seq [star space;
                           alt [seq [newline; star space; upperAE; parenOrDot];
                                seq [newline; star space; upperAE; space];
                                LineEnd; newline]])]) im;
    (* 7: \b([Xx])[\).]?\s+([^]*?)
          (?=\s*(?:[A-E][\).]|\s+[A-E]\s|$)), 'i' *)
    mkRegExp (seq [WordBoundary; Group 1 theLetter; opt parenOrDot;
                   plus space; Group 2 (lazyStar anything);
                   LookAhead
                     (seq [star space;
                           alt [seq [upperAE; parenOrDot];
                                seq [plus space; upperAE; space];
                                LineEnd]])]) i;
    (* 8: ([Xx])[\).]\s+([^\n]{1,200}), 'gi' *)
    mkRegExp (seq [Group 1 theLetter; parenOrDot; plus space;
                   Group 2 (between 1 200 notNewline)]) gi ].

Definition lastResortPatterns : list RegExp :=
  [ (* 1: ([Xx])[\).]\s*([^\n]{1,200}?)(?=\s*(?:[A-E][\).]|$|\n)), 'gi' *)
    mkRegExp (seq [Group 1 theLetter; parenOrDot; star space;
                   Group 2 (lazyBetween 1 200 notNewline);
                   LookAhead (seq [star space;
                                   alt [seq [upperAE; parenOrDot]; LineEnd;
                                        newline]])]) gi;
    (* 2: ([Xx])[\).]\s*([\s\S]{1,300}?)(?=\s*(?:[A-E][\).]|$)), 'i' *)
    mkRegExp (seq [Group 1 theLetter; parenOrDot; star space;
                   Group 2 (lazyBetween 1 300 any);
                   LookAhead (seq [star space;
                                   alt [seq [upperAE; parenOrDot]; LineEnd]])])
             i;
    (* 3: \b([Xx])\s+([^\n]{1,200}?)(?=\s*(?:[A-E][\).]|$|\n)), 'gi' *)
    mkRegExp (seq [WordBoundary; Group 1 theLetter; plus space;
                   Group 2 (lazyBetween 1 200 notNewline);
                   LookAhead (seq [star space;
                                   alt [seq [upperAE; parenOrDot]; LineEnd;
                                        newline]])]) gi;
    (* 4: ([Xx])[\).]?\s+([^]*?)(?=\s*(?:[A-E][\).]|\s+[A-E]\s|$)), 'i' *)
    mkRegExp (seq [Group 1 theLetter; opt parenOrDot; plus space;
                   Group 2 (lazyStar anything);
                   LookAhead
                     (seq [star space;
                           alt [seq [upperAE; parenOrDot];
                                seq [plus space; upperAE; space];
                                LineEnd]])]) i;
    (* 5: (?:^|\n)\s*([Xx])[\).]\s+([^\n]{1,200}), 'gim' *)
    mkRegExp (seq [alt [LineStart; newline]; star space; Group 1 theLetter;
                   parenOrDot; plus space;
                   Group 2 (between 1 200 notNewline)]) gim ].

End Letter.

(** /^\s*[•\-\*]\s*/ : the bullet U+2022 is not a code unit below 256, so
    within the strings modelled the class is [-] and [*]. *)
Definition leadingBullet : RegExp :=
  mkRegExp (seq [LineStart; star space; oneOf [Ch "-"; Ch "*"]; star space])
           noFlags.

(** /\n\s*\n+/g, /[\.;,\s]+$/, /\s+/g, /\n+/g *)
Definition blankLines : RegExp :=
  mkRegExp (seq [newline; star space; plus newline]) g.
Definition trailingPunctuation : RegExp :=
  mkRegExp (seq [plus (oneOf [Ch "."; Ch ";"; Ch ","; Space]); LineEnd])
           noFlags.
Definition whiteSpaces : RegExp := mkRegExp (plus space) g.
Definition newlines : RegExp := mkRegExp (plus newline) g.

Definition stopPatterns : list RegExp :=
  [ (* /^([^]*?)(?=\s+[A-E][\)\.])/ *)
    mkRegExp (seq [LineStart; Group 1 (lazyStar anything);
                   LookAhead (seq [plus space; upperAE; parenOrDot])])
             noFlags;
    (* /^([^]*?)(?=\n\s*[A-E][\)\.])/ *)
    mkRegExp (seq [LineStart; Group 1 (lazyStar anything);
                   LookAhead (seq [newline; star space; upperAE; parenOrDot])])
             noFlags;
    (* /^([^]*?)(?=\s+[A-E]\s)/ *)
    mkRegExp (seq [LineStart; Group 1 (lazyStar anything);
                   LookAhead (seq [plus space; upperAE; space])])
             noFlags ].

(** /^([^]*?)(?=\s+[A-E][\)\.]|$)/ *)
Definition stopAtNextOption : RegExp :=
  mkRegExp (seq [LineStart; Group 1 (lazyStar anything);
                 LookAhead (alt [seq [plus space; upperAE; parenOrDot];
                                 LineEnd])])
           noFlags.

(** One stop pattern applied to the text: [stopMatch[1].trim()] replaces
    the text when it is not empty. *)
Definition applyStop (text : string) (stopPattern : RegExp) : string :=
  match exec stopPattern text with
  | Some m =>
      match group 1 (groups m) with
      | Some EmptyString | None => text
      | Some g1 =>
          match trim g1 with
          | EmptyString => text
          | candidate => candidate
          end
      end
  | None => text
  end.

(** The text of one match of an option pattern, cleaned up; [None] is
    the [continue] of the loop and a match without second group. *)
Definition cleanOption (m : Match) : option string :=
  match group 2 (groups m) with
  | Some EmptyString | None => None
  | Some g2 =>
      match trim g2 with
      | EmptyString => None
      | text =>
          let text := trim (replace blankLines " "
                              (replace leadingBullet "" text)) in
          let text := fold_left applyStop stopPatterns text in
          Some (trim (replace trailingPunctuation "" text))
      end
  end.

(** [bestMatch], [bestLength], [bestPatternIndex] *)
Record Best : Type := mkBest {
  bestMatch : option string;
  bestLength : nat;
  bestPatternIndex : Z
}.

Definition noBest : Best := mkBest None 0 (-1).

(** [isBetterMatch], with [text.length >= bestLength * 0.7] counted in
    tenths. *)
Definition consider (idx : nat) (best : Best) (text : string) : Best :=
  let len := String.length text in
  if (bestLength best <? len)%nat
     || ((7 * bestLength best <=? 10 * len)%nat
         && (Z.of_nat idx <? bestPatternIndex best)%Z)
     || ((bestLength best =? 0)%nat && (0 <? len)%nat)
  then mkBest (Some text) len (Z.of_nat idx)
  else best.

(** The loop over the matches of one pattern. *)
Definition considerAll (idx : nat) (best : Best) (ms : list Match) : Best :=
  fold_left (fun best m =>
               match cleanOption m with
               | Some text => consider idx best text
               | None => best
               end) ms best.

(** The loop over [optionPatterns]; a pattern whose [matchAll] raises is
    passed over (the [catch] only logs). *)
Fixpoint findOption (idx : nat) (patterns : list RegExp)
    (originalText : string) (best : Best) : Best :=
  match patterns with
  | [] => best
  | pattern :: rest =>
      findOption (S idx) rest originalText
        match matchAll pattern originalText with
        | Js.Ok ms => considerAll idx best ms
        | Js.Throw _ => best
        end
  end.

(** ** Steps 5 and 6: the formatted answer *)

Definition nl : string := String LF EmptyString.

(** /[=+\-*\/<>()\[\]{};]/ *)
Definition codeSyntax : RegExp :=
  mkRegExp (oneOf [Ch "="; Ch "+"; Ch "-"; Ch "*"; Ch "/"; Ch "<"; Ch ">";
                   Ch "("; Ch ")"; Ch "["; Ch "]"; Ch "{"; Ch "}"; Ch ";"])
           noFlags.

Definition heading (letter : ascii) : string :=
  "## Answer: " ++ String letter EmptyString ++ nl ++ nl.

Definition showOption (letter : ascii) (text : string) : string :=
  if test codeSyntax text
  then heading letter ++ "```" ++ nl ++ text ++ nl ++ "```" ++ nl ++ nl
  else heading letter ++ "**" ++ text ++ "**" ++ nl ++ nl.

(** /answer\s*:\s*[a-eA-E]/gi *)
Definition answerPhrase : RegExp :=
  mkRegExp (seq [lit "answer"; star space; chr ":"; star space; letterAE]) gi.

(** The explanation to append, if any. *)
Definition explanation (response optionText : string) : string :=
  let cleanResponse :=
    trim (replaceByGroup1 inlineCode (replace codeBlocks "" response)) in
  let cleanResponseNoAnswer := trim (replace answerPhrase "" cleanResponse) in
  let lower := toLowerCase cleanResponseNoAnswer in
  let hasExplanation :=
    (15 <? String.length cleanResponseNoAnswer)%nat
    || includes lower "because" || includes lower "reason"
    || includes lower "explanation" in
  if hasExplanation
     && negb (includes lower (take 20 (toLowerCase optionText)))
  then "---" ++ nl ++ nl ++ "*Explanation:*" ++ nl ++ cleanResponseNoAnswer
  else EmptyString.

(** The text of one match of a last-resort pattern, cleaned up. *)
Definition cleanLastResort (m : Match) : option string :=
  match group 2 (groups m) with
  | Some EmptyString | None => None
  | Some g2 =>
      match trim g2 with
      | EmptyString => None
      | extracted =>
          let extracted :=
            trim (replace newlines " "
                    (replace whiteSpaces " "
                       (replace leadingBullet "" extracted))) in
          let extracted :=
            match exec stopAtNextOption extracted with
            | Some s =>
                match group 1 (groups s) with
                | Some EmptyString | None => extracted
                | Some g1 => trim g1
                end
            | None => extracted
            end in
          match trim (replace trailingPunctuation "" extracted) with
          | EmptyString => None
          | extracted => Some extracted
          end
      end
  end.

Fixpoint firstSome {A B : Type} (f : A -> option B) (l : list A) : option B :=
  match l with
  | [] => None
  | x :: rest =>
      match f x with
      | Some y => Some y
      | None => firstSome f rest
      end
  end.

(** The loops over [lastResortPatterns] and their matches: the first
    match that leaves a text. *)
Definition lastResort (patterns : list RegExp) (originalText : string)
  : option string :=
  firstSome (fun pattern =>
               match matchAll pattern originalText with
               | Js.Ok ms => firstSome cleanLastResort ms
               | Js.Throw _ => None
               end) patterns.

(** Steps 3 to 6, for a prompt classified as MCQ. *)
Definition rewriteAnswer (response originalText : string) : string :=
  match extractLetter answerPatterns (cleanForLetter response) with
  | None => response
  | Some extractedAnswer =>
      let U := upperChar extractedAnswer in
      let L := lowerChar extractedAnswer in
      match bestMatch (findOption 0 (optionPatterns U L) originalText noBest)
      with
      | Some (String c t as optionText) =>
          showOption extractedAnswer optionText
            ++ explanation response optionText
      | _ =>
          match lastResort (lastResortPatterns U L) originalText with
          | Some extracted => showOption extractedAnswer extracted
          | None => heading extractedAnswer ++ response
          end
      end
  end.

(** [activeSkill && codingSkills.includes(activeSkill)] *)
Definition isCodingSkill (activeSkill : Js.value) : bool :=
  match activeSkill with
  | Js.Str skill => existsb (String.eqb skill) codingSkills
  | _ => false
  end.

(** The patterns of [mcqPatterns] that match: [mcqMatches]. *)
Definition mcqMatches (originalText : string) : list RegExp :=
  List.filter (fun pattern => test pattern originalText) mcqPatterns.

(** [originalText.substring(0, n)], an argument of the log calls: a
    prompt that is not a string has no such method. *)
Definition preview (originalText : Js.value) (k : Js.res Js.value)
  : Js.res Js.value :=
  match originalText with
  | Js.Str _ => k
  | _ => Js.Throw (Js.TypeError "originalText.substring is not a function")
  end.

(** [extractMcqAnswer(response, originalText, activeSkill)]. The callers
    pass strings. The patterns are tested on a prompt of any kind, as
    the string it prints as; the calls that log a preview of the prompt
    raise for a prompt that is not a string: on the two ways out before
    the classification, and once the letter of the answer is found. A
    response that is not a string raises once the prompt is classified
    as MCQ. *)
Definition extractMcqAnswer (response originalText activeSkill : Js.value)
  : Js.res Js.value :=
  if negb (Js.truthy originalText) || negb (Js.truthy response) then
    Js.Ok response
  else
    let text := Js.toString originalText in
    let isLikelyCodingProblem :=
      existsb (fun pattern => test pattern text) codingProblemIndicators in
    let hasCodeBlocks := test codeBlock (Js.toString response) in
    if isLikelyCodingProblem
       || (hasCodeBlocks && isCodingSkill activeSkill)
    then preview originalText (Js.Ok response)
    else if (length (mcqMatches text) <? 2)%nat
    then preview originalText (Js.Ok response)
    else
      match response with
      | Js.Str answer =>
          match extractLetter answerPatterns (cleanForLetter answer) with
          | None => Js.Ok response
          | Some _ =>
              preview originalText (Js.Ok (Js.Str (rewriteAnswer answer text)))
          end
      | _ => Js.Throw (Js.TypeError "response.substring is not a function")
      end.

(** A prompt or an answer that is [null], [undefined] or the empty
    string. *)
Definition missing (v : Js.value) : Prop :=
  v = Js.Null \/ v = Js.Undefined \/ v = Js.Str EmptyString.

(** ** Sample prompts *)

Definition stableSortPrompt : string :=
  "Which is a stable sort? A) QuickSort B) MergeSort C) HeapSort D) Bubble Sort".

(** The same question with every option on a line of its own. *)
Definition stableSortLines : string :=
  "Which is a stable sort?" ++ nl ++ "A) QuickSort" ++ nl ++ "B) MergeSort"
    ++ nl ++ "C) HeapSort" ++ nl ++ "D) Bubble Sort".

End Mcq.

(* ================================================================== *)
(** * Reading the effects of a run *)

Module Effects.
Import Orchestrator.
Local Open Scope Q_scope.

Definition isPreflight (e : Event) : bool :=
  match e with Preflight => true | _ => false end.

Definition isSdkCall (e : Event) : bool :=
  match e with SdkCall _ => true | _ => false end.

Definition isHttpsCall (e : Event) : bool :=
  match e with HttpsCall _ _ _ => true | _ => false end.

Definition isSleep (e : Event) : bool :=
  match e with Sleep _ => true | _ => false end.

(** How many of the effects are of one kind. *)
Definition count (kind : Event -> bool) (evs : list Event) : nat :=
  length (List.filter kind evs).

(** No pause is longer than [cap] milliseconds. *)
Definition pauseWithin (cap : Q) (e : Event) : Prop :=
  match e with Sleep ms => ms <= cap | _ => True end.

(** An effect of the native loop alone: the preflight check, a request
    through the client, a pause. *)
Definition nativeEvent (e : Event) : Prop :=
  match e with
  | Preflight | SdkCall _ | Sleep _ => True
  | HttpsCall _ _ _ | MarkedExhausted _ => False
  end.

(** An effect of the raw transport with [n] credentials and [m] attempts
    for each: a request with one of the credentials, numbered from 1 to
    [m] and with ten more seconds to answer for every attempt before it,
    a credential marked exhausted, a pause of ten seconds at most. *)
Definition rawEvent (n m : nat) (timeout : Z) (e : Event) : Prop :=
  match e with
  | HttpsCall keyIndex attempt requestTimeout =>
      (keyIndex < n)%nat /\ (1 <= attempt <= m)%nat
      /\ requestTimeout = (timeout + (Z.of_nat attempt - 1) * 10000)%Z
  | MarkedExhausted keyIndex => (keyIndex < n)%nat
  | Sleep ms => ms <= 10000
  | Preflight | SdkCall _ => False
  end.

(** The error a request through the client ends with, if it fails: the
    rejection, the timeout, or what the checks on the result raise. *)
Definition failure (outcome : SdkOutcome) : option Js.error :=
  match outcome with
  | SdkRejects e => Some e
  | SdkTimeout => Some (Js.Error "Request timeout")
  | SdkNoResponse => Some (Js.Error "Empty response from Gemini API")
  | SdkText (Js.Str responseText) =>
      if String.eqb (JsString.trim responseText) ""
      then Some (Js.Error "Empty text content in Gemini response")
      else None
  | SdkText _ => Some (Js.Error "Empty text content in Gemini response")
  end.

(** The effects of [count] attempts in a row that fail and are retried,
    from attempt number [first] on: the request with the key, then the
    pause of that attempt. *)
Fixpoint retried (key : nat) (delay : nat -> Q) (first count : nat)
  : list Event :=
  match count with
  | O => []
  | S count' =>
      SdkCall key :: Sleep (delay first)
        :: retried key delay (S first) count'
  end.

End Effects.

(* ================================================================== *)
(** * Request builders *)

Module Builders.
Import JsString Js Transport.

Definition lf : string := String (ascii_of_nat 10) EmptyString.

(** The double quote, as a string. *)
Definition dq : string := String (ascii_of_nat 34) EmptyString.

(** The generation parameters every builder writes. *)
Definition generationDefaults : list (string * value) :=
  [("temperature", Real (7 # 10) "0.7");
   ("maxOutputTokens", Num 8192);
   ("topK", Num 40);
   ("topP", Real (95 # 100) "0.95")].

(** [formatUserMessage]; [activeSkill] is a string, [text] whatever the
    caller passes, printed as the template literal prints it. *)
Definition formatUserMessage (text : value) (activeSkill : string) : string :=
  "Context: " ++ toUpperCase activeSkill ++ " analysis request" ++ lf ++ lf
    ++ "Text to analyze:" ++ lf ++ toString text.

(** [getIntelligentTranscriptionPrompt]; a truthy [programmingLanguage]
    that is not a string has no [toUpperCase] method. *)
Definition getIntelligentTranscriptionPrompt (activeSkill : string)
    (programmingLanguage : value) : res string :=
  let prompt :=
    "# Intelligent Transcription Response System" ++ lf ++ lf
    ++ "Assume you are asked a question in " ++ toUpperCase activeSkill
    ++ " mode. Your job is to intelligently respond to question/message with appropriate brevity."
    ++ lf
    ++ "Assume you are in an interview and you need to perform best in "
    ++ toUpperCase activeSkill ++ " mode." ++ lf
    ++ "Always respond to the point, do not repeat the question or unnecessary information which is not related to "
    ++ activeSkill ++ "." in
  let* prompt :=
    if truthy programmingLanguage then
      match programmingLanguage with
      | Str language =>
          Ok (prompt ++ lf ++ lf
                     ++ "CODING CONTEXT: When providing code examples or technical solutions, use "
                     ++ toUpperCase language ++ " as the primary programming language.")
      | _ =>
          Throw (TypeError "programmingLanguage.toUpperCase is not a function")
      end
    else Ok prompt in
  Ok (prompt ++ lf ++ lf ++ "## Response Rules:" ++ lf ++ lf
               ++ "### If the transcription is casual conversation, greetings, or NOT related to "
               ++ activeSkill ++ ":" ++ lf ++ "- Respond with: " ++ dq
               ++ "Yeah, I'm listening. Ask your question relevant to " ++ activeSkill
               ++ "." ++ dq ++ lf ++ "- Or similar brief acknowledgments like: " ++ dq
               ++ "I'm here, what's your " ++ activeSkill ++ " question?" ++ dq ++ lf
               ++ lf ++ "### If the transcription IS relevant to " ++ activeSkill
               ++ " or is a follow-up question:" ++ lf
               ++ "- Provide a comprehensive, detailed response" ++ lf
               ++ "- Use bullet points, examples, and explanations" ++ lf
               ++ "- Focus on actionable insights and complete answers" ++ lf
               ++ "- Do not truncate or shorten your response" ++ lf ++ lf
               ++ "### Examples of casual/irrelevant messages:" ++ lf ++ "- " ++ dq
               ++ "Hello" ++ dq ++ ", " ++ dq ++ "Hi there" ++ dq ++ ", " ++ dq
               ++ "How are you?" ++ dq ++ lf ++ "- " ++ dq
               ++ "What's the weather like?" ++ dq ++ lf ++ "- " ++ dq
               ++ "I'm just testing this" ++ dq ++ lf
               ++ "- Random conversations not related to " ++ activeSkill ++ lf ++ lf
               ++ "### Examples of relevant messages:" ++ lf
               ++ "- Actual questions about " ++ activeSkill ++ " concepts" ++ lf
               ++ "- Follow-up questions to previous responses" ++ lf
               ++ "- Requests for clarification on " ++ activeSkill ++ " topics" ++ lf
               ++ "- Problem-solving requests related to " ++ activeSkill ++ lf ++ lf
               ++ "## Response Format:" ++ lf ++ "- Keep responses detailed" ++ lf
               ++ "- Use bullet points for structured answers" ++ lf
               ++ "- Be encouraging and helpful" ++ lf ++ "- Stay focused on "
               ++ activeSkill ++ lf ++ lf
               ++ "Remember: Be intelligent about filtering - only provide detailed responses when the user actually needs help with "
               ++ activeSkill ++ ".").

(** [xs.filter(f)] for a callback that may raise. *)
Fixpoint filterRes {A : Type} (f : A -> res bool) (l : list A)
  : res (list A) :=
  match l with
  | [] => Ok []
  | x :: rest =>
      let* keep := f x in
      let* kept := filterRes f rest in
      Ok (if keep then x :: kept else kept)
  end.

(** The [filter] callback of the builders:
    [event.role !== 'system' && event.content
     && typeof event.content === 'string'
     && event.content.trim().length > 0] *)
Definition keepEvent (event : value) : res bool :=
  let* role := get event "role" in
  if isStr role "system" then Ok false
  else
    let* content := get event "content" in
    Ok (truthy content
        && match content with
           | Str s => (0 <? String.length (trim s))%nat
           | _ => false
           end).

(** [event.content.trim()] *)
Definition trimContent (event : value) : res string :=
  let* content := get event "content" in
  match content with
  | Str s => Ok (trim s)
  | Undefined | Null =>
      let* _ := get content "trim" in Ok EmptyString
  | _ => Throw (TypeError "event.content.trim is not a function")
  end.

(** [{ role: event.role === 'model' ? 'model' : 'user',
       parts: [{ text: content }] }] *)
Definition turnOf (event : value) (content : string) : res value :=
  let* role := get event "role" in
  Ok (Obj [("role", Str (if isStr role "model" then "model" else "user"));
           ("parts", Arr [Obj [("text", Str content)]])]).

(** The [map] callback of [buildGeminiRequestWithHistory]. *)
Definition toTurn (event : value) : res value :=
  let* content := trimContent event in
  turnOf event content.

(** The [map] callback of
    [buildIntelligentTranscriptionRequestWithHistory]: [null] for an
    empty content. *)
Definition toTurnOrNull (event : value) : res value :=
  let* content := trimContent event in
  if String.eqb content "" then Ok Null
  else turnOf event content.

(** [content !== null] *)
Definition notNull (v : value) : bool :=
  match v with Null => false | _ => true end.

(** [xs.slice(-n)] *)
Definition lastN {A : Type} (n : nat) (l : list A) : list A :=
  skipn (length l - n) l.

(** The events of [conversationHistory], which has to have a [filter]
    method. *)
Definition events (conversationHistory : value) : res (list value) :=
  match conversationHistory with
  | Arr l => Ok l
  | Undefined | Null =>
      let* _ := get conversationHistory "filter" in Ok []
  | _ => Throw (TypeError "conversationHistory.filter is not a function")
  end.

Definition userTurn (text : string) : value :=
  Obj [("role", Str "user"); ("parts", Arr [Obj [("text", Str text)]])].

(** A turn as the wire format wants it: a role that is [user] or
    [model], and one part with a text that is not blank and has no white
    space at its ends. *)
Definition wellFormedTurn (turn : value) : Prop :=
  exists role text,
    turn = Obj [("role", Str role); ("parts", Arr [Obj [("text", Str text)]])]
    /\ (role = "user" \/ role = "model")
    /\ text <> "" /\ trim text = text.

Definition buildGeminiRequestWithHistory (text : value) (activeSkill : string)
    (conversationHistory skillContext : value) : res value :=
  let* skillPrompt := get skillContext "skillPrompt" in
  let systemInstruction :=
    if truthy skillPrompt then
      [("systemInstruction", Obj [("parts", Arr [Obj [("text", skillPrompt)]])])]
    else [] in
  let* history := events conversationHistory in
  let* kept := filterRes keepEvent history in
  let* conversationContents := mapRes toTurn kept in
  let formattedMessage := formatUserMessage text activeSkill in
  if String.eqb formattedMessage ""
     || (String.length (trim formattedMessage) =? 0)%nat then
    Throw (Error "Failed to format user message or message is empty")
  else
    Ok (Obj ([("contents",
               Arr (conversationContents ++ [userTurn formattedMessage]));
              ("generationConfig", Obj generationDefaults)]
             ++ systemInstruction)).

(** [text && typeof text === 'string' ? text.trim() : ''] *)
Definition cleanText (text : value) : string :=
  if truthy text then
    match text with Str s => trim s | _ => EmptyString end
  else EmptyString.

Definition buildIntelligentTranscriptionRequestWithHistory (text : value)
    (activeSkill : string) (conversationHistory skillContext : value)
    (programmingLanguage : value) : res value :=
  let* intelligentPrompt :=
    getIntelligentTranscriptionPrompt activeSkill programmingLanguage in
  let* skillPrompt := get skillContext "skillPrompt" in
  let combinedInstruction :=
    if truthy skillPrompt
    then toString skillPrompt ++ lf ++ lf ++ intelligentPrompt
    else intelligentPrompt in
  let* history := events conversationHistory in
  let* kept := filterRes keepEvent history in
  let* turns := mapRes toTurnOrNull (lastN 8 kept) in
  let conversationContents := List.filter notNull turns in
  if String.eqb (cleanText text) "" then
    Throw (Error "Empty or invalid transcription text provided")
  else
    let contents := (conversationContents ++ [userTurn (cleanText text)])%list in
    if (length contents =? 0)%nat then
      Throw (Error "No valid content to send to Gemini API")
    else
      Ok (Obj [("contents", Arr contents);
               ("generationConfig", Obj generationDefaults);
               ("systemInstruction",
                Obj [("parts", Arr [Obj [("text", Str combinedInstruction)]])])]).

(** A short history: a system note, two turns and a blank one. *)
Definition sampleHistory : value :=
  Arr [Obj [("role", Str "system"); ("content", Str "Session started")];
       Obj [("role", Str "user"); ("content", Str " What is a heap? ")];
       Obj [("role", Str "model"); ("content", Str "A tree-shaped priority queue.")];
       Obj [("role", Str "user"); ("content", Str "   ")]].

Definition sampleContext : value :=
  Obj [("skillPrompt", Str "You are a DSA tutor.")].

End Builders.

(* ================================================================== *)
(** * Option marks in a prompt *)

Module Marks.
Import JsString.

(** A letter a-e or A-E. *)
Definition isOptionLetter (c : ascii) : bool :=
  inRange 97 101 c || inRange 65 69 c.

Definition isParenOrDot (c : ascii) : bool :=
  Ascii.eqb c ")" || Ascii.eqb c ".".

(** The string has, somewhere, a letter a-e or A-E followed at once by
    a closing parenthesis or a full stop. *)
Fixpoint hasOptionMark (s : string) : bool :=
  match s with
  | EmptyString => false
  | String c s' =>
      match s' with
      | String d _ => isOptionLetter c && isParenOrDot d
      | EmptyString => false
      end
      || hasOptionMark s'
  end.

(** The letters an answer can be headed with. *)
Definition answerLetters : list ascii :=
  ["A"%char; "B"%char; "C"%char; "D"%char; "E"%char].

End Marks.

(* ================================================================== *)
(** * Facts about binary64 rounding *)

Module Binary64Facts.
Import Binary64.
Local Open Scope Q_scope.

Lemma two_neq_0 : ~ 2 == 0.
Proof. discriminate. Qed.

Lemma pow2_pos (z : Z) : 0 < 2 ^ z.
Proof. apply Qpower_0_lt. reflexivity. Qed.

Lemma pow2_plus (a b : Z) : 2 ^ (a + b) == 2 ^ a * 2 ^ b.
Proof. apply Qpower_plus. exact two_neq_0. Qed.

Lemma pow2_opp (a : Z) : 2 ^ (- a) == / 2 ^ a.
Proof. apply Qpower_opp. Qed.

Lemma pow2_cancel (a : Z) : 2 ^ a * 2 ^ (- a) == 1.
Proof.
  rewrite <- pow2_plus. now replace (a + - a)%Z with 0%Z by lia.
Qed.

Lemma pow2_le (a b : Z) : (a <= b)%Z -> 2 ^ a <= 2 ^ b.
Proof. intros H. apply Qpower_le_compat_l; [exact H|discriminate]. Qed.

Lemma pow2_lt_inv (a b : Z) : 2 ^ a < 2 ^ b -> (a < b)%Z.
Proof.
  intros H. destruct (Z_lt_le_dec a b) as [|Hle]; [assumption|].
  apply pow2_le in Hle. lra.
Qed.

Lemma pow2_inject (n : Z) : (0 <= n)%Z -> inject_Z (2 ^ n) == 2 ^ n.
Proof. intros H. now rewrite Zpower_Qpower. Qed.

Lemma exponent_spec (q : Q) :
  0 < q -> 2 ^ exponent q <= q /\ q < 2 ^ (exponent q + 1).
Proof.
  intros Hq. destruct q as [n d]. unfold exponent. cbn [Qnum Qden].
  assert (Hn : (0 < n)%Z) by (unfold Qlt in Hq; simpl in Hq; lia).
  destruct (Z.log2_spec n Hn) as [Hn1 Hn2].
  destruct (Z.log2_spec (Zpos d) (Pos2Z.is_pos d)) as [Hd1 Hd2].
  set (ln := Z.log2 n) in *. set (ld := Z.log2 (Zpos d)) in *.
  assert (Hln : (0 <= ln)%Z) by apply Z.log2_nonneg.
  assert (Hld : (0 <= ld)%Z) by apply Z.log2_nonneg.
  assert (Hq' : n # d == inject_Z n / inject_Z (Zpos d)) by apply Qmake_Qdiv.
  assert (Hdpos : 0 < inject_Z (Zpos d)) by (unfold Qlt; simpl; lia).
  assert (En1 : 2 ^ ln <= inject_Z n)
    by (rewrite <- pow2_inject by lia; rewrite <- Zle_Qle; exact Hn1).
  assert (En2 : inject_Z n < 2 ^ (ln + 1))
    by (rewrite <- pow2_inject by lia; rewrite <- Zlt_Qlt;
        now rewrite <- Z.add_1_r in Hn2).
  assert (Ed1 : 2 ^ ld <= inject_Z (Zpos d))
    by (rewrite <- pow2_inject by lia; rewrite <- Zle_Qle; exact Hd1).
  assert (Ed2 : inject_Z (Zpos d) < 2 ^ (ld + 1))
    by (rewrite <- pow2_inject by lia; rewrite <- Zlt_Qlt;
        now rewrite <- Z.add_1_r in Hd2).
  assert (Hmul : (n # d) * inject_Z (Zpos d) == inject_Z n).
  { rewrite Hq'. field. lra. }
  pose proof (pow2_pos ld) as Pld. pose proof (pow2_pos (ln - ld)) as Pe.
  pose proof (pow2_pos (ln - ld - 1)) as Pe1.
  assert (Hup : n # d < 2 ^ (ln - ld + 1)).
  { assert (E : 2 ^ (ln - ld + 1) * 2 ^ ld == 2 ^ (ln + 1))
      by (rewrite <- pow2_plus; now replace (ln - ld + 1 + ld)%Z with (ln + 1)%Z by lia).
    assert (Hcontra : ~ 2 ^ (ln - ld + 1) <= n # d).
    { intros Hc.
      assert (2 ^ (ln - ld + 1) * 2 ^ ld <= (n # d) * inject_Z (Zpos d)).
      { apply Qmult_le_compat_nonneg; split; try lra.
        apply Qlt_le_weak, pow2_pos. }
      lra. }
    lra. }
  assert (Hlow : 2 ^ (ln - ld - 1) < n # d).
  { assert (E : 2 ^ (ln - ld - 1) * 2 ^ (ld + 1) == 2 ^ ln)
      by (rewrite <- pow2_plus; now replace (ln - ld - 1 + (ld + 1))%Z with ln by lia).
    assert (Hcontra : ~ n # d <= 2 ^ (ln - ld - 1)).
    { intros Hc.
      assert ((n # d) * inject_Z (Zpos d) <= 2 ^ (ln - ld - 1) * 2 ^ (ld + 1)).
      { apply Qmult_le_compat_nonneg; split; try lra. }
      assert (2 ^ (ln - ld - 1) * inject_Z (Zpos d) < 2 ^ (ln - ld - 1) * 2 ^ (ld + 1))
        by (apply Qmult_lt_l; assumption).
      assert ((n # d) * inject_Z (Zpos d) <= 2 ^ (ln - ld - 1) * inject_Z (Zpos d))
        by (apply Qmult_le_compat_r; lra).
      lra. }
    lra. }
  destruct (Qle_bool (2 ^ (ln - ld)) (n # d)) eqn:E.
  - apply Qle_bool_iff in E. split; assumption.
  - assert (Hlt : n # d < 2 ^ (ln - ld)).
    { destruct (Qlt_le_dec (n # d) (2 ^ (ln - ld))) as [|Hle]; [assumption|].
      apply Qle_bool_iff in Hle. congruence. }
    split; [lra|]. now replace (ln - ld - 1 + 1)%Z with (ln - ld)%Z by lia.
Qed.


Lemma floor_le (q : Q) : inject_Z (Qnum q / Zpos (Qden q)) <= q.
Proof.
  destruct q as [n d]. cbn [Qnum Qden]. unfold Qle. cbn.
  rewrite Z.mul_1_r. rewrite Z.mul_comm. apply Z.mul_div_le. lia.
Qed.

Lemma floor_spec (q : Q) (k : Z) :
  inject_Z k <= q <-> (k <= Qnum q / Zpos (Qden q))%Z.
Proof.
  destruct q as [n d]. cbn [Qnum Qden]. unfold Qle. cbn.
  rewrite Z.mul_1_r. split; intros H.
  - apply Z.div_le_lower_bound; lia.
  - pose proof (Z.mul_div_le n (Zpos d) ltac:(lia)). nia.
Qed.

(** The nearest integer is at least every integer below, and at most
    every integer above. *)
Lemma nearestEven_ge (q : Q) (k : Z) :
  inject_Z k <= q -> (k <= nearestEven q)%Z.
Proof.
  intros H. apply floor_spec in H. unfold nearestEven.
  destruct (_ ?= _)%Z; [destruct (Z.even _)| |]; lia.
Qed.

Lemma nearestEven_le (q : Q) (k : Z) :
  q <= inject_Z k -> (nearestEven q <= k)%Z.
Proof.
  destruct q as [n d]. unfold nearestEven, Qle.
  cbn [Qnum Qden inject_Z]. rewrite Z.mul_1_r.
  intros H.
  pose proof (Z.div_mod n (Zpos d) ltac:(lia)) as Hdm.
  pose proof (Z.mod_pos_bound n (Zpos d) ltac:(lia)) as Hr.
  set (f := (n / Zpos d)%Z) in *. set (r := (n mod Zpos d)%Z) in *.
  destruct (Z.compare_spec (2 * r) (Zpos d));
    [destruct (Z.even _)| |]; nia.
Qed.

(** Below the middle between [k] and [k + 1] the nearest integer is at
    most [k]. *)
Lemma nearestEven_below_half (q : Q) (k : Z) :
  q < inject_Z k + (1 # 2) -> (nearestEven q <= k)%Z.
Proof.
  destruct q as [n d]. unfold nearestEven, Qlt, Qplus.
  cbn [Qnum Qden inject_Z]. rewrite !Z.mul_1_r, Pos.mul_1_l.
  intros H.
  pose proof (Z.div_mod n (Zpos d) ltac:(lia)) as Hdm.
  pose proof (Z.mod_pos_bound n (Zpos d) ltac:(lia)) as Hr.
  set (f := (n / Zpos d)%Z) in *. set (r := (n mod Zpos d)%Z) in *.
  destruct (Z.compare_spec (2 * r) (Zpos d));
    [destruct (Z.even _)| |]; nia.
Qed.

Lemma roundPositive_eq (x : Q) :
  roundPositive x
  == inject_Z (nearestEven (x / 2 ^ ulpExponent x)) * 2 ^ ulpExponent x.
Proof. unfold roundPositive. apply Qred_correct. Qed.

Lemma round_pos (x : Q) : 0 < x -> round x = roundPositive x.
Proof.
  destruct x as [[|n|n] d]; unfold Qlt; cbn; intros H; try lia. reflexivity.
Qed.

Lemma scale_le (x y : Q) (e : Z) : x <= y -> x / 2 ^ e <= y / 2 ^ e.
Proof.
  intros H. unfold Qdiv. apply Qmult_le_compat_r; [exact H|].
  apply Qlt_le_weak, Qinv_lt_0_compat, pow2_pos.
Qed.

Lemma scale_int (k e : Z) :
  (e <= 0)%Z -> inject_Z k / 2 ^ e == inject_Z (k * 2 ^ (- e)).
Proof.
  intros He. rewrite inject_Z_mult, pow2_inject by lia.
  rewrite pow2_opp. reflexivity.
Qed.

(** Every integer up to [2^53] below [x] is below the double nearest to
    [x]. *)
Lemma round_ge_int (k : Z) (x : Q) :
  (k <= 2 ^ 53)%Z -> 0 < x -> inject_Z k <= x -> inject_Z k <= round x.
Proof.
  intros Hk Hx Hkx. rewrite (round_pos x Hx), roundPositive_eq.
  destruct (exponent_spec x Hx) as [He1 He2].
  pose proof (pow2_pos (ulpExponent x)) as Hp.
  destruct (Z_le_gt_dec (ulpExponent x) 0) as [Hex|Hex].
  - apply (scale_le _ _ (ulpExponent x)) in Hkx.
    rewrite (scale_int k _ Hex) in Hkx.
    apply nearestEven_ge in Hkx. rewrite Zle_Qle in Hkx.
    rewrite <- (scale_int k _ Hex) in Hkx.
    apply (Qmult_le_compat_r _ _ (2 ^ ulpExponent x)) in Hkx; [|lra].
    assert (E : inject_Z k / 2 ^ ulpExponent x * 2 ^ ulpExponent x
                == inject_Z k) by (field; lra).
    lra.
  - assert (Hu : ulpExponent x = (exponent x - 52)%Z)
      by (unfold ulpExponent in *; lia).
    assert (H52 : inject_Z (2 ^ 52) <= x / 2 ^ ulpExponent x).
    { rewrite pow2_inject by lia.
      apply (scale_le _ _ (ulpExponent x)) in He1.
      assert (E : 2 ^ exponent x / 2 ^ ulpExponent x == 2 ^ 52).
      { replace (exponent x) with (52 + ulpExponent x)%Z at 1 by lia.
        rewrite pow2_plus. field. lra. }
      lra. }
    apply nearestEven_ge in H52. rewrite Zle_Qle in H52.
    apply (Qmult_le_compat_r _ _ (2 ^ ulpExponent x)) in H52; [|lra].
    assert (E : inject_Z (2 ^ 52) * 2 ^ ulpExponent x == 2 ^ exponent x).
    { rewrite pow2_inject by lia. rewrite <- pow2_plus.
      now replace (52 + ulpExponent x)%Z with (exponent x) by lia. }
    assert (H53 : inject_Z k <= 2 ^ 53)
      by (rewrite <- pow2_inject by lia; now rewrite <- Zle_Qle).
    assert (2 ^ 53 <= 2 ^ exponent x) by (apply pow2_le; lia).
    lra.
Qed.

(** Every integer below [2^53] above [x] is above the double nearest to
    [x]. *)
Lemma round_le_int (k : Z) (x : Q) :
  (k < 2 ^ 53)%Z -> 0 < x -> x <= inject_Z k -> round x <= inject_Z k.
Proof.
  intros Hk Hx Hkx. rewrite (round_pos x Hx), roundPositive_eq.
  destruct (exponent_spec x Hx) as [He1 He2].
  pose proof (pow2_pos (ulpExponent x)) as Hp.
  assert (Hex : (ulpExponent x <= 0)%Z).
  { assert (H53 : inject_Z k < 2 ^ 53)
      by (rewrite <- pow2_inject by lia; now rewrite <- Zlt_Qlt).
    assert (Hlt : 2 ^ exponent x < 2 ^ 53) by lra.
    apply pow2_lt_inv in Hlt. unfold ulpExponent. lia. }
  apply (scale_le _ _ (ulpExponent x)) in Hkx.
  rewrite (scale_int k _ Hex) in Hkx.
  apply nearestEven_le in Hkx. rewrite Zle_Qle in Hkx.
  rewrite <- (scale_int k _ Hex) in Hkx.
  apply (Qmult_le_compat_r _ _ (2 ^ ulpExponent x)) in Hkx; [|lra].
  assert (E : inject_Z k / 2 ^ ulpExponent x * 2 ^ ulpExponent x
              == inject_Z k) by (field; lra).
  lra.
Qed.

Lemma round_zero (x : Q) : x == 0 -> round x = 0.
Proof.
  destruct x as [[|n|n] d]; unfold Qeq; cbn; intros H; try lia. reflexivity.
Qed.

Lemma round_nonneg (x : Q) : 0 <= x -> 0 <= round x.
Proof.
  intros H. destruct (Qlt_le_dec 0 x) as [Hpos|Hle].
  - apply (round_ge_int 0 x); [lia|exact Hpos|exact H].
  - rewrite round_zero; [apply Qle_refl|lra].
Qed.

(** The jitter: a double below 1, times 1000, rounds to a double below
    1000. *)
Lemma round_jitter (r : Q) :
  0 <= r -> r <= belowOne ->
  0 <= round (r * 1000) /\ round (r * 1000) < 1000.
Proof.
  intros H0 H1. split; [apply round_nonneg; lra|].
  set (x := r * 1000).
  assert (Hb : x <= 1000 - 1000 * 2 ^ (-53)) by (unfold x, belowOne in *; lra).
  destruct (Qlt_le_dec 0 x) as [Hpos|Hle];
    [|rewrite round_zero; [reflexivity|unfold x in *; lra]].
  destruct (Qlt_le_dec x 512) as [Hsmall|Hbig].
  - apply Qle_lt_trans with (inject_Z 512); [|reflexivity].
    apply round_le_int; [reflexivity|exact Hpos|].
    apply Qlt_le_weak. exact Hsmall.
  - destruct (exponent_spec x Hpos) as [He1 He2].
    assert (P53 : 0 < 1000 * 2 ^ (-53))
      by (apply Qmult_lt_0_compat; [reflexivity|apply pow2_pos]).
    assert (He : exponent x = 9%Z).
    { assert (Hlo : 2 ^ 9 < 2 ^ (exponent x + 1))
        by (apply Qle_lt_trans with x; [exact Hbig|exact He2]).
      assert (Hhi : 2 ^ exponent x < 2 ^ 10)
        by (apply Qle_lt_trans with x; [exact He1|];
            apply Qle_lt_trans with (1000 - 1000 * 2 ^ (-53));
            [exact Hb|]; apply Qlt_trans with 1000; [lra|reflexivity]).
      apply pow2_lt_inv in Hlo, Hhi. lia. }
    assert (Hu : ulpExponent x = (-43)%Z) by (unfold ulpExponent; rewrite He; reflexivity).
    rewrite (round_pos x Hpos), roundPositive_eq, Hu.
    assert (Hm : (nearestEven (x / 2 ^ (-43)) <= 1000 * 2 ^ 43 - 1)%Z).
    { apply nearestEven_below_half.
      apply Qle_lt_trans with ((1000 - 1000 * 2 ^ (-53)) / 2 ^ (-43));
        [apply scale_le; exact Hb|]. reflexivity. }
    rewrite Zle_Qle in Hm.
    apply Qle_lt_trans with (inject_Z (1000 * 2 ^ 43 - 1) * 2 ^ (-43));
      [|reflexivity].
    apply Qmult_le_compat_r; [exact Hm|discriminate].
Qed.

End Binary64Facts.


(* ================================================================== *)
(** * Facts about the regular expressions *)

Module RegexFacts.
Import JsString Regex.

(** Matching a literal is reading it off the input. *)
Lemma run_lit (fl : Flags) (needle : string) :
  ignoreCase fl = false ->
  forall (st : State) (k : State -> option State),
    (forall st', found (k st') = true) ->
    found (run fl (lit needle) st k) = startsWith (rest st) needle.
Proof.
  intros Hcase.
  assert (Hchr : forall c st k,
            run fl (chr c) st k
            = match rest st with
              | String x rest' =>
                  if Ascii.eqb c x then k (step st x rest') else None
              | EmptyString => None
              end).
  { intros c st k. cbn [run chr]. destruct (rest st) as [|x rest']; [reflexivity|].
    unfold classMatches. rewrite Hcase. cbn [setHas existsb itemHas].
    rewrite orb_false_r, (Ascii.eqb_sym x c). reflexivity. }
  induction needle as [|c needle IH]; intros st k Hk.
  - cbn [lit run]. rewrite Hk. now destruct (rest st).
  - destruct needle as [|d needle].
    + cbn [lit]. rewrite Hchr. cbn [startsWith].
      destruct (rest st) as [|x rest']; [reflexivity|].
      destruct (Ascii.eqb c x); [|reflexivity].
      rewrite Hk. now destruct rest'.
    + change (lit (String c (String d needle)))
        with (Seq (chr c) (lit (String d needle))).
      cbn [run]. rewrite Hchr.
      change (startsWith (rest st) (String c (String d needle)))
        with (match rest st with
              | EmptyString => false
              | String x rest' =>
                  Ascii.eqb c x && startsWith rest' (String d needle)
              end).
      destruct (rest st) as [|x rest']; [reflexivity|].
      destruct (Ascii.eqb c x); [|reflexivity].
      now rewrite IH.
Qed.

(** A search for a literal, letter case respected, finds it exactly when
    the string includes it. *)
Lemma test_lit (fl : Flags) (needle s : string) :
  ignoreCase fl = false ->
  test (mkRegExp (lit needle) fl) s = includes s needle.
Proof.
  intros Hcase. unfold test, exec.
  generalize (@None ascii) as prev, 0 as i.
  induction s as [|c s IH]; intros prev i.
  - cbn [search includes flags source].
    pose proof (run_lit fl needle Hcase
                  {| prev := prev; rest := ""; pos := i; captures := [] |}
                  Some (fun _ => eq_refl)) as H.
    cbn [rest] in H. rewrite orb_false_r, <- H.
    now destruct (run fl (lit needle) _ Some).
  - cbn [search includes flags source].
    pose proof (run_lit fl needle Hcase
                  {| prev := prev; rest := String c s; pos := i;
                     captures := [] |}
                  Some (fun _ => eq_refl)) as H.
    cbn [rest] in H. rewrite <- H.
    destruct (run fl (lit needle) _ Some); [reflexivity|].
    cbn [found orb]. apply IH.
Qed.

End RegexFacts.

(* ================================================================== *)
(** * Facts about strings *)

Module JsStringFacts.
Import JsString.

Lemma append_cons (c : ascii) (s t : string) :
  String c s ++ t = String c (s ++ t).
Proof. reflexivity. Qed.

Lemma append_nil (t : string) : "" ++ t = t.
Proof. reflexivity. Qed.

Lemma startsWith_mapChars (f : ascii -> ascii) (s p : string) :
  startsWith s p = true ->
  startsWith (mapChars f s) (mapChars f p) = true.
Proof.
  revert s. induction p as [|a p IH]; intros s H; [reflexivity|].
  destruct s as [|b s]; simpl in *; [discriminate|].
  apply andb_prop in H as [Hab Hs].
  apply Ascii.eqb_eq in Hab. subst b.
  rewrite Ascii.eqb_refl. simpl. auto.
Qed.

Lemma includes_mapChars (f : ascii -> ascii) (s needle : string) :
  includes s needle = true ->
  includes (mapChars f s) (mapChars f needle) = true.
Proof.
  induction s as [|c s IH]; simpl; intros H.
  - rewrite orb_false_r in H.
    apply (startsWith_mapChars f "" needle) in H.
    simpl in H. rewrite H. reflexivity.
  - apply orb_prop in H as [H|H].
    + apply (startsWith_mapChars f (String c s) needle) in H.
      simpl in H. rewrite H. reflexivity.
    + rewrite (IH H). apply orb_true_r.
Qed.

(** A needle in lower case found in a message is found in the message
    put to lower case. *)
Lemma includes_toLowerCase (s needle : string) :
  toLowerCase needle = needle ->
  includes s needle = true ->
  includes (toLowerCase s) needle = true.
Proof.
  intros Hn H. rewrite <- Hn. now apply includes_mapChars.
Qed.

Lemma startsWith_app (s t p : string) :
  startsWith s p = true -> startsWith (s ++ t) p = true.
Proof.
  revert s. induction p as [|a p IH]; intros s H.
  - now destruct s.
  - destruct s as [|b s]; simpl in *; [discriminate|].
    apply andb_prop in H as [-> Hs]. simpl. auto.
Qed.

Lemma includes_app_r (t s needle : string) :
  includes s needle = true -> includes (t ++ s) needle = true.
Proof.
  induction t as [|c t IH]; simpl; intros H; [exact H|].
  rewrite (IH H). apply orb_true_r.
Qed.

(** A character that is not the first of the needle starts no
    occurrence. *)
Lemma includes_skip (c d : ascii) (s needle : string) :
  c <> d ->
  includes (String c s) (String d needle) = includes s (String d needle).
Proof.
  intros H. cbn [includes startsWith].
  destruct (Ascii.eqb_spec d c) as [->|_]; [contradiction|reflexivity].
Qed.

(** ** [trim] *)

Lemma trimStart_spec (s : string) :
  (exists l, s = l ++ trimStart s /\ allChars isWhiteSpace l = true)
  /\ (forall c, headChar (trimStart s) = Some c -> isWhiteSpace c = false).
Proof.
  induction s as [|c s [[l [Hl Hws]] Hh]]; simpl.
  - split; [exists ""; auto | discriminate].
  - destruct (isWhiteSpace c) eqn:E.
    + split; [|exact Hh].
      exists (String c l). simpl. rewrite E, Hws, append_cons.
      split; [now rewrite <- Hl|reflexivity].
    + split; [exists ""; auto|].
      simpl. intros c' [= <-]. exact E.
Qed.

Lemma trimEnd_spec (s : string) :
  (exists r, s = trimEnd s ++ r /\ allChars isWhiteSpace r = true)
  /\ (forall c, lastChar (trimEnd s) = Some c -> isWhiteSpace c = false)
  /\ (forall c, headChar s = Some c -> isWhiteSpace c = false ->
                headChar (trimEnd s) = Some c).
Proof.
  induction s as [|c s [[r [Hr Hws]] [Hl Hh]]]; simpl.
  - split; [exists ""; auto|]. split; discriminate.
  - destruct (trimEnd s) as [|d t] eqn:Et.
    + destruct (isWhiteSpace c) eqn:E.
      * split; [|split; [discriminate|]].
        -- exists (String c r). simpl in *. rewrite E, Hws, append_nil in *.
           split; [now rewrite <- Hr|reflexivity].
        -- intros c' [= <-] Hc. congruence.
      * split; [|split].
        -- exists r. rewrite append_nil in Hr. rewrite append_cons, append_nil.
           split; [now rewrite <- Hr|exact Hws].
        -- simpl. intros c' [= <-]. exact E.
        -- intros c' [= <-] _. reflexivity.
    + split; [|split].
      * exists r. rewrite !append_cons in *. split; [now rewrite <- Hr|exact Hws].
      * intros c' Hc. apply Hl. simpl in *. exact Hc.
      * intros c' [= <-] _. reflexivity.
Qed.

Lemma trim_Trimmed (s : string) : Trimmed s (trim s).
Proof.
  unfold trim.
  destruct (trimStart_spec s) as [[l [Hl Hlw]] Hh].
  destruct (trimEnd_spec (trimStart s)) as [[r [Hr Hrw]] [Hlast Hhead]].
  split; [|split].
  - exists l, r. split; [|auto]. rewrite <- Hr. exact Hl.
  - intros c Hc. destruct (trimStart s) as [|d t] eqn:E; [discriminate|].
    destruct (isWhiteSpace d) eqn:Ed.
    + specialize (Hh d eq_refl). congruence.
    + rewrite (Hhead d eq_refl Ed) in Hc. congruence.
  - exact Hlast.
Qed.

Lemma trimStart_id (s : string) :
  (forall c, headChar s = Some c -> isWhiteSpace c = false) ->
  trimStart s = s.
Proof.
  destruct s as [|c s]; [reflexivity|].
  intros H. simpl. now rewrite (H c eq_refl).
Qed.

Lemma trimEnd_id (s : string) :
  (forall c, lastChar s = Some c -> isWhiteSpace c = false) ->
  trimEnd s = s.
Proof.
  induction s as [|c s IH]; [reflexivity|].
  intros H. simpl. destruct s as [|d t].
  - simpl. now rewrite (H c eq_refl).
  - rewrite IH; [reflexivity|]. intros c' Hc. apply H. exact Hc.
Qed.

(** A string with no white space at its ends is left as it is. *)
Lemma trim_id (s : string) :
  (forall c, headChar s = Some c -> isWhiteSpace c = false) ->
  (forall c, lastChar s = Some c -> isWhiteSpace c = false) ->
  trim s = s.
Proof.
  intros Hh Hl. unfold trim. rewrite (trimStart_id s Hh). now apply trimEnd_id.
Qed.

Lemma trim_idempotent (s : string) : trim (trim s) = trim s.
Proof.
  destruct (trim_Trimmed s) as [_ [Hh Hl]]. now apply trim_id.
Qed.

(** ** [split] *)



Lemma interleave_cons_sep (seg : string) (segs : list string)
    (c : ascii) (seps : list ascii) :
  segs <> [] ->
  interleave (seg :: segs) (c :: seps)
  = seg ++ String c (interleave segs seps).
Proof. destruct segs; [congruence|reflexivity]. Qed.



Lemma split_segments (sep : ascii -> bool) (s : string) :
  Forall (fun seg => allChars (fun c => negb (sep c)) seg = true)
         (split sep s).
Proof.
  induction s as [|c s IH]; simpl.
  - constructor; [reflexivity|constructor].
  - destruct (sep c) eqn:E.
    + constructor; [reflexivity|exact IH].
    + destruct (split sep s) as [|h t]; [now repeat constructor; simpl; rewrite E|].
      inversion IH; subst. constructor; [|assumption].
      simpl. rewrite E. simpl. assumption.
Qed.


(** A string without separator is its own single segment. *)
Lemma split_single (sep : ascii -> bool) (s : string) :
  allChars (fun c => negb (sep c)) s = true -> split sep s = [s].
Proof.
  induction s as [|c s IH]; simpl; [reflexivity|].
  intros H. apply andb_prop in H as [Hc Hs].
  apply negb_true_iff in Hc. rewrite Hc, (IH Hs). reflexivity.
Qed.

End JsStringFacts.

(* ================================================================== *)
(** * Facts about [getApiKeys] *)

Module ConfigFacts.
Import JsString JsStringFacts Config.

Lemma trimStart_ws_app (l t : string) :
  allChars isWhiteSpace l = true -> trimStart (l ++ t) = trimStart t.
Proof.
  induction l as [|c l IH]; [reflexivity|].
  intros H. simpl in H. apply andb_prop in H as [Hc Hl].
  rewrite append_cons. simpl. rewrite Hc. auto.
Qed.

Lemma trimEnd_ws (r : string) :
  allChars isWhiteSpace r = true -> trimEnd r = "".
Proof.
  induction r as [|c r IH]; [reflexivity|].
  intros H. simpl in H. apply andb_prop in H as [Hc Hr].
  simpl. now rewrite (IH Hr), Hc.
Qed.

Lemma trimEnd_app_ws (t r : string) :
  allChars isWhiteSpace r = true -> trimEnd (t ++ r) = trimEnd t.
Proof.
  intros Hr. induction t as [|c t IH].
  - rewrite append_nil. now apply trimEnd_ws.
  - rewrite append_cons. simpl. now rewrite IH.
Qed.

(** [Trimmed] determines the result of [trim]. *)
Lemma Trimmed_unique (s k : string) : Trimmed s k -> trim s = k.
Proof.
  intros [[l [r [-> [Hl Hr]]]] [Hh Hlast]].
  unfold trim. rewrite (trimStart_ws_app l _ Hl).
  destruct k as [|c k].
  - rewrite append_nil.
    destruct (trimStart_spec r) as [[l' [Hl' Hw']] Hh'].
    assert (Hts : allChars isWhiteSpace (trimStart r) = true).
    { clear - Hr. induction r as [|c r IH]; [reflexivity|].
      simpl in *. apply andb_prop in Hr as [Hc Hr]. rewrite Hc. auto. }
    now apply trimEnd_ws.
  - rewrite append_cons. simpl trimStart. rewrite (Hh c eq_refl).
    rewrite <- append_cons, (trimEnd_app_ws _ r Hr).
    now apply trimEnd_id.
Qed.

Lemma keepKey_spec (k : string) :
  keepKey k = true <-> k <> "" /\ k <> placeholder.
Proof.
  unfold keepKey. rewrite andb_true_iff, negb_true_iff.
  destruct (String.eqb_spec k placeholder) as [->|Hp].
  - split; [intros [_ H]; discriminate | intros [_ H]; congruence].
  - destruct k; simpl; split; try tauto; try (intros [H _]; discriminate).
    intros _. split; [discriminate|exact Hp].
Qed.


Lemma getApiKeys_unfold (env : Env) (service v : string) :
  env (envKey service) = Some v ->
  getApiKeys env service
  = List.filter keepKey (map trim (split isSeparator v)).
Proof.
  unfold getApiKeys. intros ->. now destruct v.
Qed.



End ConfigFacts.

(* ================================================================== *)
(** * Facts about the error classifier *)

Module ClassifierFacts.
Import JsString JsStringFacts Classifier.

Lemma includesAny_In (s needle : string) (needles : list string) :
  In needle needles -> includes s needle = true ->
  includesAny s needles = true.
Proof.
  intros Hin H. apply existsb_exists. exists needle. auto.
Qed.

(** The first row decides before any other. *)
Lemma network_row_first (e : Js.error) :
  networkRow e = true -> type (analyzeError e) = "NETWORK_ERROR".
Proof.
  unfold analyzeError. fold (row networkNeedles e). fold (networkRow e).
  now intros ->.
Qed.

(** Only the two kinds that are not retried have [isRetryable] false. *)
Lemma not_retryable_kinds (e : Js.error) :
  isRetryable (analyzeError e) = false <->
  type (analyzeError e) = "AUTH_ERROR"
  \/ type (analyzeError e) = "INVALID_REQUEST_ERROR".
Proof.
  unfold analyzeError.
  repeat match goal with
         | |- context [if ?b then _ else _] => destruct b
         end; simpl; split; intros H; auto;
    try discriminate; destruct H; discriminate.
Qed.

(** C3. [analyzeError] returns one of the seven kinds for every error;
    its flags are those of the table; the rows are tried in the order of
    the table and the first that matches decides, so a message with both
    "timeout" and "econnreset" is a NETWORK_ERROR. *)
Theorem analyzeError_table (e : Js.error) :
  let i := analyzeError e in
  In (type i) kinds
  /\ (isNetworkError i = true <->
      type i = "NETWORK_ERROR" \/ type i = "TIMEOUT_ERROR")
  /\ (isRetryable i = false <->
      type i = "AUTH_ERROR" \/ type i = "INVALID_REQUEST_ERROR")
  /\ (type i = "NETWORK_ERROR" <-> networkRow e = true)
  /\ (type i = "AUTH_ERROR" <->
      networkRow e = false /\ row authNeedles e = true)
  /\ (type i = "RATE_LIMIT_ERROR" <->
      networkRow e = false /\ row authNeedles e = false
      /\ row rateLimitNeedles e = true)
  /\ (type i = "TIMEOUT_ERROR" <->
      networkRow e = false /\ row authNeedles e = false
      /\ row rateLimitNeedles e = false /\ row timeoutNeedles e = true)
  /\ (type i = "SERVER_ERROR" <->
      networkRow e = false /\ row authNeedles e = false
      /\ row rateLimitNeedles e = false /\ row timeoutNeedles e = false
      /\ row serverNeedles e = true)
  /\ (type i = "INVALID_REQUEST_ERROR" <->
      networkRow e = false /\ row authNeedles e = false
      /\ row rateLimitNeedles e = false /\ row timeoutNeedles e = false
      /\ row serverNeedles e = false /\ row invalidRequestNeedles e = true)
  /\ (type i = "UNKNOWN_ERROR" <->
      networkRow e = false /\ row authNeedles e = false
      /\ row rateLimitNeedles e = false /\ row timeoutNeedles e = false
      /\ row serverNeedles e = false /\ row invalidRequestNeedles e = false)
  /\ (includes (Js.message e) "timeout" = true ->
      includes (Js.message e) "econnreset" = true ->
      type i = "NETWORK_ERROR").
Proof.
  assert (Hex : includes (Js.message e) "econnreset" = true ->
                networkRow e = true).
  { intros H. unfold networkRow, row.
    rewrite (includesAny_In _ "econnreset"); [reflexivity| |].
    - unfold networkNeedles. simpl. tauto.
    - now apply includes_toLowerCase. }
  cbv zeta. unfold analyzeError.
  fold (row networkNeedles e). fold (networkRow e).
  fold (row authNeedles e). fold (row rateLimitNeedles e).
  fold (row timeoutNeedles e). fold (row serverNeedles e).
  fold (row invalidRequestNeedles e).
  destruct (networkRow e) eqn:E1;
    [|destruct (row authNeedles e) eqn:E2;
      [|destruct (row rateLimitNeedles e) eqn:E3;
        [|destruct (row timeoutNeedles e) eqn:E4;
          [|destruct (row serverNeedles e) eqn:E5;
            [|destruct (row invalidRequestNeedles e) eqn:E6]]]]];
    cbn [type isNetworkError isRetryable];
    (repeat split);
    try (intros; discriminate);
    try (intros; reflexivity);
    try (unfold kinds; simpl; tauto);
    try (intros [?|?]; discriminate);
    try (intros; left; reflexivity);
    try (intros; right; reflexivity);
    try (intros; repeat match goal with H : _ /\ _ |- _ => destruct H end;
         discriminate);
    try (intros _ H; specialize (Hex H); discriminate).
Qed.

Lemma analyzeError_table_witness :
  type (analyzeError (Js.Error "Request timeout after read ECONNRESET"))
  = "NETWORK_ERROR"
  /\ type (analyzeError (Js.Error "socket timeout: econnreset"))
     = "NETWORK_ERROR".
Proof.
  split.
  - apply (proj2 (proj1 (proj2 (proj2 (proj2
      (analyzeError_table (Js.Error "Request timeout after read ECONNRESET"))))))).
    reflexivity.
  - apply (proj2 (proj2 (proj2 (proj2 (proj2 (proj2 (proj2 (proj2 (proj2
      (proj2 (analyzeError_table (Js.Error "socket timeout: econnreset")))))))))))).
    + reflexivity.
    + reflexivity.
Defined.

End ClassifierFacts.

(* ================================================================== *)
(** * Facts about the credential pool *)

Module PoolFacts.
Import Pool.

Lemma has_true (i : nat) (s : LLMService) :
  has i s = true <-> i ∈ exhaustedKeys s.
Proof. unfold has. apply bool_decide_eq_true. Qed.

Lemma has_false (i : nat) (s : LLMService) :
  has i s = false <-> i ∉ exhaustedKeys s.
Proof. unfold has. apply bool_decide_eq_false. Qed.

Lemma setCurrentKeyIndex_same (s : LLMService) :
  setCurrentKeyIndex (currentKeyIndex s) s = s.
Proof. now destruct s. Qed.

(** The loop stops at the first index, counted cyclically from the
    current one, that is not exhausted. *)
Lemma rotate_finds (remaining : nat) :
  forall (s : LLMService) (d : nat),
    let n := length (models s) in
    let cur := currentKeyIndex s in
    d < remaining -> cur < n ->
    (cur + d) mod n ∉ exhaustedKeys s ->
    (forall d', d' < d -> (cur + d') mod n ∈ exhaustedKeys s) ->
    rotate remaining s
    = (Some (models s !! ((cur + d) mod n)),
       setCurrentKeyIndex ((cur + d) mod n) s).
Proof.
  induction remaining as [|r IH]; intros s d n cur Hd Hcur Hfree Hbusy; [lia|].
  simpl. destruct d as [|d].
  - replace ((cur + 0) mod n) with cur in *
      by (rewrite Nat.add_0_r, Nat.mod_small; auto).
    apply has_false in Hfree. fold cur. rewrite Hfree.
    subst cur. now rewrite setCurrentKeyIndex_same.
  - assert (Hin : cur ∈ exhaustedKeys s).
    { specialize (Hbusy 0 ltac:(lia)).
      now rewrite Nat.add_0_r, Nat.mod_small in Hbusy. }
    apply has_true in Hin. fold cur. rewrite Hin.
    fold n.
    assert (Hn : n <> 0) by lia.
    assert (Hstep : forall k, ((cur + 1) mod n + k) mod n = (cur + S k) mod n).
    { intros k. rewrite Nat.Div0.add_mod_idemp_l. f_equal. lia. }
    rewrite (IH (setCurrentKeyIndex ((cur + 1) mod n) s) d); simpl.
    + fold n. now rewrite Hstep.
    + lia.
    + fold n. now apply Nat.mod_upper_bound.
    + fold n. now rewrite Hstep.
    + intros d' Hd'. fold n. rewrite Hstep. apply Hbusy. lia.
Qed.

(** The loop runs out when the indices it visits are all exhausted. *)
Lemma rotate_exhausted (remaining : nat) :
  forall (s : LLMService),
    let n := length (models s) in
    let cur := currentKeyIndex s in
    cur < n ->
    (forall d, d < remaining -> (cur + d) mod n ∈ exhaustedKeys s) ->
    rotate remaining s
    = (None, setCurrentKeyIndex ((cur + remaining) mod n) s).
Proof.
  induction remaining as [|r IH]; intros s n cur Hcur Hbusy.
  - simpl. subst cur n. rewrite Nat.add_0_r, Nat.mod_small by auto.
    now rewrite setCurrentKeyIndex_same.
  - simpl.
    assert (Hin : cur ∈ exhaustedKeys s).
    { specialize (Hbusy 0 ltac:(lia)).
      now rewrite Nat.add_0_r, Nat.mod_small in Hbusy. }
    apply has_true in Hin. fold cur. rewrite Hin. fold n.
    assert (Hstep : forall k, ((cur + 1) mod n + k) mod n = (cur + S k) mod n).
    { intros k. rewrite Nat.Div0.add_mod_idemp_l. f_equal. lia. }
    rewrite (IH (setCurrentKeyIndex ((cur + 1) mod n) s)); simpl.
    + fold n. now rewrite Hstep.
    + fold n. apply Nat.mod_upper_bound. lia.
    + intros d Hd. fold n. rewrite Hstep. apply Hbusy. lia.
Qed.

Lemma getNextModel_many (s : LLMService) :
  2 <= length (models s) ->
  getNextModel s
  = match rotate (length (models s)) s with
    | (Some m, s') => (m, s')
    | (None, s') =>
        (models s' !! 0, setCurrentKeyIndex 0 (setExhaustedKeys ∅ s'))
    end.
Proof.
  unfold getNextModel. destruct (models s) as [|m [|m' l]]; simpl; [lia|lia|].
  reflexivity.
Qed.

Lemma markAll_models (l : list nat) (s : LLMService) :
  models (markAll l s) = models s.
Proof.
  revert s. induction l as [|k l IH]; intros s; [reflexivity|].
  unfold markAll in *. simpl. now rewrite IH.
Qed.

Lemma markAll_exhausted (l : list nat) (s : LLMService) (i : nat) :
  i ∈ exhaustedKeys (markAll l s) <-> In i l \/ i ∈ exhaustedKeys s.
Proof.
  revert s. induction l as [|k l IH]; intros s.
  - simpl. tauto.
  - unfold markAll in *. simpl. rewrite IH. simpl.
    rewrite elem_of_union, elem_of_singleton. intuition congruence.
Qed.

Lemma markAll_index (l : list nat) (s : LLMService) :
  1 <= length (models s) -> currentKeyIndex s < length (models s) ->
  currentKeyIndex (markAll l s) < length (models s).
Proof.
  revert s. induction l as [|k l IH]; intros s Hn Hcur; [exact Hcur|].
  unfold markAll in *. simpl.
  specialize (IH (markKeyExhausted k s)). simpl in IH. apply IH; [exact Hn|].
  apply Nat.mod_upper_bound. lia.
Qed.

(** C2, as the code has it. With one credential [getNextModel] returns
    it and touches nothing. With two or more, and the current index
    inside the pool: a current credential that is not exhausted is
    returned as it is; otherwise the index advances, modulo the size and
    fewer than size times, to the first credential that is not exhausted;
    and when every index is exhausted (as after [markKeyExhausted] calls
    that cover every index) the flags are all cleared and the credential
    at index 0 is returned. *)
Theorem getNextModel_rotation (s : LLMService) :
  let n := length (models s) in
  let cur := currentKeyIndex s in
  (n = 1 -> getNextModel s = (models s !! 0, s))
  /\ (2 <= n -> cur < n ->
      (cur ∉ exhaustedKeys s -> getNextModel s = (models s !! cur, s))
      /\ (forall d, d < n ->
            (cur + d) mod n ∉ exhaustedKeys s ->
            (forall d', d' < d -> (cur + d') mod n ∈ exhaustedKeys s) ->
            getNextModel s
            = (models s !! ((cur + d) mod n),
               setCurrentKeyIndex ((cur + d) mod n) s))
      /\ ((forall i, i < n -> i ∈ exhaustedKeys s) ->
          getNextModel s = (models s !! 0, mkService (models s) 0 ∅))
      /\ (forall l, (forall i, i < n -> In i l) ->
          getNextModel (markAll l s)
          = (models s !! 0, mkService (models s) 0 ∅))).
Proof.
  intros n cur. split.
  - unfold getNextModel. subst n.
    destruct (models s) as [|m [|m' l]]; simpl; intros H; try lia.
    reflexivity.
  - intros Hn Hcur.
    assert (Hfind : forall d, d < n ->
              (cur + d) mod n ∉ exhaustedKeys s ->
              (forall d', d' < d -> (cur + d') mod n ∈ exhaustedKeys s) ->
              getNextModel s
              = (models s !! ((cur + d) mod n),
                 setCurrentKeyIndex ((cur + d) mod n) s)).
    { intros d Hd Hfree Hbusy.
      rewrite getNextModel_many by exact Hn.
      pose proof (rotate_finds (length (models s)) s d Hd Hcur Hfree Hbusy) as R.
      cbv zeta in R. now rewrite R. }
    assert (Hall : forall s', length (models s') = n ->
              currentKeyIndex s' < n ->
              (forall i, i < n -> i ∈ exhaustedKeys s') ->
              getNextModel s' = (models s' !! 0, mkService (models s') 0 ∅)).
    { intros s' Hlen Hcur' Hbusy.
      rewrite getNextModel_many by lia.
      pose proof (rotate_exhausted (length (models s')) s') as R.
      cbv zeta in R. rewrite R.
      - reflexivity.
      - lia.
      - intros d _. apply Hbusy. rewrite Hlen. apply Nat.mod_upper_bound. lia. }
    split; [|split; [|split]].
    + intros Hfree. specialize (Hfind 0 ltac:(lia)).
      rewrite Nat.add_0_r, Nat.mod_small in Hfind by exact Hcur.
      rewrite Hfind; [|exact Hfree|intros; lia].
      subst cur. now rewrite setCurrentKeyIndex_same.
    + exact Hfind.
    + apply Hall; [reflexivity|exact Hcur].
    + intros l Hl.
      rewrite Hall; rewrite ?markAll_models; try reflexivity.
      * apply markAll_index; [lia|exact Hcur].
      * intros i Hi. apply markAll_exhausted. left. now apply Hl.
Qed.

Lemma getNextModel_rotation_witness :
  getNextModel samplePool = (Some "AIzaKey1", setCurrentKeyIndex 0 samplePool)
  /\ getNextModel (markAll [2; 0; 1] samplePool)
     = (Some "AIzaKey1", mkService (models samplePool) 0 ∅).
Proof.
  destruct (getNextModel_rotation samplePool) as [_ H].
  destruct (H ltac:(simpl; lia) ltac:(simpl; lia)) as [_ [Hfind [_ Hmark]]].
  split.
  - apply (Hfind 2).
    + simpl. lia.
    + vm_compute. set_solver.
    + intros d' Hd'. destruct d' as [|[|d']]; [| |lia]; vm_compute; set_solver.
  - apply (Hmark [2; 0; 1]).
    intros i Hi. simpl in Hi. simpl.
    destruct i as [|[|[|i]]]; [tauto|tauto|tauto|lia].
Defined.

(** C2 as the specification words it, for every size from 1 on, fails on
    a pool of one credential: its only index is exhausted (one
    [markKeyExhausted] call covers every index), and [getNextModel]
    returns the credential while the flag stays set. *)
Lemma getNextModel_single_keeps_flags :
  let s := markAll [0] singlePool in
  1 <= length (models s)
  /\ (forall i, i < length (models s) -> i ∈ exhaustedKeys s)
  /\ fst (getNextModel s) = Some "AIzaKey1"
  /\ 0 ∈ exhaustedKeys (snd (getNextModel s))
  /\ exhaustedKeys (snd (getNextModel s)) <> ∅.
Proof.
  cbv zeta. split; [simpl; lia|]. split; [|split; [reflexivity|]].
  - intros i Hi. simpl in Hi. replace i with 0 by lia. vm_compute. set_solver.
  - assert (H0 : 0 ∈ exhaustedKeys (snd (getNextModel (markAll [0] singlePool)))).
    { vm_compute. set_solver. }
    split; [exact H0|]. intros E. rewrite E in H0. set_solver.
Qed.

End PoolFacts.

(* ================================================================== *)
(** * Facts about the retry loop *)

Module OrchestratorFacts.
Import JsString JsStringFacts Classifier ClassifierFacts Pool Orchestrator.
Import Binary64 Binary64Facts.
Local Open Scope Q_scope.

(** ** The backoff delay *)

Lemma backoffDelay_cap (net : bool) (attempt : nat) (jitter : Q) :
  backoffDelay net attempt jitter <= 10000.
Proof.
  unfold backoffDelay. destruct (overflows _); [apply Qle_refl|].
  apply Q.le_min_r.
Qed.

Lemma two_power_monotone (a b : nat) :
  (a <= b)%nat -> 2 ^ (Z.of_nat a - 1) <= 2 ^ (Z.of_nat b - 1).
Proof.
  intros H. apply Qpower_le_compat_l; [lia|]. discriminate.
Qed.

(** From the first attempt on, the exponential delay is a whole number
    of milliseconds. *)
Lemma exponentialDelay_whole (net : bool) (attempt : nat) :
  (1 <= attempt)%nat ->
  (if net then 2000 else 1000) * 2 ^ (Z.of_nat attempt - 1)
  == inject_Z ((if net then 2000 else 1000) * 2 ^ (Z.of_nat attempt - 1)).
Proof.
  intros H. rewrite inject_Z_mult, pow2_inject by lia.
  now destruct net.
Qed.

Lemma exponentialDelay_pos (net : bool) (attempt : nat) :
  0 < (if net then 2000 else 1000) * 2 ^ (Z.of_nat attempt - 1).
Proof.
  apply Qmult_lt_0_compat; [now destruct net|apply pow2_pos].
Qed.

(** The delay is the rounded sum, capped, also when the exponential
    delay is [Infinity]. *)
Lemma backoffDelay_rounded (net : bool) (attempt : nat) (jitter : Q) :
  0 <= jitter ->
  backoffDelay net attempt jitter
  == Qmin (round ((if net then 2000 else 1000) * 2 ^ (Z.of_nat attempt - 1)
                  + jitter))
          10000.
Proof.
  intros Hj. unfold backoffDelay. cbv zeta.
  pose proof (exponentialDelay_pos net attempt) as Hpos.
  set (E := (if net then 2000 else 1000) * 2 ^ (Z.of_nat attempt - 1)) in *.
  destruct (overflows E) eqn:Eo; [|reflexivity].
  unfold overflows in Eo. apply Qle_bool_iff in Eo.
  rewrite Qabs_pos in Eo by lra.
  assert (Hbig : 10000 <= 2 ^ 1024 - 2 ^ 970) by (apply Qle_bool_iff; reflexivity).
  symmetry. apply Q.min_r.
  apply (round_ge_int 10000); [discriminate|lra|].
  change (inject_Z 10000) with 10000. lra.
Qed.

(** The delay lies between the capped exponential delay and the capped
    exponential delay plus one second. *)
Lemma backoffDelay_envelope (net : bool) (attempt : nat) (jitter : Q) :
  (1 <= attempt)%nat -> 0 <= jitter -> jitter <= 1000 ->
  let exponentialDelay :=
    (if net then 2000 else 1000) * 2 ^ (Z.of_nat attempt - 1) in
  Qmin exponentialDelay 10000 <= backoffDelay net attempt jitter
  /\ backoffDelay net attempt jitter <= Qmin (exponentialDelay + 1000) 10000.
Proof.
  intros Ha Hj0 Hj1 E. rewrite (backoffDelay_rounded net attempt jitter Hj0).
  fold E. pose proof (exponentialDelay_pos net attempt) as Hpos. fold E in Hpos.
  pose proof (exponentialDelay_whole net attempt Ha) as Hwhole. fold E in Hwhole.
  set (k := ((if net then 2000 else 1000) * 2 ^ (Z.of_nat attempt - 1))%Z) in *.
  assert (H53 : inject_Z (2 ^ 53) == 9007199254740992) by reflexivity.
  split.
  - destruct (Qlt_le_dec E 10000) as [Hsmall|Hbig].
    + apply Q.min_le_compat_r.
      apply Qle_trans with (inject_Z k); [lra|].
      apply round_ge_int; [|lra|lra].
      rewrite Zle_Qle. lra.
    + rewrite (Q.min_r E 10000 Hbig). apply Q.min_glb; [|apply Qle_refl].
      apply (round_ge_int 10000); [discriminate|lra|].
      change (inject_Z 10000) with 10000. lra.
  - destruct (Qlt_le_dec (E + 1000) 10000) as [Hsmall|Hbig].
    + apply Q.min_le_compat_r.
      assert (Ek : E + 1000 == inject_Z (k + 1000))
        by (rewrite inject_Z_plus, <- Hwhole; reflexivity).
      apply Qle_trans with (inject_Z (k + 1000)); [|lra].
      apply round_le_int; [|lra|lra].
      rewrite Zlt_Qlt. lra.
    + rewrite (Q.min_r (E + 1000) 10000 Hbig). apply Q.le_min_r.
Qed.

(** Without jitter the delay is the capped exponential delay, which
    does not decrease with the attempt number. *)
Lemma backoffDelay_no_jitter (net : bool) (attempt : nat) :
  (1 <= attempt)%nat ->
  backoffDelay net attempt 0
  == Qmin ((if net then 2000 else 1000) * 2 ^ (Z.of_nat attempt - 1)) 10000.
Proof.
  intros Ha. apply Qle_antisym.
  - rewrite (backoffDelay_rounded net attempt 0 (Qle_refl 0)).
    pose proof (exponentialDelay_pos net attempt) as Hpos.
    pose proof (exponentialDelay_whole net attempt Ha) as Hwhole.
    set (E := (if net then 2000 else 1000) * 2 ^ (Z.of_nat attempt - 1)) in *.
    destruct (Qlt_le_dec E 10000) as [Hsmall|Hbig].
    + apply Q.min_le_compat_r.
      set (k := ((if net then 2000 else 1000)
                   * 2 ^ (Z.of_nat attempt - 1))%Z) in *.
      assert (H53 : inject_Z (2 ^ 53) == 9007199254740992) by reflexivity.
      apply Qle_trans with (inject_Z k); [|lra].
      apply round_le_int; [|lra|lra].
      rewrite Zlt_Qlt. lra.
    + rewrite (Q.min_r E 10000 Hbig). apply Q.le_min_r.
  - apply (backoffDelay_envelope net attempt 0 Ha); [apply Qle_refl|discriminate].
Qed.

Lemma backoffDelay_monotone (net : bool) (a b : nat) :
  (1 <= a <= b)%nat ->
  backoffDelay net a 0 <= backoffDelay net b 0.
Proof.
  intros [Ha Hab].
  rewrite (backoffDelay_no_jitter net a Ha),
          (backoffDelay_no_jitter net b ltac:(lia)).
  apply Q.min_le_compat_r.
  apply Qmult_le_l; [destruct net; reflexivity|].
  apply two_power_monotone. exact Hab.
Qed.

(** ** One pass of the loop *)

Section Loop.

Variable maxRetries : nat.
Variable timeout : Z.
Variable enableFallbackMethod : bool.
Variable apiKeys : list string.
Variable geminiRequest : Js.value.
Variable stringify : Js.value -> string.
Variable sdk : nat -> nat -> SdkOutcome.
Variable https : nat -> nat -> nat -> HttpsOutcome.
Variable random : nat -> Q.

Local Abbreviation pass :=
  (pass maxRetries timeout enableFallbackMethod apiKeys geminiRequest
        stringify sdk https random).
Local Abbreviation attempts :=
  (attempts maxRetries timeout enableFallbackMethod apiKeys geminiRequest
            stringify sdk https random).
Local Abbreviation onFailure :=
  (onFailure maxRetries timeout enableFallbackMethod apiKeys geminiRequest
             stringify sdk https random).
Local Abbreviation executeRequest :=
  (executeRequest maxRetries timeout enableFallbackMethod apiKeys
                  geminiRequest stringify sdk https random).
Local Abbreviation requestWithFallback :=
  (requestWithFallback maxRetries timeout enableFallbackMethod apiKeys
                       geminiRequest stringify sdk https random).

(** What the [try] block leaves behind when it raises: the credential
    was obtained from the pool, and either a request went out with it or
    there was no model to send it with. *)
Lemma tryNative_raises (attempt : nat) (w w1 : World) (e : Js.error) :
  tryNative sdk attempt w = (inr e, w1) ->
  svc w1 = snd (getNextModel (svc w))
  /\ draws w1 = draws w
  /\ (trace w1
      = (trace w ++ preflight attempt
           ++ [SdkCall (currentKeyIndex (svc w1))])%list
      \/ e = Js.Error "No available Gemini models").
Proof.
  unfold tryNative, preflight.
  destruct (getNextModel (svc (if (attempt =? 1)%nat then emit Preflight w else w)))
    as [currentModel s'] eqn:Eg.
  assert (Es : s' = snd (getNextModel (svc w))).
  { destruct (attempt =? 1)%nat; simpl in Eg; now rewrite Eg. }
  destruct currentModel as [m|].
  - assert (Ht : forall x,
      trace (tick (emit x (setSvc s'
               (if (attempt =? 1)%nat then emit Preflight w else w))))
      = (trace w ++ (if (attempt =? 1)%nat then [Preflight] else [])
           ++ [x])%list).
    { intros x. destruct (attempt =? 1)%nat; simpl; [|reflexivity].
      now rewrite <- app_assoc. }
    assert (Hd : forall x,
      draws (tick (emit x (setSvc s'
               (if (attempt =? 1)%nat then emit Preflight w else w))))
      = draws w).
    { intros x. now destruct (attempt =? 1)%nat. }
    destruct (sdk _ _) as [e'| | |[]];
      try destruct (String.eqb _ _);
      intros [= <- <-]; (split; [exact Es|split; [apply Hd|left; apply Ht]]).
  - intros [= <- <-]. split; [exact Es|]. split; [|now right].
    now destruct (attempt =? 1)%nat.
Qed.

(** In the [catch] block the quota branch is never taken. *)
Lemma switchKeyOnQuota_skipped (error : Js.error) (info : ErrorInfo)
    (w : World) :
  switchKeyOnQuota currentKeyIndexInCatch error info w = (false, w).
Proof. reflexivity. Qed.

(** Whatever ends a pass with [Next] has slept for the backoff delay
    just before. *)
Lemma pass_next_sleeps (attempt : nat) (w w' : World) (e : Js.error) :
  pass attempt w = (Next e, w') ->
  exists w2,
    w' = emit (Sleep (backoffDelay (isNetworkError (analyzeError e)) attempt
                        (round (random (draws w2) * 1000))))
              (drawn w2).
Proof.
  unfold Orchestrator.pass.
  destruct (tryNative sdk attempt w) as [[text|error] w1]; [discriminate|].
  unfold Orchestrator.onFailure. rewrite switchKeyOnQuota_skipped.
  destruct (negb (isRetryable (analyzeError error))); [discriminate|].
  match goal with
  | |- context [let '(fallback, w2) := ?c in _] =>
      destruct c as [[text|] w2]
  end; [discriminate|].
  destruct (attempt =? maxRetries)%nat.
  - destruct (tryNextKeyOnce _ _ _) as [[text|] w3]; discriminate.
  - intros [= <- <-]. now exists w2.
Qed.

(** The loop goes on from a [Next] with the next attempt number: the
    update [attempt++] of the [for] statement runs after [continue] as
    after the end of the body. *)
Lemma attempts_next (remaining attempt : nat) (lastError : option Js.error)
    (w w' : World) (e : Js.error) :
  pass attempt w = (Next e, w') ->
  attempts (S remaining) attempt lastError w
  = attempts remaining (S attempt) (Some e) w'.
Proof. intros H. simpl. now rewrite H. Qed.

(** A failure that is retried, with the fallback out of the way, sleeps
    and goes on; the pool is as [getNextModel] left it. *)
Lemma pass_retries (attempt : nat) (w w1 : World) (e : Js.error) :
  tryNative sdk attempt w = (inr e, w1) ->
  isRetryable (analyzeError e) = true ->
  type (analyzeError e) <> "NETWORK_ERROR" ->
  attempt <> maxRetries ->
  pass attempt w
  = (Next e,
     emit (Sleep (backoffDelay (isNetworkError (analyzeError e)) attempt
                    (round (random (draws w1) * 1000))))
          (drawn w1)).
Proof.
  intros Htry Hretry Hnet Hlast.
  unfold Orchestrator.pass. rewrite Htry.
  unfold Orchestrator.onFailure. rewrite switchKeyOnQuota_skipped, Hretry.
  destruct (String.eqb_spec (type (analyzeError e)) "NETWORK_ERROR");
    [contradiction|].
  simpl. apply Nat.eqb_neq in Hlast. now rewrite Hlast.
Qed.

(** A failure classified RATE_LIMIT_ERROR is retried like any other: no
    key is marked, the pool is as [getNextModel] left it, and the pass
    sleeps and gives way to the next attempt number. *)
Lemma rate_limit_consumes_retry (attempt : nat) (w w1 : World)
    (e : Js.error) :
  tryNative sdk attempt w = (inr e, w1) ->
  type (analyzeError e) = "RATE_LIMIT_ERROR" ->
  attempt <> maxRetries ->
  pass attempt w
  = (Next e,
     emit (Sleep (backoffDelay false attempt
                    (round (random (draws w1) * 1000))))
          (drawn w1))
  /\ svc w1 = snd (getNextModel (svc w)).
Proof.
  intros Htry Hkind Hlast.
  assert (Hflags : isRetryable (analyzeError e) = true
                   /\ isNetworkError (analyzeError e) = false).
  { revert Hkind. unfold analyzeError.
    repeat match goal with
           | |- context [if ?b then _ else _] => destruct b
           end; simpl; intros H; try discriminate; auto. }
  destruct Hflags as [Hretry Hnet].
  split; [|apply (tryNative_raises attempt w w1 e Htry)].
  rewrite (pass_retries attempt w w1 e Htry Hretry); [|now rewrite Hkind|exact Hlast].
  now rewrite Hnet.
Qed.

(** Were the identifier bound in the [catch] block, the quota branch
    would end in [continue], that is in a [Next]: by [attempts_next] the
    attempt number would still advance. *)
Lemma onFailure_quota_continue (k attempt : nat) (w : World) (e : Js.error) :
  isQuotaError e (analyzeError e) = true ->
  (1 < length (models (svc w)))%nat ->
  (size (exhaustedKeys (svc (mark k w))) < length (models (svc w)))%nat ->
  onFailure (Some k) attempt e w = (Next e, mark k w).
Proof.
  intros Hq Hn Hsize. unfold Orchestrator.onFailure, switchKeyOnQuota.
  rewrite Hq. apply Nat.ltb_lt in Hn. rewrite Hn. simpl andb. cbv iota.
  replace (length (models (svc (mark k w)))) with (length (models (svc w)))
    by reflexivity.
  apply Nat.ltb_lt in Hsize. now rewrite Hsize.
Qed.

(** The message of the terminal error for a failure that is not retried
    contains 'fetch failed' only if the message of the failure does, and
    then the failure is a NETWORK_ERROR. *)
Lemma nonRetryable_message_no_fetch (e : Js.error) :
  isRetryable (analyzeError e) = false ->
  includes ("Gemini API error (non-retryable): " ++ Js.message e)
           "fetch failed" = false.
Proof.
  intros Hkind.
  rewrite !append_cons, append_nil.
  repeat (rewrite includes_skip by discriminate).
  destruct (includes (Js.message e) "fetch failed") eqn:E; [|reflexivity].
  assert (Hnet : networkRow e = true).
  { unfold networkRow, row.
    rewrite (includesAny_In _ "fetch failed"); [reflexivity| |].
    - unfold networkNeedles. simpl. tauto.
    - now apply includes_toLowerCase. }
  apply not_retryable_kinds in Hkind.
  apply network_row_first in Hnet.
  rewrite Hnet in Hkind. destruct Hkind; discriminate.
Qed.

(** C4. When the failure of an attempt is classified AUTH_ERROR or
    INVALID_REQUEST_ERROR, the loop ends there with the terminal error,
    whatever the retry budget left: the pool is as obtaining the
    credential left it, and after that one request nothing else happened
    (no raw-transport request, no key marked, no sleep). When it is the
    first attempt, this is all [executeRequest] does, and its caller
    hands the error on without trying the raw transport. *)
Theorem nonRetryable_fails_at_once (remaining attempt : nat)
    (lastError : option Js.error) (w w1 : World) (e : Js.error) :
  tryNative sdk attempt w = (inr e, w1) ->
  type (analyzeError e) = "AUTH_ERROR"
  \/ type (analyzeError e) = "INVALID_REQUEST_ERROR" ->
  let final :=
    {| finalMessage := "Gemini API error (non-retryable): " ++ Js.message e;
       errorAnalysis := Some (analyzeError e);
       originalError := Some e |} in
  attempts (S remaining) attempt lastError w = (inr final, w1)
  /\ svc w1 = snd (getNextModel (svc w))
  /\ trace w1
     = (trace w ++ preflight attempt
          ++ [SdkCall (currentKeyIndex (svc w1))])%list
  /\ (attempt = 1%nat -> maxRetries = S remaining ->
      executeRequest w = (inr final, w1)
      /\ requestWithFallback w = (inr (FinalFailure final), w1)).
Proof.
  intros Htry Hkind final.
  apply not_retryable_kinds in Hkind.
  assert (Hloop : forall last,
            attempts (S remaining) attempt last w = (inr final, w1)).
  { intros last. simpl. unfold Orchestrator.pass. rewrite Htry.
    unfold Orchestrator.onFailure.
    rewrite switchKeyOnQuota_skipped, Hkind. reflexivity. }
  destruct (tryNative_raises attempt w w1 e Htry) as [Hsvc [_ [Htr|He]]].
  - split; [apply Hloop|]. split; [exact Hsvc|]. split; [exact Htr|].
    intros Hfirst Hmax.
    assert (Hexec : executeRequest w = (inr final, w1)).
    { unfold Orchestrator.executeRequest.
      generalize (Hloop None). rewrite <- Hmax, Hfirst. auto. }
    split; [exact Hexec|].
    unfold Orchestrator.requestWithFallback. rewrite Hexec.
    subst final. cbn [finalMessage].
    now rewrite (nonRetryable_message_no_fetch e Hkind).
  - subst e. vm_compute in Hkind. discriminate.
Qed.

End Loop.

(** C1 (defect). With two credentials and every request refused for
    quota, a failure classified RATE_LIMIT_ERROR, the loop never marks the
    credential exhausted and never moves to the other one: all five
    attempts go out with credential 0, each failure consumes an attempt
    and is followed by the backoff sleep, and the pool ends as it
    started. *)
Theorem quota_failure_retries_same_key :
  type (analyzeError quotaError) = "RATE_LIMIT_ERROR"
  /\ (1 < length (models (svc sampleWorld)))%nat
  /\ quotaRun sampleWorld
     = (inr {| finalMessage :=
                 "Gemini API failed after 5 attempts: [429 Too Many Requests] Quota exceeded";
               errorAnalysis := Some (analyzeError quotaError);
               originalError := Some quotaError |},
        mkWorld (mkService sampleKeys 0 ∅) 5 4
          [Preflight; SdkCall 0; Sleep 1000; SdkCall 0; Sleep 2000;
           SdkCall 0; Sleep 4000; SdkCall 0; Sleep 8000; SdkCall 0]).
Proof.
  split; [reflexivity|]. split; [simpl; lia|].
  vm_compute. reflexivity.
Qed.

Lemma nonRetryable_fails_at_once_witness :
  fst (executeRequest 5 60000 true sampleKeys (Js.Obj [])
         (fun _ => EmptyString) (fun _ _ => SdkRejects authError)
         (fun _ _ _ => HttpsTimeout) (fun _ => 0) sampleWorld)
  = inr {| finalMessage :=
             "Gemini API error (non-retryable): API key not valid: 403 Forbidden";
           errorAnalysis := Some (analyzeError authError);
           originalError := Some authError |}.
Proof.
  destruct (nonRetryable_fails_at_once 5 60000 true sampleKeys (Js.Obj [])
              (fun _ => EmptyString) (fun _ _ => SdkRejects authError)
              (fun _ _ _ => HttpsTimeout) (fun _ => 0)
              4 1 None sampleWorld
              (mkWorld (svc sampleWorld) 1 0 [Preflight; SdkCall 0])
              authError eq_refl (or_introl eq_refl))
    as [_ [_ [_ H]]].
  now rewrite (proj1 (H eq_refl eq_refl)).
Defined.

End OrchestratorFacts.

(* ================================================================== *)
(** * Facts about the raw transport *)

Module TransportFacts.
Import JsString Js Transport.

(** ** Truncated replies *)

Section Truncation.

Variable stringify : value -> string.


End Truncation.



(** ** The payload transform *)

Lemma normalizePart_encode (p : Part) :
  normalizePart (encodePart p) = Ok (wirePart p).
Proof. destruct p; reflexivity. Qed.

Lemma mapRes_map {A B C : Type} (f : B -> res C) (g : A -> B) (h : A -> C)
    (l : list A) :
  (forall x, f (g x) = Ok (h x)) ->
  mapRes f (map g l) = Ok (map h l).
Proof.
  intros H. induction l as [|x l IH]; [reflexivity|].
  simpl. now rewrite H, IH.
Qed.

Lemma normalizeParts_encode (ps : list Part) :
  normalizeParts (Arr (map encodePart ps)) = Ok (Arr (map wirePart ps)).
Proof.
  unfold normalizeParts. cbn [or truthy].
  now rewrite (mapRes_map normalizePart encodePart wirePart ps
                 normalizePart_encode).
Qed.

Lemma transformContent_encode (t : Turn) :
  transformContent (encodeTurn t) = Ok (wireTurn t).
Proof.
  unfold transformContent, encodeTurn. cbn [get bind lookupProp String.eqb Ascii.eqb Bool.eqb].
  now rewrite normalizeParts_encode.
Qed.

Lemma transform_encode (r : Request) :
  transformRequestForHttpTransport (encodeRequest r) = Ok (wirePayload r).
Proof.
  unfold transformRequestForHttpTransport, encodeRequest, wirePayload, copyIf.
  destruct (systemInstruction r) as [ps|];
    cbn [get bind lookupProp app String.eqb Ascii.eqb Bool.eqb truthy spread];
    rewrite ?normalizeParts_encode;
    cbn [bind];
    rewrite (mapRes_map transformContent encodeTurn wireTurn (contents r)
               transformContent_encode);
    reflexivity.
Qed.

Lemma payloadRoles_wire (r : Request) :
  payloadRoles (wirePayload r) = map (fun t => Str (role t)) (contents r).
Proof.
  unfold payloadRoles, wirePayload.
  destruct (systemInstruction r); cbn; rewrite map_map; reflexivity.
Qed.

Lemma payloadTexts_wire (r : Request) :
  payloadTexts (wirePayload r)
  = map (fun t => map partText (parts t)) (contents r).
Proof.
  unfold payloadTexts, wirePayload.
  destruct (systemInstruction r); cbn; rewrite map_map;
    apply map_ext; intros t; cbn; rewrite map_map;
    apply map_ext; intros []; reflexivity.
Qed.

(** C8, as the code has it. The transform turns the request laid out for
    the native client into the wire payload: the fields it writes
    ([system_instruction], [contents], [generation_config], and
    [inline_data], [file_data] in the parts) are in snake case, every part
    is normalized, and the roles and the texts of the turns come out in
    the same order; the properties of the generation config are copied
    under the names they had. *)
Theorem transform_wire_payload (r : Request) :
  transformRequestForHttpTransport (encodeRequest r) = Ok (wirePayload r)
  /\ Forall (fun k => isSnakeCase k = true) (keys (wirePayload r))
  /\ Forall (fun p => Forall (fun k => isSnakeCase k = true) (keys p))
            (flat_map (fun t => map wirePart (parts t)) (contents r))
  /\ payloadRoles (wirePayload r) = map (fun t => Str (role t)) (contents r)
  /\ payloadTexts (wirePayload r)
     = map (fun t => map partText (parts t)) (contents r)
  /\ prop "generation_config" (wirePayload r) = Obj (generationConfig r).
Proof.
  split; [apply transform_encode|].
  split.
  { unfold wirePayload. destruct (systemInstruction r); cbn;
      repeat constructor. }
  split.
  { apply List.Forall_forall. intros p Hp.
    apply in_flat_map in Hp as [t [_ Hp]].
    apply in_map_iff in Hp as [q [<- _]].
    destruct q; cbn; repeat constructor. }
  split; [apply payloadRoles_wire|].
  split; [apply payloadTexts_wire|].
  unfold wirePayload. destruct (systemInstruction r); reflexivity.
Qed.

(** C8 as the specification words it, all field names in snake case,
    fails on the request the builders make: the generation
    parameters reach the wire as [maxOutputTokens], [topK] and [topP]. *)
Lemma transform_keeps_camel_case :
  exists payload,
    transformRequestForHttpTransport (encodeRequest sampleRequest) = Ok payload
    /\ keys (prop "generation_config" payload)
       = ["temperature"; "maxOutputTokens"; "topK"; "topP"]
    /\ prop "max_output_tokens" (prop "generation_config" payload) = Undefined
    /\ isSnakeCase "maxOutputTokens" = false
    /\ ~ Forall (fun k => isSnakeCase k = true)
               (keys (prop "generation_config" payload)).
Proof.
  eexists. split; [reflexivity|]. split; [reflexivity|].
  split; [reflexivity|]. split; [reflexivity|].
  intros H. inversion H as [|? ? _ H1]; subst.
  inversion H1 as [|? ? H2 _]; subst. discriminate.
Qed.

End TransportFacts.

(* ================================================================== *)
(** * Facts about the MCQ answer extractor *)

Module McqFacts.
Import JsString Regex Mcq.

(** C10. When the prompt or the answer is [null], [undefined] or the
    empty string, [extractMcqAnswer] returns the answer it was given,
    whatever it is, and looks at nothing else. *)
Theorem extractMcqAnswer_missing_input
    (response originalText activeSkill : Js.value) :
  missing originalText \/ missing response ->
  extractMcqAnswer response originalText activeSkill = Js.Ok response.
Proof.
  unfold extractMcqAnswer.
  intros [[-> | [-> | ->]] | [-> | [-> | ->]]]; try reflexivity;
    now rewrite orb_true_r.
Qed.

Lemma extractMcqAnswer_missing_input_witness :
  extractMcqAnswer (Js.Str "Answer: B") Js.Undefined Js.Null
  = Js.Ok (Js.Str "Answer: B")
  /\ extractMcqAnswer Js.Null (Js.Str stableSortPrompt) (Js.Str "dsa")
     = Js.Ok Js.Null.
Proof.
  split.
  - apply extractMcqAnswer_missing_input. left. right. left. reflexivity.
  - apply extractMcqAnswer_missing_input. right. left. reflexivity.
Defined.

(** C5, as the code has it. On the one-line prompt only the third of
    the four detection patterns matches ("A) Text"): none of its options
    starts a line, and it has none of the words option, answer, choice,
    letter. One match is below the two the extractor requires, so the
    prompt is not classified as an MCQ and the answer comes back as it
    is. *)
Theorem stable_sort_prompt_not_classified (activeSkill : Js.value) :
  map (fun pattern => test pattern stableSortPrompt) codingProblemIndicators
  = repeat false 9
  /\ map (fun pattern => test pattern stableSortPrompt) mcqPatterns
     = [false; false; true; false]
  /\ length (mcqMatches stableSortPrompt) = 1
  /\ extractMcqAnswer (Js.Str "Answer: B") (Js.Str stableSortPrompt)
       activeSkill
     = Js.Ok (Js.Str "Answer: B").
Proof.
  assert (Hcoding :
    map (fun pattern => test pattern stableSortPrompt) codingProblemIndicators
    = repeat false 9) by (vm_compute; reflexivity).
  assert (Hmcq :
    map (fun pattern => test pattern stableSortPrompt) mcqPatterns
    = [false; false; true; false]) by (vm_compute; reflexivity).
  assert (Hcount : length (mcqMatches stableSortPrompt) = 1)
    by (vm_compute; reflexivity).
  split; [exact Hcoding|]. split; [exact Hmcq|]. split; [exact Hcount|].
  unfold extractMcqAnswer.
  change (negb (Js.truthy (Js.Str stableSortPrompt))
          || negb (Js.truthy (Js.Str "Answer: B"))) with false.
  cbv iota zeta.
  change (Js.toString (Js.Str stableSortPrompt)) with stableSortPrompt.
  assert (Hany : existsb (fun pattern => test pattern stableSortPrompt)
                         codingProblemIndicators = false)
    by (vm_compute; reflexivity).
  assert (Hfence : test codeBlock (Js.toString (Js.Str "Answer: B")) = false)
    by (vm_compute; reflexivity).
  rewrite Hany, Hfence, Hcount. reflexivity.
Qed.

(** C5 as the specification words it does not hold: the answer returned
    for the one-line prompt does not begin with the heading and does not
    show the option. *)
Lemma stable_sort_answer_unchanged :
  exists out,
    extractMcqAnswer (Js.Str "Answer: B") (Js.Str stableSortPrompt) Js.Null
    = Js.Ok (Js.Str out)
    /\ length (mcqMatches stableSortPrompt) < 2
    /\ startsWith out "## Answer: B" = false
    /\ includes out "**MergeSort**" = false.
Proof.
  exists "Answer: B".
  split; [vm_compute; reflexivity|].
  split; [vm_compute; lia|]. split; reflexivity.
Qed.

(** With every option on a line of its own the third and fourth patterns
    match and the prompt is classified. The letter is then read off the
    text matched by the first answer pattern, "Answer: B", whose first
    letter a-e is the "A" of "Answer". *)
Remark stable_sort_lines_letter :
  map (fun pattern => test pattern stableSortLines) mcqPatterns
  = [false; false; true; true]
  /\ matchGlobal (hd codeBlock answerPatterns) "Answer: B"
     = Some ["Answer: B"]
  /\ letterOf "Answer: B" = Some "A"%char
  /\ extractMcqAnswer (Js.Str "Answer: B") (Js.Str stableSortLines) Js.Null
     = Js.Ok (Js.Str ("## Answer: A" ++ nl ++ nl ++ "**QuickSort**"
                        ++ nl ++ nl)).
Proof. repeat split; vm_compute; reflexivity. Qed.

End McqFacts.

(* ================================================================== *)
(** * More facts about the credential pool *)

Module PoolInvariants.
Import Pool PoolFacts.

(** What the loop of [getNextModel] leaves: the models and the flags are
    untouched; a model returned from inside the loop is the one at the
    index the loop stopped at, and that index is not exhausted. *)
Lemma rotate_post (remaining : nat) (s : LLMService) :
  match rotate remaining s with
  | (Some m, s') =>
      m = (models s' !! currentKeyIndex s')
      /\ (currentKeyIndex s' ∉ exhaustedKeys s')
      /\ models s' = models s /\ exhaustedKeys s' = exhaustedKeys s
  | (None, s') =>
      models s' = models s /\ exhaustedKeys s' = exhaustedKeys s
  end.
Proof.
  revert s. induction remaining as [|r IH]; intros s; simpl; [auto|].
  destruct (has (currentKeyIndex s) s) eqn:E.
  - specialize (IH (setCurrentKeyIndex
                      ((currentKeyIndex s + 1) mod length (models s)) s)).
    destruct (rotate r _) as [[m|] s']; simpl in IH; exact IH.
  - apply has_false in E. auto.
Qed.

Lemma rotate_index (remaining : nat) (s : LLMService) :
  currentKeyIndex s < length (models s) ->
  currentKeyIndex (snd (rotate remaining s)) < length (models s).
Proof.
  revert s. induction remaining as [|r IH]; intros s H; simpl; [exact H|].
  destruct (has (currentKeyIndex s) s); [|exact H].
  apply (IH (setCurrentKeyIndex _ s)). simpl.
  apply Nat.mod_upper_bound. lia.
Qed.

Lemma getNextModel_models (s : LLMService) :
  models (snd (getNextModel s)) = models s.
Proof.
  unfold getNextModel. destruct (models s) as [|m [|m' l]] eqn:E; try exact E.
  pose proof (rotate_post (length (m :: m' :: l)) s) as H.
  destruct (rotate _ s) as [[x|] s']; simpl; rewrite <- E; tauto.
Qed.

Lemma getNextModel_index (s : LLMService) :
  currentKeyIndex s < length (models s) ->
  currentKeyIndex (snd (getNextModel s)) < length (models s).
Proof.
  intros H. unfold getNextModel.
  destruct (models s) as [|m [|m' l]] eqn:E; try exact H.
  pose proof (rotate_index (length (m :: m' :: l)) s) as Hi.
  rewrite E in Hi. specialize (Hi H).
  destruct (rotate _ s) as [[x|] s']; simpl in *; [exact Hi|lia].
Qed.

(** X1. The two operations of the pool keep the current index inside the
    pool and never touch the list of models: [markKeyExhausted] on any
    pool with at least one model, [getNextModel] on a pool whose index
    is inside. *)
Theorem pool_index_stays_inside (s : LLMService) (keyIndex : nat) :
  models (markKeyExhausted keyIndex s) = models s
  /\ models (snd (getNextModel s)) = models s
  /\ (1 <= length (models s) ->
      currentKeyIndex (markKeyExhausted keyIndex s) < length (models s))
  /\ (currentKeyIndex s < length (models s) ->
      currentKeyIndex (snd (getNextModel s)) < length (models s)).
Proof.
  split; [reflexivity|].
  split; [apply getNextModel_models|]. split.
  - intros H. simpl. apply Nat.mod_upper_bound. lia.
  - apply getNextModel_index.
Qed.

Lemma pool_index_stays_inside_witness :
  currentKeyIndex (markKeyExhausted 0 samplePool) < 3
  /\ currentKeyIndex (snd (getNextModel samplePool)) < 3.
Proof.
  destruct (pool_index_stays_inside samplePool 0) as [_ [_ [H1 H2]]].
  split; [apply H1|apply H2]; simpl; lia.
Defined.

(** X2. From a pool with at least one model and its index inside,
    [getNextModel] never comes back empty-handed: it returns the model at
    the index it leaves current, and with two models or more that index
    is not flagged exhausted. *)
Theorem getNextModel_usable (s : LLMService) :
  1 <= length (models s) ->
  currentKeyIndex s < length (models s) ->
  exists m,
    fst (getNextModel s) = Some m
    /\ models s !! currentKeyIndex (snd (getNextModel s)) = Some m
    /\ (2 <= length (models s) ->
        currentKeyIndex (snd (getNextModel s))
          ∉ exhaustedKeys (snd (getNextModel s))).
Proof.
  intros Hn Hcur.
  pose proof (getNextModel_index s Hcur) as Hin.
  unfold getNextModel in *.
  destruct (models s) as [|m [|m' l]] eqn:E; simpl in Hn; [lia| |].
  - exists m. simpl in *. replace (currentKeyIndex s) with 0 by lia.
    split; [reflexivity|]. split; [reflexivity|]. intros H; lia.
  - pose proof (rotate_post (length (m :: m' :: l)) s) as H.
    destruct (rotate _ s) as [[x|] s'] eqn:Er; simpl in *.
    + destruct H as [-> [Hfree [Hmod _]]].
      rewrite Hmod, E in *.
      destruct (lookup_lt_is_Some_2 (m :: m' :: l) (currentKeyIndex s') Hin)
        as [y Hy].
      exists y. rewrite Hy. auto.
    + destruct H as [Hmod _]. rewrite Hmod, E. exists m.
      split; [reflexivity|]. split; [reflexivity|].
      intros _. apply not_elem_of_empty.
Qed.

Lemma getNextModel_usable_witness :
  exists m,
    fst (getNextModel samplePool) = Some m
    /\ models samplePool !! currentKeyIndex (snd (getNextModel samplePool))
       = Some m.
Proof.
  destruct (getNextModel_usable samplePool) as [m [H1 [H2 _]]];
    [simpl; lia|simpl; lia|].
  exists m. split; [exact H1|exact H2].
Defined.

(** X3. Asking twice gives the same answer: after [getNextModel], a
    second call returns the same model and changes nothing. *)
Theorem getNextModel_twice (s : LLMService) :
  getNextModel (snd (getNextModel s)) = getNextModel s.
Proof.
  unfold getNextModel at 2 3.
  destruct (models s) as [|m [|m' l]] eqn:E.
  - simpl. unfold getNextModel. now rewrite E.
  - simpl. unfold getNextModel. now rewrite E.
  - pose proof (rotate_post (length (m :: m' :: l)) s) as H.
    destruct (rotate _ s) as [[x|] s'] eqn:Er; simpl.
    + destruct H as [-> [Hfree [Hmod _]]].
      unfold getNextModel. rewrite Hmod, E. simpl.
      apply has_false in Hfree. rewrite Hfree, Hmod, E. reflexivity.
    + destruct H as [Hmod _].
      assert (H0 : has 0 (setCurrentKeyIndex 0 (setExhaustedKeys ∅ s')) = false)
        by (apply has_false, not_elem_of_empty).
      unfold getNextModel. simpl. rewrite Hmod, E. simpl.
      rewrite H0, Hmod, E. reflexivity.
Qed.

End PoolInvariants.


(* ================================================================== *)
(** * More facts about the raw transport *)

Module TransportMore.
Import JsString JsStringFacts Js Transport.

(** Case analysis on whatever the goal or a hypothesis [H] matches on. *)
Ltac split_match H :=
  repeat match type of H with
         | context [match ?x with _ => _ end] =>
             let E := fresh "E" in destruct x eqn:E; try discriminate H
         | context [if ?x then _ else _] =>
             let E := fresh "E" in destruct x eqn:E; try discriminate H
         end.

Lemma string_app_assoc (a b c : string) : (a ++ b) ++ c = a ++ b ++ c.
Proof.
  induction a as [|x a IH]; [reflexivity|].
  rewrite !append_cons. now rewrite IH.
Qed.


Section Handler.

Variable stringify : value -> string.

Lemma extractText_accepts (content : value) (t : string) :
  extractText content = Ok (Ok t) -> t <> "" /\ trim t = t.
Proof.
  unfold extractText, bind. intros H. split_match H.
  injection H as <-.
  split; [|apply trim_idempotent].
  intros Hempty. rewrite Hempty in *. discriminate.
Qed.

Lemma validate_accepts (response : value) (t : string) :
  validate stringify response = Ok (Ok t) -> t <> "" /\ trim t = t.
Proof.
  unfold validate, truncationMessage, bind. intros H. split_match H;
    eapply extractText_accepts; eassumption.
Qed.

Lemma handleResponse_accepts (r : HttpReply) (t : string) :
  handleResponse stringify r = Ok t -> t <> "" /\ trim t = t.
Proof.
  unfold handleResponse. intros H.
  destruct (negb (replyStatus r =? 200)%Z); [discriminate|].
  destruct (parsed r) as [response|]; [|discriminate].
  destruct (validate stringify response) as [[t'|]|] eqn:Ev; try discriminate.
  injection H as <-. eapply validate_accepts; eassumption.
Qed.

(** X4. A text that the handler accepts comes from a reply with status
    200, is not empty and has no white space at its ends: a blank answer
    is never handed on. *)
Theorem accepted_text_not_blank (r : HttpReply) (t : string) :
  handleResponse stringify r = Ok t ->
  replyStatus r = 200%Z /\ t <> "" /\ trim t = t.
Proof.
  unfold handleResponse. intros H.
  destruct (replyStatus r =? 200)%Z eqn:Es; [|discriminate].
  apply Z.eqb_eq in Es. split; [exact Es|].
  simpl in H. destruct (parsed r) as [response|]; [|discriminate].
  destruct (validate stringify response) as [[t'|]|] eqn:Ev; try discriminate.
  injection H as <-. eapply validate_accepts; eassumption.
Qed.




(** X7. A body that is JSON [null], or a first candidate that is
    [null], does not break the handler: the [TypeError] of the property
    read is caught and the reply is rejected as unparseable. *)
Theorem null_levels_rejected (r : HttpReply) :
  replyStatus r = 200%Z ->
  (parsed r = Ok Null ->
   handleResponse stringify r
   = Throw (Error ("Failed to parse response: "
                     ++ "Cannot read properties of null (reading 'error')")))
  /\ (forall response rest,
        parsed r = Ok (Obj response) ->
        truthy (lookupProp "error" response) = false ->
        lookupProp "candidates" response = Arr (Null :: rest) ->
        handleResponse stringify r
        = Throw (Error ("Failed to parse response: "
                          ++ "Cannot read properties of null (reading 'content')"))).
Proof.
  intros Hstatus. unfold handleResponse. rewrite Hstatus.
  change (negb (200 =? 200)%Z) with false. cbv iota.
  split.
  - intros ->. reflexivity.
  - intros response rest -> Herr Hc.
    unfold validate. cbn [get bind]. rewrite Herr, Hc. reflexivity.
Qed.

End Handler.


Lemma null_levels_rejected_witness :
  handleResponse (fun _ => "")
    {| replyStatus := 200; data := "null"; parsed := Ok Null |}
  = Throw (Error ("Failed to parse response: "
                    ++ "Cannot read properties of null (reading 'error')")).
Proof.
  apply (proj1 (null_levels_rejected (fun _ => "")
                  {| replyStatus := 200; data := "null"; parsed := Ok Null |}
                  eq_refl)).
  reflexivity.
Defined.


Lemma accepted_text_not_blank_witness :
  "The answer is B because" <> ""
  /\ trim "The answer is B because" = "The answer is B because".
Proof.
  apply (accepted_text_not_blank (fun _ => "") partialReply
           "The answer is B because" eq_refl).
Defined.

End TransportMore.


(* ================================================================== *)
(** * The transform on arbitrary request values *)

Module TransformMore.
Import JsString Js Transport.

Lemma get_prop (v : value) (k : string) (x : value) :
  get v k = Ok x -> x = prop k v.
Proof. destruct v; simpl; congruence. Qed.

Lemma copyIf_ok (request : value) (k k' : string) (f : value -> res value)
    (l : list (string * value)) :
  copyIf request k k' f = Ok l ->
  (truthy (prop k request) = false /\ l = [])
  \/ (truthy (prop k request) = true
      /\ exists v', f (prop k request) = Ok v' /\ l = [(k', v')]).
Proof.
  unfold copyIf. destruct (get request k) as [v|] eqn:E; [|discriminate].
  apply get_prop in E. subst v. cbn [bind].
  destruct (truthy (prop k request)).
  - destruct (f (prop k request)) as [v'|]; [|discriminate]. cbn [bind].
    intros [= <-]. right. eauto.
  - intros [= <-]. now left.
Qed.

Lemma mapRes_Forall2 {A B : Type} (f : A -> res B) (l : list A) (l' : list B) :
  mapRes f l = Ok l' -> Forall2 (fun x y => f x = Ok y) l l'.
Proof.
  revert l'. induction l as [|x rest IH]; simpl; intros l'.
  - intros [= <-]. constructor.
  - destruct (f x) as [y|] eqn:E; [|discriminate]. cbn [bind].
    destruct (mapRes f rest) as [ys|]; [|discriminate]. cbn [bind].
    intros [= <-]. constructor; auto.
Qed.

Lemma normalizeParts_ok (parts out : value) :
  normalizeParts parts = Ok out ->
  exists ps, out = Arr ps
             /\ Forall2 (fun x y => normalizePart x = Ok y) (items parts) ps.
Proof.
  unfold normalizeParts, or.
  destruct parts as [| |b|n|q lit|s|l|o]; cbn [truthy items];
    try (cbn [mapRes bind]; intros [= <-]; exists []; split; [reflexivity|constructor]);
    try discriminate.
  - destruct b; [discriminate|].
    cbn [mapRes bind]. intros [= <-]. exists []. split; [reflexivity|constructor].
  - destruct (negb (n =? 0)%Z); [discriminate|].
    cbn [mapRes bind]. intros [= <-]. exists []. split; [reflexivity|constructor].
  - destruct (negb (String.eqb s "")); [discriminate|].
    cbn [mapRes bind]. intros [= <-]. exists []. split; [reflexivity|constructor].
  - destruct (mapRes normalizePart l) as [ps|] eqn:E; [|discriminate].
    cbn [bind]. intros [= <-]. exists ps. split; [reflexivity|].
    now apply mapRes_Forall2.
Qed.

Lemma transformContent_ok (turn out : value) :
  transformContent turn = Ok out ->
  exists ps, out = Obj [("role", prop "role" turn); ("parts", Arr ps)]
             /\ Forall2 (fun x y => normalizePart x = Ok y)
                        (items (prop "parts" turn)) ps.
Proof.
  unfold transformContent.
  destruct (get turn "role") as [r|] eqn:Er; [|discriminate].
  apply get_prop in Er. subst r. cbn [bind].
  destruct (get turn "parts") as [p|] eqn:Ep; [|discriminate].
  apply get_prop in Ep. subst p. cbn [bind].
  destruct (normalizeParts (prop "parts" turn)) as [p'|] eqn:En; [|discriminate].
  cbn [bind]. intros [= <-].
  apply normalizeParts_ok in En. destruct En as (ps & -> & HF). eauto.
Qed.

(** The shape of every payload the transform returns. *)
Lemma transform_ok (request payload : value) :
  transformRequestForHttpTransport request = Ok payload ->
  exists si cs gc ss tl tc cc,
    payload = Obj (si ++ cs ++ gc ++ ss ++ tl ++ tc ++ cc)
    /\ ((truthy (prop "systemInstruction" request) = false /\ si = [])
        \/ (truthy (prop "systemInstruction" request) = true
            /\ exists ps, si = [("system_instruction", Obj [("parts", Arr ps)])]))
    /\ ((isArray (prop "contents" request) = false /\ cs = [])
        \/ exists turns, prop "contents" request = Arr (items (prop "contents" request))
             /\ cs = [("contents", Arr turns)]
             /\ Forall2 (fun x y => transformContent x = Ok y)
                        (items (prop "contents" request)) turns)
    /\ ((truthy (prop "generationConfig" request) = false /\ gc = [])
        \/ (truthy (prop "generationConfig" request) = true
            /\ gc = [("generation_config",
                      spread (prop "generationConfig" request))]))
    /\ ((truthy (prop "safetySettings" request) = false /\ ss = [])
        \/ (truthy (prop "safetySettings" request) = true
            /\ ss = [("safety_settings", prop "safetySettings" request)]))
    /\ ((truthy (prop "tools" request) = false /\ tl = [])
        \/ (truthy (prop "tools" request) = true
            /\ tl = [("tools", prop "tools" request)]))
    /\ ((truthy (prop "toolConfig" request) = false /\ tc = [])
        \/ (truthy (prop "toolConfig" request) = true
            /\ tc = [("tool_config", prop "toolConfig" request)]))
    /\ ((truthy (prop "cachedContent" request) = false /\ cc = [])
        \/ (truthy (prop "cachedContent" request) = true
            /\ cc = [("cached_content", prop "cachedContent" request)])).
Proof.
  unfold transformRequestForHttpTransport.
  destruct (copyIf request "systemInstruction" _ _) as [si|] eqn:E1; [|discriminate].
  cbn [bind].
  destruct (get request "contents") as [cv|] eqn:E2; [|discriminate].
  apply get_prop in E2. subst cv. cbn [bind].
  destruct (match prop "contents" request with Arr _ => _ | _ => _ end)
    as [cs|] eqn:E3; [|discriminate].
  cbn [bind].
  destruct (copyIf request "generationConfig" _ _) as [gc|] eqn:E4; [|discriminate].
  cbn [bind].
  destruct (copyIf request "safetySettings" _ _) as [ss|] eqn:E5; [|discriminate].
  cbn [bind].
  destruct (copyIf request "tools" _ _) as [tl|] eqn:E6; [|discriminate].
  cbn [bind].
  destruct (copyIf request "toolConfig" _ _) as [tc|] eqn:E7; [|discriminate].
  cbn [bind].
  destruct (copyIf request "cachedContent" _ _) as [cc|] eqn:E8; [|discriminate].
  cbn [bind]. intros [= <-].
  exists si, cs, gc, ss, tl, tc, cc. split; [reflexivity|].
  apply copyIf_ok in E1, E4, E5, E6, E7, E8.
  repeat split.
  - destruct E1 as [?|(Ht & v' & Hv & ->)]; [now left|right].
    split; [assumption|].
    destruct (get _ "parts") as [p|]; [|discriminate]. cbn [bind] in Hv.
    destruct (normalizeParts p) as [p'|] eqn:En; [|discriminate].
    cbn [bind] in Hv. injection Hv as <-.
    apply normalizeParts_ok in En. destruct En as (ps & -> & _). eauto.
  - destruct (prop "contents" request) as [| | | | | |l|];
      try (injection E3 as <-; now left).
    destruct (mapRes transformContent l) as [turns|] eqn:Em; [|discriminate].
    cbn [bind] in E3. injection E3 as <-. right. exists turns.
    split; [reflexivity|]. split; [reflexivity|].
    now apply mapRes_Forall2.
  - destruct E4 as [?|(Ht & v' & [= <-] & ->)]; [now left|now right].
  - destruct E5 as [?|(Ht & v' & [= <-] & ->)]; [now left|now right].
  - destruct E6 as [?|(Ht & v' & [= <-] & ->)]; [now left|now right].
  - destruct E7 as [?|(Ht & v' & [= <-] & ->)]; [now left|now right].
  - destruct E8 as [?|(Ht & v' & [= <-] & ->)]; [now left|now right].
Qed.

Ltac choose_piece Ht :=
  first [ solve [split; [exact Ht | reflexivity]]
        | left; solve [split; [exact Ht | reflexivity]]
        | right; choose_piece Ht ].

Ltac which_piece :=
  let Hor := fresh "Hor" in
  let Hb := fresh "Hb" in
  let He := fresh "He" in
  let Ht := fresh "Ht" in
  split;
  [ intros Hor;
    repeat (destruct Hor as [[Hb He]|Hor]; [first [discriminate He | exact Hb]|]);
    destruct Hor as [Hb He]; first [discriminate He | exact Hb]
  | intros Ht; choose_piece Ht ].

Lemma piece_keys (b : bool) (piece : list (string * value)) (name : string) :
  (b = false /\ piece = []) \/ (b = true /\ exists v, piece = [(name, v)]) ->
  sublist (map fst piece) [name]
  /\ (forall k, In k (map fst piece) <-> b = true /\ k = name)
  /\ (forall k rest, k <> name ->
        lookupProp k (piece ++ rest)%list = lookupProp k rest).
Proof.
  intros [[-> ->]|(-> & v & ->)]; cbn.
  - split; [apply sublist_nil_l|]. split; [intuition congruence|reflexivity].
  - split; [reflexivity|]. split; [intuition congruence|].
    intros k rest Hk. destruct (String.eqb_spec k name); [contradiction|reflexivity].
Qed.

Lemma piece_found (b : bool) (piece : list (string * value)) (name : string)
    (v : value) (rest : list (string * value)) :
  (b = false /\ piece = []) \/ (b = true /\ piece = [(name, v)]) ->
  b = true -> lookupProp name (piece ++ rest)%list = v.
Proof.
  intros [[-> _]|(_ & ->)]; [discriminate|]. intros _. cbn.
  now rewrite String.eqb_refl.
Qed.

Lemma piece_weaken (b : bool) (piece : list (string * value)) (name : string)
    (v : value) :
  (b = false /\ piece = []) \/ (b = true /\ piece = [(name, v)]) ->
  (b = false /\ piece = []) \/ (b = true /\ exists v, piece = [(name, v)]).
Proof. intros [?|[? ?]]; [now left|right; eauto]. Qed.

(** X8. Whatever the request holds, the payload the transform returns
    has no other properties than the seven it writes, in this order, and
    each of them exactly when the request has a value for it; the four
    that are not rebuilt are carried over as they are. *)
Theorem transform_payload_fields (request payload : value) :
  transformRequestForHttpTransport request = Ok payload ->
  sublist (keys payload)
          ["system_instruction"; "contents"; "generation_config";
           "safety_settings"; "tools"; "tool_config"; "cached_content"]
  /\ (In "contents" (keys payload)
      <-> isArray (prop "contents" request) = true)
  /\ (forall camel snake,
        In (camel, snake)
           [("systemInstruction", "system_instruction");
            ("generationConfig", "generation_config");
            ("safetySettings", "safety_settings");
            ("tools", "tools");
            ("toolConfig", "tool_config");
            ("cachedContent", "cached_content")] ->
        (In snake (keys payload) <-> truthy (prop camel request) = true))
  /\ (forall camel snake,
        In (camel, snake)
           [("safetySettings", "safety_settings");
            ("tools", "tools");
            ("toolConfig", "tool_config");
            ("cachedContent", "cached_content")] ->
        truthy (prop camel request) = true ->
        prop snake payload = prop camel request).
Proof.
  intros H. apply transform_ok in H.
  destruct H as (si & cs & gc & ss & tl & tc & cc & -> & H1 & H2 & H3 & H4
                 & H5 & H6 & H7).
  assert (P1 : (truthy (prop "systemInstruction" request) = false /\ si = [])
               \/ (truthy (prop "systemInstruction" request) = true
                   /\ exists v, si = [("system_instruction", v)])).
  { destruct H1 as [?|(? & ps & ->)]; [now left|right; eauto]. }
  assert (P2 : (isArray (prop "contents" request) = false /\ cs = [])
               \/ (isArray (prop "contents" request) = true
                   /\ exists v, cs = [("contents", v)])).
  { destruct H2 as [?|(turns & Hc & -> & _)]; [now left|right].
    rewrite Hc. eauto. }
  pose proof (piece_weaken _ _ _ _ H3) as P3.
  pose proof (piece_weaken _ _ _ _ H4) as P4.
  pose proof (piece_weaken _ _ _ _ H5) as P5.
  pose proof (piece_weaken _ _ _ _ H6) as P6.
  pose proof (piece_weaken _ _ _ _ H7) as P7.
  destruct (piece_keys _ _ _ P1) as (S1 & I1 & L1).
  destruct (piece_keys _ _ _ P2) as (S2 & I2 & L2).
  destruct (piece_keys _ _ _ P3) as (S3 & I3 & L3).
  destruct (piece_keys _ _ _ P4) as (S4 & I4 & L4).
  destruct (piece_keys _ _ _ P5) as (S5 & I5 & L5).
  destruct (piece_keys _ _ _ P6) as (S6 & I6 & L6).
  destruct (piece_keys _ _ _ P7) as (S7 & I7 & L7).
  assert (Hin : forall k,
             In k (keys (Obj (si ++ cs ++ gc ++ ss ++ tl ++ tc ++ cc)%list))
             <-> In k (map fst si) \/ In k (map fst cs) \/ In k (map fst gc)
                 \/ In k (map fst ss) \/ In k (map fst tl)
                 \/ In k (map fst tc) \/ In k (map fst cc)).
  { intros k. cbn [keys]. rewrite !List.map_app, !List.in_app_iff. reflexivity. }
  split; [|split; [|split]].
  - cbn [keys]. rewrite !List.map_app.
    change ["system_instruction"; "contents"; "generation_config";
            "safety_settings"; "tools"; "tool_config"; "cached_content"]
      with (["system_instruction"] ++ ["contents"] ++ ["generation_config"]
              ++ ["safety_settings"] ++ ["tools"] ++ ["tool_config"]
              ++ ["cached_content"])%list.
    repeat (apply sublist_app; [assumption|]). assumption.
  - rewrite Hin, I1, I2, I3, I4, I5, I6, I7. which_piece.
  - intros camel snake Hpair. rewrite Hin, I1, I2, I3, I4, I5, I6, I7.
    cbn in Hpair.
    repeat (destruct Hpair as [[= <- <-]|Hpair]; [which_piece|]).
    contradiction.
  - intros camel snake Hpair Ht. cbn [prop]. cbn in Hpair.
    destruct Hpair as [[= <- <-]|Hpair].
    { rewrite L1, L2, L3 by discriminate. now apply (piece_found _ _ _ _ _ H4). }
    destruct Hpair as [[= <- <-]|Hpair].
    { rewrite L1, L2, L3, L4 by discriminate.
      now apply (piece_found _ _ _ _ _ H5). }
    destruct Hpair as [[= <- <-]|Hpair].
    { rewrite L1, L2, L3, L4, L5 by discriminate.
      now apply (piece_found _ _ _ _ _ H6). }
    destruct Hpair as [[= <- <-]|Hpair]; [|contradiction].
    rewrite L1, L2, L3, L4, L5, L6 by discriminate.
    rewrite <- (app_nil_r cc). now apply (piece_found _ _ _ _ _ H7).
Qed.

Lemma transform_payload_fields_witness :
  sublist (keys (wirePayload sampleRequest))
          ["system_instruction"; "contents"; "generation_config";
           "safety_settings"; "tools"; "tool_config"; "cached_content"].
Proof.
  apply (transform_payload_fields (encodeRequest sampleRequest)
                                  (wirePayload sampleRequest)).
  reflexivity.
Defined.

Lemma normalizePart_idempotent (p q : value) :
  normalizePart p = Ok q -> normalizePart q = Ok q.
Proof.
  intros H. pose proof H as H0. unfold normalizePart in H.
  destruct (truthy p) eqn:Tp; cbn [negb] in H;
    [|injection H as <-; reflexivity].
  destruct (get p "text") as [t|] eqn:Et; [|discriminate]. cbn [bind] in H.
  destruct t; try (injection H as <-; reflexivity);
    (destruct (get p "inlineData") as [d|] eqn:Ed; [|discriminate];
     cbn [bind] in H;
     destruct (truthy d); [injection H as <-; reflexivity|];
     destruct (get p "fileData") as [f|] eqn:Ef; [|discriminate];
     cbn [bind] in H;
     destruct (truthy f); [injection H as <-; reflexivity|];
     injection H as <-; exact H0).
Qed.

Lemma normalizePart_text (p q : value) (t : string) :
  normalizePart p = Ok q -> prop "text" p = Str t -> q = Obj [("text", Str t)].
Proof.
  unfold normalizePart. destruct p; try discriminate. cbn.
  intros H Ht. rewrite Ht in H. now injection H as <-.
Qed.

Lemma mapRes_fixed {A : Type} (f : A -> res A) (l : list A) :
  Forall (fun x => f x = Ok x) l -> mapRes f l = Ok l.
Proof.
  induction 1 as [|x rest Hx _ IH]; [reflexivity|].
  simpl. now rewrite Hx, IH.
Qed.

Lemma lookup_contents (si cs rest : list (string * value)) (b : bool) :
  (b = false /\ si = [])
  \/ (b = true /\ exists ps, si = [("system_instruction", Obj [("parts", Arr ps)])]) ->
  forall turns, cs = [("contents", Arr turns)] ->
  lookupProp "contents" (si ++ cs ++ rest)%list = Arr turns.
Proof.
  intros [[_ ->]|(_ & ps & ->)] turns ->; reflexivity.
Qed.

(** X9. For a request whose [contents] is an array, the payload has one
    turn for each turn of the request, in order and with the role it
    had, and one part for each of its parts; a part with a string for
    its text becomes an object that holds this text and nothing else. *)
Theorem transform_keeps_turns (request payload : value) (turns : list value) :
  transformRequestForHttpTransport request = Ok payload ->
  prop "contents" request = Arr turns ->
  Forall2
    (fun turn out =>
       prop "role" out = prop "role" turn
       /\ Forall2 (fun p q =>
                     forall t, prop "text" p = Str t ->
                               q = Obj [("text", Str t)])
                  (items (prop "parts" turn)) (items (prop "parts" out)))
    turns (items (prop "contents" payload)).
Proof.
  intros H Hc. apply transform_ok in H.
  destruct H as (si & cs & gc & ss & tl & tc & cc & -> & H1 & H2 & _).
  rewrite Hc in H2. cbn [isArray items] in H2.
  destruct H2 as [[? _]|(turns' & _ & Hcs & HF)]; [discriminate|].
  cbn [prop]. rewrite (lookup_contents _ _ _ _ H1 _ Hcs). cbn [items].
  eapply Forall2_impl; [exact HF|].
  intros turn out Hout. cbv beta in Hout.
  apply transformContent_ok in Hout. destruct Hout as (ps & -> & Hps).
  split; [reflexivity|].
  cbn. eapply Forall2_impl; [exact Hps|].
  intros p q Hq t Ht. now apply (normalizePart_text p).
Qed.

Lemma transform_keeps_turns_witness :
  Forall2
    (fun turn out =>
       prop "role" out = prop "role" turn
       /\ Forall2 (fun p q =>
                     forall t, prop "text" p = Str t ->
                               q = Obj [("text", Str t)])
                  (items (prop "parts" turn)) (items (prop "parts" out)))
    (items (prop "contents" (encodeRequest sampleRequest)))
    (items (prop "contents" (wirePayload sampleRequest))).
Proof.
  apply (transform_keeps_turns (encodeRequest sampleRequest)); reflexivity.
Defined.

(** X10. A turn that has been transformed is left as it is when it is
    transformed again: normalising the parts is idempotent, and the
    role is kept. *)
Theorem transformContent_idempotent (turn out : value) :
  transformContent turn = Ok out -> transformContent out = Ok out.
Proof.
  intros H. apply transformContent_ok in H. destruct H as (ps & -> & Hps).
  unfold transformContent. cbn [get lookupProp String.eqb Ascii.eqb Bool.eqb bind].
  unfold normalizeParts, or. cbn [truthy].
  rewrite mapRes_fixed; [reflexivity|].
  clear -Hps. induction Hps as [|x y l l' Hxy _ IH]; constructor; auto.
  now apply (normalizePart_idempotent x).
Qed.

Lemma transformContent_idempotent_witness :
  transformContent
    (Obj [("role", Str "user");
          ("parts", Arr [Obj [("inline_data", Obj [("mimeType", Str "image/png")])]])])
  = Ok (Obj [("role", Str "user");
             ("parts", Arr [Obj [("inline_data", Obj [("mimeType", Str "image/png")])]])]).
Proof.
  apply (transformContent_idempotent
           (Obj [("role", Str "user");
                 ("parts", Arr [Obj [("inlineData", Obj [("mimeType", Str "image/png")])]])])).
  reflexivity.
Defined.

End TransformMore.


(* ================================================================== *)
(** * More on the credential variable *)

Module ConfigMore.
Import JsString JsStringFacts Config ConfigFacts.

Lemma allChars_trimStart (p : ascii -> bool) (s : string) :
  allChars p s = true -> allChars p (trimStart s) = true.
Proof.
  induction s as [|c s IH]; [reflexivity|].
  intros H. simpl. destruct (isWhiteSpace c); [|exact H].
  simpl in H. apply andb_prop in H as [_ H]. auto.
Qed.

Lemma allChars_trimEnd (p : ascii -> bool) (s : string) :
  allChars p s = true -> allChars p (trimEnd s) = true.
Proof.
  induction s as [|c s IH]; [reflexivity|].
  intros H. simpl in H. apply andb_prop in H as [Hc Hs].
  specialize (IH Hs). simpl.
  destruct (trimEnd s) as [|d t].
  - destruct (isWhiteSpace c); [reflexivity|]. simpl. now rewrite Hc.
  - simpl. simpl in IH. now rewrite Hc, IH.
Qed.

Lemma split_app_sep (sep : ascii -> bool) (seg t : string) (c : ascii) :
  allChars (fun c => negb (sep c)) seg = true -> sep c = true ->
  split sep (seg ++ String c t) = seg :: split sep t.
Proof.
  intros Hseg Hc. induction seg as [|d seg IH].
  - rewrite append_nil. simpl. now rewrite Hc.
  - simpl in Hseg. apply andb_prop in Hseg as [Hd Hseg].
    apply negb_true_iff in Hd.
    rewrite append_cons. simpl. now rewrite Hd, (IH Hseg).
Qed.

(** Cutting what [interleave] has glued gives the segments back. *)
Lemma split_interleave_inv (sep : ascii -> bool) (segs : list string) :
  forall seps,
    length segs = S (length seps) ->
    Forall (fun c => sep c = true) seps ->
    Forall (fun seg => allChars (fun c => negb (sep c)) seg = true) segs ->
    split sep (interleave segs seps) = segs.
Proof.
  induction segs as [|seg segs IH]; intros seps Hlen Hseps Hsegs;
    [discriminate|].
  inversion Hsegs as [|? ? Hseg Hrest]; subst.
  destruct segs as [|seg2 rest].
  - simpl. now apply split_single.
  - destruct seps as [|c seps]; [discriminate|].
    inversion Hseps as [|? ? Hc Hseps']; subst.
    rewrite interleave_cons_sep by discriminate.
    rewrite (split_app_sep _ _ _ _ Hseg Hc).
    f_equal. apply IH; auto.
Qed.

(** X11. Every key [getApiKeys] returns is clean: it is not empty, not
    the placeholder, has no white space at its ends and holds no comma
    and no newline; [getApiKey] is the first of them, or nothing when
    there is none. *)
Theorem getApiKeys_clean (env : Env) (service : string) :
  Forall (fun k => k <> "" /\ k <> placeholder /\ trim k = k
                   /\ allChars (fun c => negb (isSeparator c)) k = true)
         (getApiKeys env service)
  /\ getApiKey env service = head (getApiKeys env service).
Proof.
  split.
  - destruct (env (envKey service)) as [v|] eqn:E.
    + rewrite (getApiKeys_unfold _ _ _ E).
      apply List.Forall_forall. intros k Hk.
      apply filter_In in Hk as [Hk Hkeep].
      apply keepKey_spec in Hkeep as [Hne Hph].
      apply in_map_iff in Hk as [seg [<- Hseg]].
      split; [assumption|]. split; [assumption|].
      split; [apply trim_idempotent|].
      pose proof (split_segments isSeparator v) as Hall.
      rewrite List.Forall_forall in Hall.
      unfold trim. apply allChars_trimEnd, allChars_trimStart. auto.
    + unfold getApiKeys. rewrite E. constructor.
  - unfold getApiKey, getApiKeys.
    destruct (env (envKey service)) as [[|c v]|]; reflexivity.
Qed.

(** X12. Round trip: keys written one after the other, each padded with
    white space at will and separated by commas or newlines, are read
    back as they are and in order, as long as none of them is empty or
    the placeholder. *)
Theorem getApiKeys_round_trip (env : Env) (service : string)
    (segs : list string) (seps : list ascii) (keys : list string) :
  length segs = S (length seps) ->
  Forall (fun c => isSeparator c = true) seps ->
  Forall (fun seg => allChars (fun c => negb (isSeparator c)) seg = true) segs ->
  Forall2 Trimmed segs keys ->
  Forall (fun k => k <> "" /\ k <> placeholder) keys ->
  env (envKey service) = Some (interleave segs seps) ->
  getApiKeys env service = keys
  /\ getApiKey env service = head keys.
Proof.
  intros Hlen Hseps Hsegs Htrim Hvalid Henv.
  assert (Hkeys : getApiKeys env service = keys).
  { rewrite (getApiKeys_unfold _ _ _ Henv).
    rewrite (split_interleave_inv _ _ _ Hlen Hseps Hsegs).
    assert (Hmap : map trim segs = keys).
    { clear -Htrim. induction Htrim as [|s k l l' H _ IH]; [reflexivity|].
      simpl. now rewrite (Trimmed_unique _ _ H), IH. }
    rewrite Hmap. clear -Hvalid.
    induction Hvalid as [|k l Hk _ IH]; [reflexivity|].
    cbn [List.filter]. apply keepKey_spec in Hk. now rewrite Hk, IH. }
  split; [exact Hkeys|].
  rewrite <- Hkeys. unfold getApiKey, getApiKeys.
  destruct (env (envKey service)) as [[|c v]|]; reflexivity.
Qed.

Lemma getApiKeys_round_trip_witness :
  getApiKeys
    (fun k => if String.eqb k "GEMINI_API_KEY"
              then Some (interleave ["AIzaKey1 "; " AIzaKey2"] [","%char])
              else None)
    "gemini"
  = ["AIzaKey1"; "AIzaKey2"].
Proof.
  apply (getApiKeys_round_trip
           (fun k => if String.eqb k "GEMINI_API_KEY"
                     then Some (interleave ["AIzaKey1 "; " AIzaKey2"] [","%char])
                     else None)
           "gemini" ["AIzaKey1 "; " AIzaKey2"] [","%char]
           ["AIzaKey1"; "AIzaKey2"]).
  - reflexivity.
  - repeat constructor.
  - repeat constructor.
  - constructor; [|constructor; [|constructor]].
    + split; [exists "", " "; repeat split|].
      split; intros c [= <-]; reflexivity.
    + split; [exists " ", ""; repeat split|].
      split; intros c [= <-]; reflexivity.
  - repeat constructor; discriminate.
  - reflexivity.
Defined.

End ConfigMore.

(* ================================================================== *)
(** * What both transports hand back *)

Module OrchestratorMore.
Import JsString JsStringFacts Classifier Pool Orchestrator TransportMore.

Section Texts.

Variable maxRetries : nat.
Variable timeout : Z.
Variable enableFallbackMethod : bool.
Variable apiKeys : list string.
Variable geminiRequest : Js.value.
Variable stringify : Js.value -> string.
Variable sdk : nat -> nat -> SdkOutcome.
Variable https : nat -> nat -> nat -> HttpsOutcome.
Variable random : nat -> Q.

Lemma trim_good (s : string) : String.eqb (trim s) "" = false -> trim s <> "" /\ trim (trim s) = trim s.
Proof.
  intros H. split; [|apply trim_idempotent].
  intros E. rewrite E in H. discriminate.
Qed.

Lemma makeAlternativeRequest_good (attempt k : nat) (w w' : World) (t : string) :
  makeAlternativeRequest timeout stringify https attempt k w = (Js.Ok t, w') ->
  t <> "" /\ trim t = t.
Proof.
  unfold makeAlternativeRequest.
  destruct (https _ _ _) as [r|e|]; intros [= H _]; try discriminate.
  now apply (handleResponse_accepts stringify r).
Qed.

Lemma keyAttempts_good (m remaining : nat) :
  forall attempt k isLast lastError w t lastError' w',
    keyAttempts timeout stringify https m remaining attempt k isLast lastError w
    = (KeyReturn t, lastError', w') ->
    t <> "" /\ trim t = t.
Proof.
  induction remaining as [|remaining IH]; intros attempt k isLast lastError w t
    lastError' w'; [discriminate|].
  cbn [keyAttempts].
  destruct (makeAlternativeRequest _ _ _ _ _ _) as [[result|error] w1] eqn:Em.
  - intros [= <- _ _]. eapply makeAlternativeRequest_good; eassumption.
  - cbv zeta.
    destruct (_ || _ || _ || _ || _); [discriminate|].
    destruct (_ || _); [destruct isLast; discriminate|].
    apply IH.
Qed.

Lemma tryKeys_good (m : nat) (keys : list nat) :
  forall lastError w t w',
    tryKeys timeout geminiRequest stringify https m keys lastError w
    = (Js.Ok t, w') ->
    t <> "" /\ trim t = t.
Proof.
  induction keys as [|k rest IH]; intros lastError w t w'; [discriminate|].
  cbn [tryKeys].
  destruct (Transport.transformRequestForHttpTransport geminiRequest);
    [|discriminate].
  destruct (keyAttempts _ _ _ _ _ _ _ _ _ _) as [[[t'|e|] le] w1] eqn:Ek.
  - intros [= <- _]. eapply keyAttempts_good; eassumption.
  - discriminate.
  - apply IH.
Qed.

Lemma executeAlternativeRequest_good (m : nat) (keyIndex : option nat)
    (w w' : World) (t : string) :
  executeAlternativeRequest timeout apiKeys geminiRequest stringify https
    m keyIndex w = (Js.Ok t, w') ->
  t <> "" /\ trim t = t.
Proof.
  unfold executeAlternativeRequest. cbv zeta.
  destruct (length apiKeys =? 0)%nat; [discriminate|].
  destruct (List.filter _ _); apply tryKeys_good.
Qed.

Lemma tryFallback_good (ck : option nat) (w w' : World) (t : string) :
  tryFallback timeout apiKeys geminiRequest stringify https ck w
  = (Some t, w') ->
  t <> "" /\ trim t = t.
Proof.
  unfold tryFallback.
  destruct (executeAlternativeRequest _ _ _ _ _ 3 ck w) as [[r|e] w1] eqn:E1.
  - intros [= <- _]. eapply executeAlternativeRequest_good; eassumption.
  - destruct ck as [k|]; [|discriminate]. cbv zeta.
    destruct (_ && _); [|discriminate].
    destruct (executeAlternativeRequest _ _ _ _ _ 3 _ w1) as [[r|e'] w2] eqn:E2;
      [|discriminate].
    intros [= <- _]. eapply executeAlternativeRequest_good; eassumption.
Qed.

Lemma tryNextKeyOnce_good (ck : option nat) (w w' : World) (t : string) :
  tryNextKeyOnce sdk ck w = (Some t, w') -> t <> "" /\ trim t = t.
Proof.
  unfold tryNextKeyOnce. destruct ck as [k|]; [|discriminate]. cbv zeta.
  destruct (_ && _ && _); [|discriminate].
  destruct (sdk _ _) as [e| | |[]]; try discriminate.
  destruct (String.eqb (trim s) "") eqn:E; [discriminate|].
  intros [= <- _]. now apply trim_good.
Qed.

Lemma tryNative_good (attempt : nat) (w w' : World) (t : string) :
  tryNative sdk attempt w = (inl t, w') -> t <> "" /\ trim t = t.
Proof.
  unfold tryNative.
  destruct (getNextModel _) as [[model|] s']; [|discriminate]. cbv zeta.
  destruct (sdk _ _) as [e| | |[]]; try discriminate.
  destruct (String.eqb (trim s) "") eqn:E; [discriminate|].
  intros [= <- _]. now apply trim_good.
Qed.

Lemma onFailure_good (ck : option nat) (attempt : nat) (error : Js.error)
    (w w' : World) (t : string) :
  onFailure maxRetries timeout enableFallbackMethod apiKeys geminiRequest
    stringify sdk https random ck attempt error w = (Return t, w') ->
  t <> "" /\ trim t = t.
Proof.
  unfold onFailure. cbv zeta.
  destruct (switchKeyOnQuota _ _ _ _) as [[|] w1]; [discriminate|].
  destruct (negb (isRetryable _)); [discriminate|].
  match goal with
  | |- context [let '(fallback, w2) := ?c in _] =>
      destruct c as [[text|] w2] eqn:Ef
  end.
  - intros [= <- _].
    destruct (_ && _ && _); [|discriminate].
    eapply tryFallback_good; eassumption.
  - destruct (attempt =? maxRetries)%nat; [|discriminate].
    destruct (tryNextKeyOnce sdk ck w2) as [[text|] w3] eqn:En; [|discriminate].
    intros [= <- _]. eapply tryNextKeyOnce_good; eassumption.
Qed.

Lemma attempts_good (remaining : nat) :
  forall attempt lastError w w' t,
    attempts maxRetries timeout enableFallbackMethod apiKeys geminiRequest
      stringify sdk https random remaining attempt lastError w = (inl t, w') ->
    t <> "" /\ trim t = t.
Proof.
  induction remaining as [|remaining IH]; intros attempt lastError w w' t;
    [discriminate|].
  cbn [attempts]. unfold pass.
  destruct (tryNative sdk attempt w) as [[text|error] w1] eqn:Et.
  - intros [= <- _]. eapply tryNative_good; eassumption.
  - destruct (onFailure _ _ _ _ _ _ _ _ _ _ _ _ _) as [[text|e|e] w2] eqn:Eo.
    + intros [= <- _]. eapply onFailure_good; eassumption.
    + discriminate.
    + apply IH.
Qed.

(** X13. Whichever way a request succeeds, over the native client, the
    raw transport of the fallback or the extra request with the next
    key, the text that comes back is not empty and has no white space
    at its ends. This holds for [executeRequest] and for the request of
    [processTextWithSkill] with its own fallback. *)
Theorem returned_text_not_blank (w : World) :
  (forall t w',
     executeRequest maxRetries timeout enableFallbackMethod apiKeys
       geminiRequest stringify sdk https random w = (inl t, w') ->
     t <> "" /\ trim t = t)
  /\ (forall t used w',
        requestWithFallback maxRetries timeout enableFallbackMethod apiKeys
          geminiRequest stringify sdk https random w = (inl (t, used), w') ->
        t <> "" /\ trim t = t).
Proof.
  split.
  - intros t w'. apply attempts_good.
  - intros t used w'. unfold requestWithFallback.
    destruct (executeRequest _ _ _ _ _ _ _ _ _ w) as [[r|e] w1] eqn:Ee.
    + intros [= <- _ _]. eapply attempts_good. exact Ee.
    + destruct (_ && _); [|discriminate].
      destruct (executeAlternativeRequest _ _ _ _ _ 3 None w1)
        as [[r|e1] w2] eqn:E1.
      * intros [= <- _ _]. eapply executeAlternativeRequest_good; eassumption.
      * cbv zeta. destruct (1 <? _)%nat; [|discriminate].
        destruct (executeAlternativeRequest _ _ _ _ _ 3 (Some _) w2)
          as [[r|e2] w3] eqn:E2; [|discriminate].
        intros [= <- _ _]. eapply executeAlternativeRequest_good; eassumption.
Qed.

End Texts.

Lemma returned_text_not_blank_witness :
  "B" <> "" /\ trim "B" = "B".
Proof.
  apply (proj1 (returned_text_not_blank 2 60000 true sampleKeys (Js.Obj [])
                  (fun _ => EmptyString)
                  (fun _ _ => SdkText (Js.Str " B "))
                  (fun _ _ _ => HttpsTimeout) (fun _ => 0%Q) sampleWorld)
               "B"
               (snd (executeRequest 2 60000 true sampleKeys (Js.Obj [])
                  (fun _ => EmptyString)
                  (fun _ _ => SdkText (Js.Str " B "))
                  (fun _ _ _ => HttpsTimeout) (fun _ => 0%Q) sampleWorld))).
  reflexivity.
Defined.

End OrchestratorMore.

(* ================================================================== *)
(** * The effects of a request, counted *)

Module BudgetFacts.
Import JsString Classifier Pool Orchestrator Effects.
Local Open Scope Q_scope.

Lemma count_app (kind : Event -> bool) (a b : list Event) :
  count kind (a ++ b)%list = (count kind a + count kind b)%nat.
Proof. unfold count. now rewrite List.filter_app, List.length_app. Qed.

Lemma alternativeBackoff_cap (attempt : nat) :
  alternativeBackoff attempt <= 10000.
Proof. unfold alternativeBackoff. apply Q.le_min_r. Qed.

Lemma backoffDelay_within (net : bool) (attempt : nat) (jitter : Q) :
  backoffDelay net attempt jitter <= 10000.
Proof.
  unfold backoffDelay. destruct (Binary64.overflows _); [apply Qle_refl|].
  apply Q.le_min_r.
Qed.

(** What the raw transport leaves behind has nothing of the native
    loop in it. *)
Lemma rawEvent_summary (n m : nat) (timeout : Z) (evs : list Event) :
  Forall (rawEvent n m timeout) evs ->
  count isSdkCall evs = 0%nat /\ count isPreflight evs = 0%nat
  /\ Forall (pauseWithin 10000) evs.
Proof.
  induction 1 as [|e evs He _ (IH1 & IH2 & IH3)].
  - repeat split. constructor.
  - destruct e; try contradiction; (split; [|split]);
      try assumption; constructor; auto; exact I.
Qed.

Lemma no_sleep_pauseWithin (cap : Q) (evs : list Event) :
  count isSleep evs = 0%nat -> Forall (pauseWithin cap) evs.
Proof.
  induction evs as [|e evs IH]; [constructor|].
  destruct e; cbn; try discriminate; intros H; constructor; auto; exact I.
Qed.

Section Raw.

Variable timeout : Z.
Variable apiKeys : list string.
Variable geminiRequest : Js.value.
Variable stringify : Js.value -> string.
Variable https : nat -> nat -> nat -> HttpsOutcome.

Local Abbreviation makeAlternativeRequest :=
  (makeAlternativeRequest timeout stringify https).
Local Abbreviation keyAttempts := (keyAttempts timeout stringify https).
Local Abbreviation tryKeys :=
  (tryKeys timeout geminiRequest stringify https).
Local Abbreviation executeAlternativeRequest :=
  (executeAlternativeRequest timeout apiKeys geminiRequest stringify https).

Lemma makeAlternativeRequest_trace (attempt k : nat) (w w' : World)
    (r : Js.res string) :
  makeAlternativeRequest attempt k w = (r, w') ->
  trace w'
  = (trace w ++ [HttpsCall k attempt
                   (timeout + (Z.of_nat attempt - 1) * 10000)%Z])%list
  /\ svc w' = svc w.
Proof.
  unfold Orchestrator.makeAlternativeRequest.
  destruct (https _ _ _); intros [= _ <-]; split; reflexivity.
Qed.

Lemma keyAttempts_effects (n m remaining : nat) :
  forall attempt k isLast lastError w step lastError' w',
    (1 <= attempt)%nat -> (attempt + remaining = S m)%nat -> (k < n)%nat ->
    keyAttempts m remaining attempt k isLast lastError w
    = (step, lastError', w') ->
    exists evs,
      trace w' = (trace w ++ evs)%list
      /\ Forall (rawEvent n m timeout) evs
      /\ (count isHttpsCall evs <= remaining)%nat
      /\ (forall t, step = KeyReturn t ->
            currentKeyIndex (svc w') = k
            /\ exists pre a to, evs = (pre ++ [HttpsCall k a to])%list).
Proof.
  induction remaining as [|remaining IH];
    intros attempt k isLast lastError w step lastError' w' H1 Hsum Hk.
  - intros [= <- _ <-]. exists []. rewrite app_nil_r.
    repeat split; [constructor|reflexivity|discriminate|discriminate].
  - cbn [Orchestrator.keyAttempts].
    destruct (makeAlternativeRequest attempt k w) as [[result|error] w1] eqn:Em.
    all: apply makeAlternativeRequest_trace in Em as [Ht Hs].
    all: assert (Hcall : rawEvent n m timeout
                   (HttpsCall k attempt
                      (timeout + (Z.of_nat attempt - 1) * 10000)%Z))
        by (simpl; repeat split; [assumption|assumption|lia]).
    + intros [= <- _ <-]. eexists. split; [exact Ht|].
      split; [constructor; [exact Hcall|constructor]|].
      split; [cbn; lia|].
      intros t _. split; [reflexivity|]. eexists [], attempt, _. reflexivity.
    + cbv zeta.
      destruct (_ || _ || _ || _ || _).
      { intros [= <- _ <-]. eexists. split.
        - cbn [mark emit setSvc trace]. rewrite Ht, <- app_assoc. reflexivity.
        - split; [constructor; [exact Hcall|constructor; [exact Hk|constructor]]|].
          split; [cbn; lia|discriminate]. }
      destruct (_ || _).
      { assert (Hdone : exists evs,
                  trace w1 = (trace w ++ evs)%list
                  /\ Forall (rawEvent n m timeout) evs
                  /\ (count isHttpsCall evs <= S remaining)%nat).
        { eexists. split; [exact Ht|]. split; [constructor; [exact Hcall|constructor]|].
          cbn; lia. }
        destruct Hdone as (evs & ? & ? & ?).
        destruct isLast; intros [= <- _ <-]; exists evs;
          repeat split; try assumption; discriminate. }
      intros Hrec. apply IH in Hrec; [|lia|lia|assumption].
      destruct Hrec as (evs & Htr & Hall & Hcount & Hret).
      exists ([HttpsCall k attempt (timeout + (Z.of_nat attempt - 1) * 10000)%Z;
               Sleep (alternativeBackoff attempt)] ++ evs)%list.
      split.
      { rewrite Htr. cbn [emit trace]. rewrite Ht, <- !app_assoc. reflexivity. }
      split.
      { constructor; [exact Hcall|].
        constructor; [apply alternativeBackoff_cap|exact Hall]. }
      split.
      { rewrite count_app. cbn. lia. }
      intros t Hstep. destruct (Hret t Hstep) as (Hcur & pre & a & to & ->).
      split; [exact Hcur|].
      eexists (_ :: _ :: pre), a, to. reflexivity.
Qed.

Lemma tryKeys_effects (n m : nat) (keys : list nat) :
  forall lastError w r w',
    Forall (fun k => (k < n)%nat) keys ->
    tryKeys m keys lastError w = (r, w') ->
    exists evs,
      trace w' = (trace w ++ evs)%list
      /\ Forall (rawEvent n m timeout) evs
      /\ (count isHttpsCall evs <= length keys * m)%nat
      /\ (forall t, r = Js.Ok t ->
            (currentKeyIndex (svc w') < n)%nat
            /\ exists pre a to,
                 evs = (pre ++ [HttpsCall (currentKeyIndex (svc w')) a to])%list).
Proof.
  induction keys as [|k rest IH]; intros lastError w r w' Hkeys.
  - intros [= <- <-]. exists []. rewrite app_nil_r.
    repeat split; [constructor|reflexivity|discriminate|discriminate].
  - inversion Hkeys as [|? ? Hk Hrest]; subst.
    cbn [Orchestrator.tryKeys].
    destruct (Transport.transformRequestForHttpTransport geminiRequest).
    2:{ intros [= <- <-]. exists []. rewrite app_nil_r.
        repeat split; [constructor|cbn; lia|discriminate|discriminate]. }
    destruct (keyAttempts m m 1 k _ lastError w) as [[step le] w1] eqn:Ek.
    apply (keyAttempts_effects n) in Ek; [|lia|lia|assumption].
    destruct Ek as (evs & Htr & Hall & Hcount & Hret).
    destruct step as [t|e|].
    + intros [= <- <-]. exists evs.
      split; [exact Htr|]. split; [exact Hall|].
      split; [cbn [length]; lia|].
      intros t' _. destruct (Hret t eq_refl) as (Hcur & pre & att & tmo & ->).
      rewrite Hcur. split; [exact Hk|]. now exists pre, att, tmo.
    + intros [= <- <-]. exists evs.
      split; [exact Htr|]. split; [exact Hall|].
      split; [cbn [length]; lia|discriminate].
    + intros Hrec. apply IH in Hrec; [|assumption].
      destruct Hrec as (evs' & Htr' & Hall' & Hcount' & Hret').
      exists (evs ++ evs')%list.
      split; [rewrite Htr', Htr, app_assoc; reflexivity|].
      split; [apply Forall_app; auto|].
      split; [rewrite count_app; cbn [length]; lia|].
      intros t Hr. destruct (Hret' t Hr) as (Hcur & pre & att & tmo & ->).
      split; [exact Hcur|]. exists (evs ++ pre)%list, att, tmo.
      now rewrite app_assoc.
Qed.

Lemma executeAlternativeRequest_effects (m : nat) (keyIndex : option nat)
    (w w' : World) (r : Js.res string) :
  executeAlternativeRequest m keyIndex w = (r, w') ->
  exists evs,
    trace w' = (trace w ++ evs)%list
    /\ Forall (rawEvent (length apiKeys) m timeout) evs
    /\ (count isHttpsCall evs <= length apiKeys * m)%nat
    /\ (forall t, r = Js.Ok t ->
          (currentKeyIndex (svc w') < length apiKeys)%nat
          /\ exists pre a to,
               evs = (pre ++ [HttpsCall (currentKeyIndex (svc w')) a to])%list).
Proof.
  unfold Orchestrator.executeAlternativeRequest. cbv zeta.
  destruct (length apiKeys =? 0)%nat eqn:En.
  { intros [= <- <-]. exists []. rewrite app_nil_r.
    repeat split; [constructor|cbn; lia|discriminate|discriminate]. }
  apply Nat.eqb_neq in En.
  set (currentKeyIdx :=
         match keyIndex with
         | Some k =>
             if (k <? length apiKeys)%nat then k
             else if (currentKeyIndex (svc w) <? length apiKeys)%nat
                  then currentKeyIndex (svc w) else 0%nat
         | None =>
             if (currentKeyIndex (svc w) <? length apiKeys)%nat
             then currentKeyIndex (svc w) else 0%nat
         end).
  assert (Hidx : (currentKeyIdx < length apiKeys)%nat).
  { subst currentKeyIdx. destruct keyIndex as [k|].
    - destruct (Nat.ltb_spec k (length apiKeys)); [assumption|].
      destruct (Nat.ltb_spec (currentKeyIndex (svc w)) (length apiKeys)); lia.
    - destruct (Nat.ltb_spec (currentKeyIndex (svc w)) (length apiKeys)); lia. }
  set (candidates := List.filter _ _).
  assert (Hcand : Forall (fun k => (k < length apiKeys)%nat) candidates).
  { subst candidates. apply List.Forall_forall. intros k Hin.
    apply filter_In in Hin as [Hin _].
    apply in_map_iff in Hin as [i [<- _]].
    now apply Nat.mod_upper_bound. }
  assert (Hlen : (length candidates <= length apiKeys)%nat).
  { subst candidates.
    etransitivity; [apply List.filter_length_le|].
    now rewrite List.length_map, List.length_seq. }
  destruct candidates as [|c cs] eqn:Ec.
  - intros Hrun.
    apply (tryKeys_effects (length apiKeys)) in Hrun;
      [|repeat constructor; exact Hidx].
    destruct Hrun as (evs & Htr & Hall & Hcount & Hret).
    exists evs. split; [exact Htr|]. split; [exact Hall|].
    split; [cbn [length] in Hcount; nia|exact Hret].
  - intros Hrun.
    apply (tryKeys_effects (length apiKeys)) in Hrun; [|exact Hcand].
    destruct Hrun as (evs & Htr & Hall & Hcount & Hret).
    exists evs. split; [exact Htr|]. split; [exact Hall|].
    split; [nia|exact Hret].
Qed.

(** X14. The raw transport asks at most as often as there are
    credentials times attempts for each, every time with a credential
    that exists, an attempt number within the limit and ten more
    seconds to answer for each attempt before; it pauses ten seconds
    at most, and makes no request through the native client. When it
    returns a text, the credential of the last request is the one the
    service is left with. *)
Theorem raw_transport_budget (m : nat) (keyIndex : option nat) (w : World) :
  let run := executeAlternativeRequest m keyIndex w in
  exists evs,
    trace (snd run) = (trace w ++ evs)%list
    /\ Forall (rawEvent (length apiKeys) m timeout) evs
    /\ (count isHttpsCall evs <= length apiKeys * m)%nat
    /\ count isSdkCall evs = 0%nat
    /\ (forall t, fst run = Js.Ok t ->
          (currentKeyIndex (svc (snd run)) < length apiKeys)%nat
          /\ exists pre a to,
               evs = (pre ++ [HttpsCall (currentKeyIndex (svc (snd run))) a to])%list).
Proof.
  cbv zeta.
  destruct (executeAlternativeRequest m keyIndex w) as [r w'] eqn:E.
  apply executeAlternativeRequest_effects in E.
  destruct E as (evs & Htr & Hall & Hcount & Hret).
  exists evs. cbn [fst snd].
  split; [exact Htr|]. split; [exact Hall|]. split; [exact Hcount|].
  split; [|exact Hret].
  now destruct (rawEvent_summary _ _ _ _ Hall).
Qed.

End Raw.

Lemma raw_transport_budget_witness :
  (currentKeyIndex
     (svc (snd (executeAlternativeRequest 60000 sampleKeys (Js.Obj [])
                  (fun _ => EmptyString)
                  (fun _ _ _ => HttpsReply Transport.partialReply)
                  3 None sampleWorld)))
   < length sampleKeys)%nat.
Proof.
  destruct (raw_transport_budget 60000 sampleKeys (Js.Obj [])
              (fun _ => EmptyString)
              (fun _ _ _ => HttpsReply Transport.partialReply)
              3 None sampleWorld) as (evs & _ & _ & _ & _ & H).
  eapply H. reflexivity.
Defined.

Section Native.

Variable maxRetries : nat.
Variable timeout : Z.
Variable enableFallbackMethod : bool.
Variable apiKeys : list string.
Variable geminiRequest : Js.value.
Variable stringify : Js.value -> string.
Variable sdk : nat -> nat -> SdkOutcome.
Variable https : nat -> nat -> nat -> HttpsOutcome.
Variable random : nat -> Q.

Local Abbreviation pass :=
  (pass maxRetries timeout enableFallbackMethod apiKeys geminiRequest
        stringify sdk https random).
Local Abbreviation attempts :=
  (attempts maxRetries timeout enableFallbackMethod apiKeys geminiRequest
            stringify sdk https random).
Local Abbreviation executeRequest :=
  (executeRequest maxRetries timeout enableFallbackMethod apiKeys
                  geminiRequest stringify sdk https random).

Lemma tryNative_effects (attempt : nat) (w w1 : World)
    (r : string + Js.error) :
  tryNative sdk attempt w = (r, w1) ->
  draws w1 = draws w
  /\ exists evs,
       trace w1 = (trace w ++ evs)%list
       /\ Forall nativeEvent evs
       /\ (count isSdkCall evs <= 1)%nat
       /\ (count isPreflight evs <= if (attempt =? 1)%nat then 1 else 0)%nat
       /\ count isSleep evs = 0%nat.
Proof.
  unfold tryNative.
  destruct (getNextModel _) as [currentModel s'].
  assert (Hnone : draws (setSvc s'
                    (if (attempt =? 1)%nat then emit Preflight w else w))
                  = draws w
                  /\ exists evs,
                       trace (setSvc s'
                         (if (attempt =? 1)%nat then emit Preflight w else w))
                       = (trace w ++ evs)%list
                       /\ Forall nativeEvent evs
                       /\ count isSdkCall evs = 0%nat
                       /\ (count isPreflight evs
                           <= if (attempt =? 1)%nat then 1 else 0)%nat
                       /\ count isSleep evs = 0%nat).
  { destruct (attempt =? 1)%nat.
    - split; [reflexivity|]. exists [Preflight].
      repeat split; repeat constructor.
    - split; [reflexivity|]. exists []. cbn. rewrite app_nil_r.
      repeat split; repeat constructor. }
  destruct Hnone as (Hd & evs & Htr & Hall & Hsdk & Hpre & Hsl).
  destruct currentModel as [model|].
  2:{ intros [= _ <-]. split; [exact Hd|]. exists evs.
      repeat split; try assumption. lia. }
  cbv zeta. intros Hrun.
  assert (Hw : w1 = tick (emit (SdkCall (currentKeyIndex s'))
                  (setSvc s'
                     (if (attempt =? 1)%nat then emit Preflight w else w)))).
  { destruct (sdk _ _) as [e| | |[]]; try destruct (String.eqb _ _);
      now injection Hrun as _ <-. }
  subst w1. split; [exact Hd|].
  exists (evs ++ [SdkCall (currentKeyIndex s')])%list.
  cbn [tick emit trace]. rewrite Htr, <- app_assoc.
  split; [reflexivity|].
  split; [apply Forall_app; split; [exact Hall|repeat constructor]|].
  rewrite !count_app. cbn. repeat split; lia.
Qed.

Lemma pass_effects (attempt : nat) (w w' : World) (step : Step) :
  pass attempt w = (step, w') ->
  exists evs,
    trace w' = (trace w ++ evs)%list
    /\ (count isSdkCall evs <= 1)%nat
    /\ (count isPreflight evs <= if (attempt =? 1)%nat then 1 else 0)%nat
    /\ Forall (pauseWithin 10000) evs
    /\ (enableFallbackMethod = false ->
        Forall nativeEvent evs
        /\ (count isSleep evs
            <= if (attempt =? maxRetries)%nat then 0 else 1)%nat).
Proof.
  unfold Orchestrator.pass.
  destruct (tryNative sdk attempt w) as [[text|error] w1] eqn:Et;
    apply tryNative_effects in Et
      as (Hd & evs & Htr & Hall & Hsdk & Hpre & Hsl).
  all: pose proof (no_sleep_pauseWithin 10000 evs Hsl) as Hpause.
  - intros [= <- <-]. exists evs. repeat split; try assumption.
    rewrite Hsl. lia.
  - unfold onFailure, currentKeyIndexInCatch. cbn [switchKeyOnQuota].
    destruct (negb (isRetryable (analyzeError error))).
    { intros [= <- <-]. exists evs. repeat split; try assumption.
      rewrite Hsl. lia. }
    cbn [tryNextKeyOnce].
    destruct (String.eqb _ "NETWORK_ERROR" && enableFallbackMethod
              && (attempt <=? 2)%nat) eqn:Ef.
    + assert (Hon : enableFallbackMethod = true).
      { apply andb_prop in Ef as [Ef _]. now apply andb_prop in Ef as [_ Ef]. }
      unfold tryFallback.
      destruct (executeAlternativeRequest _ _ _ _ _ 3 None w1)
        as [[r|e] w2] eqn:Ea;
        apply executeAlternativeRequest_effects in Ea
          as (evs2 & Htr2 & Hall2 & _ & _);
        destruct (rawEvent_summary _ _ _ _ Hall2) as (Hsdk2 & Hpre2 & Hpause2).
      * intros [= <- <-]. exists (evs ++ evs2)%list.
        split; [now rewrite Htr2, Htr, app_assoc|].
        rewrite !count_app, Hsdk2, Hpre2.
        split; [lia|]. split; [lia|].
        split; [apply Forall_app; auto|congruence].
      * destruct (attempt =? maxRetries)%nat.
        { intros [= <- <-]. exists (evs ++ evs2)%list.
          split; [now rewrite Htr2, Htr, app_assoc|].
          rewrite !count_app, Hsdk2, Hpre2.
          split; [lia|]. split; [lia|].
          split; [apply Forall_app; auto|congruence]. }
        intros [= <- <-].
        eexists ((evs ++ evs2) ++ [Sleep _])%list.
        split; [cbn [emit drawn trace]; now rewrite Htr2, Htr, !app_assoc|].
        rewrite !count_app, Hsdk2, Hpre2.
        split; [cbn; lia|]. split; [cbn; lia|].
        split; [|congruence].
        apply Forall_app; split; [apply Forall_app; auto|].
        constructor; [apply backoffDelay_within|constructor].
    + destruct (attempt =? maxRetries)%nat.
      { intros [= <- <-]. exists evs. repeat split; try assumption.
        rewrite Hsl. lia. }
      intros [= <- <-].
      eexists (evs ++ [Sleep _])%list.
      split; [cbn [emit drawn trace]; now rewrite Htr, !app_assoc|].
      rewrite !count_app.
      split; [cbn; lia|]. split; [cbn; lia|].
      split.
      { apply Forall_app; split; [assumption|].
        constructor; [apply backoffDelay_within|constructor]. }
      intros _. split.
      { apply Forall_app; split; [assumption|repeat constructor]. }
      rewrite Hsl. cbn. lia.
Qed.

Lemma attempts_effects (remaining : nat) :
  forall attempt lastError w r w',
    (1 <= attempt)%nat -> (attempt + remaining = S maxRetries)%nat ->
    attempts remaining attempt lastError w = (r, w') ->
    exists evs,
      trace w' = (trace w ++ evs)%list
      /\ (count isSdkCall evs <= remaining)%nat
      /\ (count isPreflight evs <= if (attempt =? 1)%nat then 1 else 0)%nat
      /\ Forall (pauseWithin 10000) evs
      /\ (enableFallbackMethod = false ->
          Forall nativeEvent evs
          /\ (count isSleep evs <= remaining - 1)%nat).
Proof.
  induction remaining as [|remaining IH];
    intros attempt lastError w r w' H1 Hsum.
  - intros [= <- <-]. exists []. rewrite app_nil_r.
    repeat split; try constructor; cbn; lia.
  - cbn [Orchestrator.attempts].
    destruct (pass attempt w) as [step w1] eqn:Ep.
    apply pass_effects in Ep as (evs & Htr & Hsdk & Hpre & Hpause & Hoff).
    assert (Hstop : exists evs,
              trace w1 = (trace w ++ evs)%list
              /\ (count isSdkCall evs <= S remaining)%nat
              /\ (count isPreflight evs
                  <= if (attempt =? 1)%nat then 1 else 0)%nat
              /\ Forall (pauseWithin 10000) evs
              /\ (enableFallbackMethod = false ->
                  Forall nativeEvent evs
                  /\ (count isSleep evs <= S remaining - 1)%nat)).
    { exists evs. repeat split; try assumption; try lia.
      - now apply Hoff.
      - destruct (Hoff H) as [_ Hs].
        destruct (Nat.eqb_spec attempt maxRetries); lia. }
    destruct step as [text|e|error]; try (intros [= <- <-]; exact Hstop).
    clear Hstop. intros Hrec. apply IH in Hrec; [|lia|lia].
    destruct Hrec as (evs' & Htr' & Hsdk' & Hpre' & Hpause' & Hoff').
    destruct (Nat.eqb_spec (S attempt) 1) as [?|_]; [lia|].
    exists (evs ++ evs')%list.
    split; [now rewrite Htr', Htr, app_assoc|].
    rewrite !count_app.
    split; [lia|]. split; [lia|].
    split; [apply Forall_app; auto|].
    intros Hflag. destruct (Hoff Hflag) as [Hn Hs].
    destruct (Hoff' Hflag) as [Hn' Hs'].
    split; [apply Forall_app; auto|].
    destruct (Nat.eqb_spec attempt maxRetries); lia.
Qed.

Local Abbreviation requestWithFallback :=
  (requestWithFallback maxRetries timeout enableFallbackMethod apiKeys
                       geminiRequest stringify sdk https random).

Lemma executeRequest_effects (w w' : World) (r : string + FinalError) :
  executeRequest w = (r, w') ->
  exists evs,
    trace w' = (trace w ++ evs)%list
    /\ (count isSdkCall evs <= maxRetries)%nat
    /\ (count isPreflight evs <= 1)%nat
    /\ Forall (pauseWithin 10000) evs
    /\ (enableFallbackMethod = false ->
        Forall nativeEvent evs
        /\ (count isSleep evs <= maxRetries - 1)%nat).
Proof.
  unfold Orchestrator.executeRequest. intros E.
  apply attempts_effects in E; [|lia|lia]. exact E.
Qed.

(** Effects of the raw transport, appended to those of a run, leave
    its counts as they are. *)
Lemma with_raw_effects (w w1 w2 : World) (evs evs2 : list Event) (n m : nat) :
  trace w1 = (trace w ++ evs)%list ->
  trace w2 = (trace w1 ++ evs2)%list ->
  Forall (rawEvent n m timeout) evs2 ->
  (count isSdkCall evs <= maxRetries)%nat ->
  (count isPreflight evs <= 1)%nat ->
  Forall (pauseWithin 10000) evs ->
  enableFallbackMethod = true ->
  exists evs',
    trace w2 = (trace w ++ evs')%list
    /\ (count isSdkCall evs' <= maxRetries)%nat
    /\ (count isPreflight evs' <= 1)%nat
    /\ Forall (pauseWithin 10000) evs'
    /\ (enableFallbackMethod = false ->
        Forall nativeEvent evs'
        /\ (count isSleep evs' <= maxRetries - 1)%nat).
Proof.
  intros Htr Htr2 Hraw Hsdk Hpre Hpause Hon.
  destruct (rawEvent_summary _ _ _ _ Hraw) as (Hsdk2 & Hpre2 & Hpause2).
  exists (evs ++ evs2)%list.
  split; [now rewrite Htr2, Htr, app_assoc|].
  rewrite !count_app, Hsdk2, Hpre2.
  split; [lia|]. split; [lia|].
  split; [apply Forall_app; auto|congruence].
Qed.

Lemma requestWithFallback_effects (w w' : World)
    (r : string * bool + Failure) :
  requestWithFallback w = (r, w') ->
  exists evs,
    trace w' = (trace w ++ evs)%list
    /\ (count isSdkCall evs <= maxRetries)%nat
    /\ (count isPreflight evs <= 1)%nat
    /\ Forall (pauseWithin 10000) evs
    /\ (enableFallbackMethod = false ->
        Forall nativeEvent evs
        /\ (count isSleep evs <= maxRetries - 1)%nat).
Proof.
  unfold Orchestrator.requestWithFallback.
  destruct (executeRequest w) as [[response|error] w1] eqn:Ee;
    apply executeRequest_effects in Ee as Hrun.
  - now intros [= _ <-].
  - destruct (includes _ _ && enableFallbackMethod) eqn:Ef;
      [|now intros [= _ <-]].
    apply andb_prop in Ef as [_ Hon].
    destruct Hrun as (evs & Htr & Hsdk & Hpre & Hpause & _).
    destruct (executeAlternativeRequest _ _ _ _ _ 3 None w1)
      as [[response|altError] w2] eqn:E1;
      apply executeAlternativeRequest_effects in E1
        as (evs2 & Htr2 & Hraw2 & _).
    + intros [= _ <-]. eapply with_raw_effects; eassumption.
    + destruct (with_raw_effects _ _ _ _ _ _ _ Htr Htr2 Hraw2 Hsdk Hpre
                  Hpause Hon)
        as (evs' & Htr' & Hsdk' & Hpre' & Hpause' & _).
      cbv zeta. destruct (1 <? _)%nat.
      2:{ intros [= _ <-]. exists evs'. repeat split; try assumption;
          congruence. }
      destruct (executeAlternativeRequest _ _ _ _ _ 3 (Some _) w2)
        as [[response|nextKeyError] w3] eqn:E2;
        apply executeAlternativeRequest_effects in E2
          as (evs3 & Htr3 & Hraw3 & _);
        intros [= _ <-];
        eapply (with_raw_effects w w2); try eassumption.
Qed.

(** X15. [executeRequest], and the request of [processTextWithSkill]
    around it, make at most [maxRetries] requests through the native
    client and one preflight check, and never pause longer than ten
    seconds at once. With the fallback switched off they touch neither
    the raw transport nor the exhausted marks, and pause at most
    [maxRetries - 1] times: never after the last attempt. *)
Theorem native_request_budget (w : World) :
  forall w',
    w' = snd (executeRequest w) \/ w' = snd (requestWithFallback w) ->
    exists evs,
      trace w' = (trace w ++ evs)%list
      /\ (count isSdkCall evs <= maxRetries)%nat
      /\ (count isPreflight evs <= 1)%nat
      /\ Forall (pauseWithin 10000) evs
      /\ (enableFallbackMethod = false ->
          Forall nativeEvent evs
          /\ (count isSleep evs <= maxRetries - 1)%nat).
Proof.
  intros w' [->| ->].
  - destruct (executeRequest w) as [r w'] eqn:E.
    now apply executeRequest_effects in E.
  - destruct (requestWithFallback w) as [r w'] eqn:E.
    now apply requestWithFallback_effects in E.
Qed.

End Native.

Lemma native_request_budget_witness :
  exists evs,
    trace (snd (executeRequest 2 60000 false sampleKeys (Js.Obj [])
                  (fun _ => EmptyString)
                  (fun _ _ => SdkRejects quotaError)
                  (fun _ _ _ => HttpsTimeout) (fun _ => 0) sampleWorld))
    = (trace sampleWorld ++ evs)%list
    /\ Forall nativeEvent evs.
Proof.
  destruct (native_request_budget 2 60000 false sampleKeys (Js.Obj [])
              (fun _ => EmptyString)
              (fun _ _ => SdkRejects quotaError)
              (fun _ _ _ => HttpsTimeout) (fun _ => 0) sampleWorld
              _ (or_introl eq_refl))
    as (evs & Htr & _ & _ & _ & H).
  exists evs. split; [exact Htr|]. apply H. reflexivity.
Defined.

End BudgetFacts.

(* ================================================================== *)
(** * Facts about the request builders *)

Module BuildersFacts.
Import JsString JsStringFacts Js Transport Builders TransformMore.

Lemma filterRes_ok {A : Type} (f : A -> res bool) (l kept : list A) :
  filterRes f l = Ok kept ->
  Forall (fun x => f x = Ok true) kept /\ length kept <= length l.
Proof.
  revert kept. induction l as [|x rest IH]; intros kept.
  - intros [= <-]. split; [constructor|reflexivity].
  - cbn [filterRes].
    destruct (f x) as [keep|] eqn:Ef; [|discriminate]. cbn [bind].
    destruct (filterRes f rest) as [kept'|]; [|discriminate]. cbn [bind].
    destruct (IH kept' eq_refl) as [Hall Hlen].
    intros [= <-]. destruct keep; cbn [length].
    + split; [constructor; assumption|lia].
    + split; [assumption|lia].
Qed.

Lemma filterRes_objects (l : list value) :
  Forall (fun e => exists props, e = Obj props) l ->
  exists kept, filterRes keepEvent l = Ok kept.
Proof.
  induction 1 as [|e rest [props ->] _ [kept IH]]; [now exists []|].
  cbn [filterRes]. unfold keepEvent at 1. cbn [get bind].
  destruct (isStr _ "system"); cbn [bind]; rewrite IH; cbn [bind]; eauto.
Qed.

Lemma keepEvent_kept (e : value) :
  keepEvent e = Ok true ->
  exists props s,
    e = Obj props /\ lookupProp "content" props = Str s
    /\ String.eqb (trim s) "" = false.
Proof.
  unfold keepEvent.
  destruct e as [| | | | | | |props]; try discriminate. cbn [get bind].
  destruct (isStr _ "system"); [discriminate|].
  destruct (lookupProp "content" props) as [| | | | |s| |] eqn:Ec;
    cbn [truthy andb]; try discriminate;
    try (destruct (negb _); discriminate);
    try (destruct b; discriminate).
  intros H. exists props, s. split; [reflexivity|]. split; [exact Ec|].
  injection H as H. apply andb_prop in H as [_ H].
  destruct (trim s); [discriminate|reflexivity].
Qed.

Lemma turnOf_wellFormed (props : list (string * value)) (s : string) :
  String.eqb (trim s) "" = false ->
  exists turn, turnOf (Obj props) (trim s) = Ok turn /\ wellFormedTurn turn.
Proof.
  intros Hs. unfold turnOf. cbn [get bind]. eexists. split; [reflexivity|].
  eexists _, (trim s). split; [reflexivity|].
  split; [destruct (isStr _ "model"); auto|].
  split; [|apply trim_idempotent].
  intros E. rewrite E in Hs. discriminate.
Qed.

Lemma toTurn_kept (e : value) :
  keepEvent e = Ok true ->
  exists turn,
    toTurn e = Ok turn /\ toTurnOrNull e = Ok turn /\ wellFormedTurn turn.
Proof.
  intros H. apply keepEvent_kept in H as (props & s & -> & Hc & Hs).
  destruct (turnOf_wellFormed props s Hs) as (turn & Ht & Hwf).
  exists turn. unfold toTurn, toTurnOrNull, trimContent. cbn [get bind].
  rewrite Hc. cbn [bind]. rewrite Hs. auto.
Qed.

Lemma turns_of_kept (kept : list value) :
  Forall (fun e => keepEvent e = Ok true) kept ->
  exists turns,
    mapRes toTurn kept = Ok turns /\ mapRes toTurnOrNull kept = Ok turns
    /\ Forall wellFormedTurn turns /\ length turns = length kept.
Proof.
  induction 1 as [|e rest He _ (turns & IH1 & IH2 & IH3 & IH4)].
  - exists []. repeat split. constructor.
  - destruct (toTurn_kept e He) as (turn & H1 & H2 & Hwf).
    exists (turn :: turns). cbn [mapRes]. rewrite H1, H2, IH1, IH2.
    cbn [bind length]. repeat split; [constructor; assumption|lia].
Qed.

Lemma wellFormed_notNull (turns : list value) :
  Forall wellFormedTurn turns -> List.filter notNull turns = turns.
Proof.
  induction 1 as [|t rest (r & s & -> & _) _ IH]; [reflexivity|].
  cbn [List.filter notNull]. now rewrite IH.
Qed.

Lemma wellFormed_fixed (turns : list value) :
  Forall wellFormedTurn turns ->
  Forall (fun t => transformContent t = Ok t) turns.
Proof.
  intros H. eapply Forall_impl; [exact H|].
  intros t (r & s & -> & _). reflexivity.
Qed.

Lemma events_ok (conversationHistory : value) (l : list value) :
  events conversationHistory = Ok l -> l = items conversationHistory.
Proof. destruct conversationHistory; cbn; congruence. Qed.

Lemma formatUserMessage_not_blank (text : value) (activeSkill : string) :
  String.eqb (formatUserMessage text activeSkill) ""
  || (String.length (trim (formatUserMessage text activeSkill)) =? 0)%nat
  = false.
Proof.
  unfold formatUserMessage.
  set (rest := toUpperCase activeSkill ++ _).
  change ("Context: " ++ rest) with (String "C" ("ontext: " ++ rest)).
  cbn [String.eqb orb]. unfold trim. cbn [trimStart].
  change (isWhiteSpace "C") with false. cbv iota.
  destruct (trimEnd_spec (String "C" ("ontext: " ++ rest))) as (_ & _ & Hhead).
  specialize (Hhead "C"%char eq_refl eq_refl).
  destruct (trimEnd _); [discriminate|reflexivity].
Qed.

(** The request [buildGeminiRequestWithHistory] returns, laid out. *)
Lemma buildGeminiRequestWithHistory_ok (text : value) (activeSkill : string)
    (conversationHistory skillContext request : value) :
  buildGeminiRequestWithHistory text activeSkill conversationHistory
    skillContext = Ok request ->
  exists turns,
    request
    = Obj ([("contents",
             Arr (turns ++ [userTurn (formatUserMessage text activeSkill)]));
            ("generationConfig", Obj generationDefaults)]
           ++ if truthy (prop "skillPrompt" skillContext)
              then [("systemInstruction",
                     Obj [("parts",
                           Arr [Obj [("text", prop "skillPrompt" skillContext)]])])]
              else [])
    /\ Forall wellFormedTurn turns
    /\ length turns <= length (items conversationHistory).
Proof.
  unfold buildGeminiRequestWithHistory.
  destruct (get skillContext "skillPrompt") as [sp|] eqn:Esp; [|discriminate].
  apply get_prop in Esp. subst sp. cbn [bind].
  destruct (events conversationHistory) as [history|] eqn:Eh; [|discriminate].
  apply events_ok in Eh. subst history. cbn [bind].
  destruct (filterRes keepEvent _) as [kept|] eqn:Ek; [|discriminate].
  apply filterRes_ok in Ek as [Hkept Hlen]. cbn [bind].
  destruct (turns_of_kept kept Hkept) as (turns & Hm & _ & Hwf & Hl).
  rewrite Hm. cbn [bind]. rewrite formatUserMessage_not_blank.
  intros [= <-]. exists turns. split; [reflexivity|].
  split; [assumption|lia].
Qed.

(** The request [buildIntelligentTranscriptionRequestWithHistory]
    returns, laid out. *)
Lemma buildIntelligentTranscriptionRequestWithHistory_ok (text : value)
    (activeSkill : string)
    (conversationHistory skillContext programmingLanguage request : value) :
  buildIntelligentTranscriptionRequestWithHistory text activeSkill
    conversationHistory skillContext programmingLanguage = Ok request ->
  exists s turns instruction,
    text = Str s /\ String.eqb (trim s) "" = false
    /\ request
       = Obj [("contents", Arr (turns ++ [userTurn (trim s)]));
              ("generationConfig", Obj generationDefaults);
              ("systemInstruction",
               Obj [("parts", Arr [Obj [("text", Str instruction)]])])]
    /\ Forall wellFormedTurn turns
    /\ length turns <= 8
    /\ length turns <= length (items conversationHistory).
Proof.
  unfold buildIntelligentTranscriptionRequestWithHistory.
  destruct (getIntelligentTranscriptionPrompt _ _) as [prompt|]; [|discriminate].
  cbn [bind].
  destruct (get skillContext "skillPrompt") as [sp|] eqn:Esp; [|discriminate].
  cbn [bind].
  destruct (events conversationHistory) as [history|] eqn:Eh; [|discriminate].
  apply events_ok in Eh. subst history. cbn [bind].
  destruct (filterRes keepEvent _) as [kept|] eqn:Ek; [|discriminate].
  apply filterRes_ok in Ek as [Hkept Hlen]. cbn [bind].
  assert (Hlast : Forall (fun e => keepEvent e = Ok true) (lastN 8 kept))
    by (apply Forall_drop, Hkept).
  assert (Hl8 : length (lastN 8 kept) <= 8
                /\ length (lastN 8 kept) <= length kept)
    by (unfold lastN; rewrite List.length_skipn; lia).
  destruct (turns_of_kept _ Hlast) as (turns & _ & Hm & Hwf & Hl).
  rewrite Hm. cbn [bind]. rewrite (wellFormed_notNull _ Hwf).
  destruct (String.eqb (cleanText text) "") eqn:Ect; [discriminate|].
  rewrite List.length_app. cbn [length].
  replace (length turns + 1 =? 0)%nat with false
    by (symmetry; apply Nat.eqb_neq; lia).
  intros [= <-].
  unfold cleanText in Ect |- *.
  destruct (truthy text) eqn:Et; [|discriminate].
  destruct text as [| | | | |s| |]; try discriminate.
  exists s, turns. eexists. split; [reflexivity|]. split; [exact Ect|].
  split; [reflexivity|]. split; [assumption|]. lia.
Qed.

(** X16. A request built from a conversation history has, after at most
    one turn for each event of the history, the formatted message as
    its last turn; every turn before it has the role [user] or [model]
    and one text that is not blank and is trimmed; the generation
    parameters are the fixed ones, and the system instruction is the
    skill prompt when there is one. *)
Theorem history_request_shape (text : value) (activeSkill : string)
    (conversationHistory skillContext request : value) :
  buildGeminiRequestWithHistory text activeSkill conversationHistory
    skillContext = Ok request ->
  exists turns,
    prop "contents" request
    = Arr (turns ++ [userTurn (formatUserMessage text activeSkill)])
    /\ Forall wellFormedTurn turns
    /\ length turns <= length (items conversationHistory)
    /\ prop "generationConfig" request = Obj generationDefaults
    /\ prop "systemInstruction" request
       = if truthy (prop "skillPrompt" skillContext)
         then Obj [("parts",
                    Arr [Obj [("text", prop "skillPrompt" skillContext)]])]
         else Undefined.
Proof.
  intros H. apply buildGeminiRequestWithHistory_ok in H.
  destruct H as (turns & -> & Hwf & Hlen).
  exists turns. repeat split; try assumption.
  now destruct (truthy (prop "skillPrompt" skillContext)).
Qed.

Lemma history_request_shape_witness :
  exists turns,
    prop "contents"
      (Obj [("contents",
             Arr [userTurn "What is a heap?";
                  Obj [("role", Str "model");
                       ("parts",
                        Arr [Obj [("text", Str "A tree-shaped priority queue.")]])];
                  userTurn (formatUserMessage (Str "And a trie?") "dsa")]);
            ("generationConfig", Obj generationDefaults);
            ("systemInstruction",
             Obj [("parts", Arr [Obj [("text", Str "You are a DSA tutor.")]])])])
    = Arr (turns ++ [userTurn (formatUserMessage (Str "And a trie?") "dsa")])
    /\ Forall wellFormedTurn turns.
Proof.
  destruct (history_request_shape (Str "And a trie?") "dsa" sampleHistory
              sampleContext _ eq_refl) as (turns & Hc & Hwf & _).
  exists turns. split; [exact Hc|exact Hwf].
Defined.

(** X17. With a history of objects and a skill context that is an
    object, [buildGeminiRequestWithHistory] always returns a request:
    the formatted message begins with its fixed heading, so the check
    for an empty message never fires. *)
Theorem history_request_succeeds (text : value) (activeSkill : string)
    (history : list value) (context : list (string * value)) :
  Forall (fun e => exists props, e = Obj props) history ->
  exists request,
    buildGeminiRequestWithHistory text activeSkill (Arr history) (Obj context)
    = Ok request.
Proof.
  intros Hobj. unfold buildGeminiRequestWithHistory. cbn [get events bind].
  destruct (filterRes_objects history Hobj) as [kept Hk].
  rewrite Hk. cbn [bind].
  apply filterRes_ok in Hk as [Hkept _].
  destruct (turns_of_kept kept Hkept) as (turns & Hm & _).
  rewrite Hm. cbn [bind]. rewrite formatUserMessage_not_blank. eauto.
Qed.

Lemma history_request_succeeds_witness :
  exists request,
    buildGeminiRequestWithHistory (Str "And a trie?") "dsa" sampleHistory
      sampleContext = Ok request.
Proof.
  apply (history_request_succeeds (Str "And a trie?") "dsa").
  repeat (constructor; [eexists; reflexivity|]). constructor.
Defined.

(** X18. A transcription request is only built for a text that is a
    string and not blank; its last turn is that text, trimmed; before it
    come at most eight turns of history, each with the role [user] or
    [model] and one text that is not blank; a system instruction is
    always there. *)
Theorem transcription_request_shape (text : value) (activeSkill : string)
    (conversationHistory skillContext programmingLanguage request : value) :
  buildIntelligentTranscriptionRequestWithHistory text activeSkill
    conversationHistory skillContext programmingLanguage = Ok request ->
  exists s turns instruction,
    text = Str s /\ trim s <> ""
    /\ prop "contents" request = Arr (turns ++ [userTurn (trim s)])
    /\ Forall wellFormedTurn turns
    /\ length turns <= 8
    /\ length turns <= length (items conversationHistory)
    /\ prop "generationConfig" request = Obj generationDefaults
    /\ prop "systemInstruction" request
       = Obj [("parts", Arr [Obj [("text", Str instruction)]])].
Proof.
  intros H. apply buildIntelligentTranscriptionRequestWithHistory_ok in H.
  destruct H as (s & turns & instruction & -> & Hs & -> & Hwf & H8 & Hlen).
  exists s, turns, instruction. repeat split; try assumption.
  intros E. rewrite E in Hs. discriminate.
Qed.

Lemma transcription_request_shape_witness :
  exists request s turns,
    buildIntelligentTranscriptionRequestWithHistory (Str " And a trie? ")
      "dsa" sampleHistory sampleContext Undefined = Ok request
    /\ prop "contents" request = Arr (turns ++ [userTurn (trim s)])
    /\ length turns <= 8.
Proof.
  eexists.
  destruct (transcription_request_shape (Str " And a trie? ") "dsa"
              sampleHistory sampleContext Undefined _ eq_refl)
    as (s & turns & instruction & _ & _ & Hc & _ & H8 & _).
  exists s, turns. split; [reflexivity|]. split; [exact Hc|exact H8].
Defined.

(** X19. A request of either builder goes through the transform for the
    raw transport without an error, and comes out with the same turns
    and the same generation parameters. *)
Theorem built_request_transforms (text : value) (activeSkill : string)
    (conversationHistory skillContext programmingLanguage request : value) :
  buildGeminiRequestWithHistory text activeSkill conversationHistory
    skillContext = Ok request
  \/ buildIntelligentTranscriptionRequestWithHistory text activeSkill
       conversationHistory skillContext programmingLanguage = Ok request ->
  exists payload,
    transformRequestForHttpTransport request = Ok payload
    /\ prop "contents" payload = prop "contents" request
    /\ prop "generation_config" payload = Obj generationDefaults
    /\ (truthy (prop "system_instruction" payload)
        = truthy (prop "systemInstruction" request)).
Proof.
  intros [H|H].
  - apply buildGeminiRequestWithHistory_ok in H.
    destruct H as (turns & -> & Hwf & _).
    assert (Hfix : mapRes transformContent
                     (turns ++ [userTurn (formatUserMessage text activeSkill)])%list
                   = Ok (turns ++ [userTurn (formatUserMessage text activeSkill)])%list).
    { apply mapRes_fixed, Forall_app. split; [now apply wellFormed_fixed|].
      repeat constructor. }
    unfold transformRequestForHttpTransport, copyIf.
    destruct (truthy (prop "skillPrompt" skillContext)) eqn:Esp;
      cbn [get lookupProp app String.eqb Ascii.eqb Bool.eqb bind truthy];
      rewrite Hfix; cbn [bind].
    + unfold normalizeParts, or. cbn [truthy mapRes bind].
      assert (Hpart : exists part,
                normalizePart (Obj [("text", prop "skillPrompt" skillContext)])
                = Ok part).
      { unfold normalizePart. cbn.
        destruct (prop "skillPrompt" skillContext); eauto. }
      destruct Hpart as [part ->]. cbn [bind].
      eexists. split; [reflexivity|]. repeat split.
    + eexists. split; [reflexivity|]. repeat split.
  - apply buildIntelligentTranscriptionRequestWithHistory_ok in H.
    destruct H as (s & turns & instruction & -> & Hs & -> & Hwf & _).
    assert (Hfix : mapRes transformContent (turns ++ [userTurn (trim s)])%list
                   = Ok (turns ++ [userTurn (trim s)])%list).
    { apply mapRes_fixed, Forall_app. split; [now apply wellFormed_fixed|].
      repeat constructor. }
    unfold transformRequestForHttpTransport, copyIf.
    cbn [get lookupProp app String.eqb Ascii.eqb Bool.eqb bind truthy].
    rewrite Hfix. cbn [bind].
    eexists. split; [reflexivity|]. repeat split.
Qed.

Lemma built_request_transforms_witness :
  exists request payload,
    buildGeminiRequestWithHistory (Str "And a trie?") "dsa" sampleHistory
      sampleContext = Ok request
    /\ transformRequestForHttpTransport request = Ok payload
    /\ prop "contents" payload = prop "contents" request.
Proof.
  eexists.
  destruct (built_request_transforms (Str "And a trie?") "dsa" sampleHistory
              sampleContext Undefined _ (or_introl eq_refl))
    as (payload & Ht & Hc & _).
  exists payload. split; [reflexivity|]. split; [exact Ht|exact Hc].
Defined.

End BuildersFacts.

(* ================================================================== *)
(** * More facts about [extractMcqAnswer] *)

Module McqMore.
Import JsString JsStringFacts Regex Mcq Marks TransportMore.

(** ** The matcher only moves forward *)

(** Whatever a matcher hands to its continuation is at or after the
    place it started from. *)
Lemma run_cont (fl : Flags) (r : Re) :
  forall st k out,
    run fl r st k = Some out ->
    exists st', (exists pre, rest st = pre ++ rest st') /\ k st' = Some out.
Proof.
  induction r as [|negated items| |a IHa b IHb|a IHa b IHb
                  |min max greedy r IH|n r IH| | | |r IH];
    intros st k out; cbn [run].
  - intros H. exists st. split; [now exists ""|exact H].
  - destruct (rest st) as [|c rest'] eqn:E; [discriminate|].
    destruct (classMatches fl negated items c); [|discriminate].
    intros H. exists (step st c rest'). split; [|exact H].
    now exists (String c "").
  - destruct (rest st) as [|c rest'] eqn:E; [discriminate|].
    destruct (isLineTerminator c); [discriminate|].
    intros H. exists (step st c rest'). split; [|exact H].
    now exists (String c "").
  - intros H. apply IHa in H as (st1 & [pre1 H1] & H).
    apply IHb in H as (st2 & [pre2 H2] & H).
    exists st2. split; [|exact H].
    exists (pre1 ++ pre2). rewrite H1, H2.
    clear. induction pre1 as [|c p IHp]; [reflexivity|].
    rewrite !append_cons. now rewrite IHp.
  - destruct (run fl a st k) as [st'|] eqn:Ea.
    + intros [= <-]. now apply IHa in Ea.
    + apply IHb.
  - generalize (min + String.length (rest st) + 2)%nat as fuel.
    intros fuel. revert min max st.
    induction fuel as [|fuel IHf]; intros min max st; [discriminate|].
    assert (Hiter :
      run fl r st
        (fun st' =>
           if (min =? 0)%nat && (pos st' =? pos st)%nat then None
           else (fix loop (fuel min : nat) (max : option nat) (st : State)
                   {struct fuel} : option State :=
                   match fuel with
                   | O => None
                   | S fuel' =>
                       match max with
                       | Some O => k st
                       | _ =>
                           let iterate :=
                             run fl r st
                               (fun st' =>
                                  if (min =? 0)%nat && (pos st' =? pos st)%nat
                                  then None
                                  else loop fuel' (Nat.pred min)
                                         (option_map Nat.pred max) st') in
                           if (0 <? min)%nat then iterate
                           else if greedy then
                             match iterate with
                             | Some st' => Some st'
                             | None => k st
                             end
                           else
                             match k st with
                             | Some st' => Some st'
                             | None => iterate
                             end
                       end
                   end) fuel (Nat.pred min) (option_map Nat.pred max) st')
      = Some out ->
      exists st', (exists pre, rest st = pre ++ rest st') /\ k st' = Some out).
    { intros H. apply IH in H as (st1 & [pre1 H1] & H).
      destruct (_ && _); [discriminate|].
      apply IHf in H as (st2 & [pre2 H2] & H).
      exists st2. split; [|exact H].
      exists (pre1 ++ pre2). rewrite H1, H2.
      clear. induction pre1 as [|c p IHp]; [reflexivity|].
      rewrite !append_cons. now rewrite IHp. }
    assert (Hstay : k st = Some out ->
      exists st', (exists pre, rest st = pre ++ rest st') /\ k st' = Some out).
    { intros H. exists st. split; [now exists ""|exact H]. }
    destruct max as [[|max]|]; [exact Hstay| |].
    + cbv zeta. destruct (0 <? min)%nat; [exact Hiter|].
      destruct greedy.
      * destruct (run fl r st _) as [st'|] eqn:Ei.
        -- intros [= <-]. now apply Hiter.
        -- exact Hstay.
      * destruct (k st) as [st'|] eqn:Ek.
        -- intros [= <-]. now apply Hstay.
        -- exact Hiter.
    + cbv zeta. destruct (0 <? min)%nat; [exact Hiter|].
      destruct greedy.
      * destruct (run fl r st _) as [st'|] eqn:Ei.
        -- intros [= <-]. now apply Hiter.
        -- exact Hstay.
      * destruct (k st) as [st'|] eqn:Ek.
        -- intros [= <-]. now apply Hstay.
        -- exact Hiter.
  - intros H. apply IH in H as (st1 & Hpre & H).
    exists (capture n st st1). split; [exact Hpre|exact H].
  - intros H. exists st. split; [now exists ""|].
    destruct (prev st); [|exact H].
    destruct (_ && _); [exact H|discriminate].
  - intros H. exists st. split; [now exists ""|].
    destruct (rest st); [exact H|].
    destruct (_ && _); [exact H|discriminate].
  - intros H. exists st. split; [now exists ""|].
    destruct (xorb _ _); [exact H|discriminate].
  - destruct (run fl r st Some) as [st'|]; [|discriminate].
    intros H. eexists. split; [|exact H]. now exists "".
Qed.

Lemma run_seq (fl : Flags) (a b : Re) (st : State)
    (k : State -> option State) :
  run fl (Seq a b) st k = run fl a st (fun st' => run fl b st' k).
Proof. reflexivity. Qed.

(** A match is found from some place of the input on. *)
Lemma search_found (re : RegExp) (s : string) :
  forall prev i m,
    search re prev s i = Some m ->
    exists pre s' prev' i' out,
      s = pre ++ s'
      /\ run (flags re) (source re)
           {| prev := prev'; rest := s'; pos := i'; captures := [] |} Some
         = Some out.
Proof.
  induction s as [|c s IH]; intros prev i m; cbn [search].
  - destruct (run _ _ _ _) as [out|] eqn:E; [|discriminate].
    intros _. now exists "", "", prev, i, out.
  - destruct (run _ _ _ _) as [out|] eqn:E.
    + intros _. now exists "", (String c s), prev, i, out.
    + intros H. apply IH in H as (pre & s' & prev' & i' & out & -> & H).
      now exists (String c pre), s', prev', i', out.
Qed.

(** ** Option marks *)

Lemma letterAE_isOptionLetter (fl : Flags) (c : ascii) :
  classMatches fl false [Range "a" "e"; Range "A" "E"] c = true ->
  isOptionLetter c = true.
Proof.
  destruct fl as [gl [|] ml];
    destruct c as [[|] [|] [|] [|] [|] [|] [|] [|]];
    vm_compute; congruence.
Qed.

Lemma parenOrDot_isParenOrDot (fl : Flags) (c : ascii) :
  classMatches fl false [Ch ")"; Ch "."] c = true -> isParenOrDot c = true.
Proof.
  destruct fl as [gl [|] ml];
    destruct c as [[|] [|] [|] [|] [|] [|] [|] [|]];
    vm_compute; congruence.
Qed.

Lemma hasOptionMark_app (pre s : string) :
  hasOptionMark s = true -> hasOptionMark (pre ++ s) = true.
Proof.
  intros H. induction pre as [|c pre IH]; [exact H|].
  rewrite append_cons. cbn [hasOptionMark]. rewrite IH. apply orb_true_r.
Qed.

(** A letter and a mark matched one after the other are an option mark
    of the input. *)
Lemma run_mark (fl : Flags) (tail : Re) (st : State)
    (k : State -> option State) (out : State) :
  run fl (Seq letterAE (Seq parenOrDot tail)) st k = Some out
  \/ run fl (Seq letterAE parenOrDot) st k = Some out ->
  hasOptionMark (rest st) = true.
Proof.
  assert (Hboth : forall k',
    run fl letterAE st (fun st1 => run fl parenOrDot st1 k') = Some out ->
    hasOptionMark (rest st) = true).
  { intros k'. cbn [run letterAE parenOrDot oneOf].
    destruct (rest st) as [|c [|d s]] eqn:E; try discriminate.
    - destruct (classMatches _ _ _ c); discriminate.
    - destruct (classMatches fl false _ c) eqn:Ec; [|discriminate].
      cbn [step Regex.rest].
      destruct (classMatches fl false _ d) eqn:Ed; [|discriminate].
      intros _. cbn [hasOptionMark].
      now rewrite (letterAE_isOptionLetter _ _ Ec),
                  (parenOrDot_isParenOrDot _ _ Ed). }
  intros [H|H]; [|exact (Hboth _ H)].
  cbn [run] in H. exact (Hboth _ H).
Qed.

Lemma test_search (re : RegExp) (s : string) :
  test re s = true ->
  exists pre s' prev' i' out,
    s = pre ++ s'
    /\ run (flags re) (source re)
         {| prev := prev'; rest := s'; pos := i'; captures := [] |} Some
       = Some out.
Proof.
  unfold test, exec. destruct (search re None s 0) as [m|] eqn:E;
    [|discriminate].
  intros _. eapply search_found. exact E.
Qed.

Lemma cont_mark (st st' : State) :
  (exists pre, rest st = pre ++ rest st') ->
  hasOptionMark (rest st') = true -> hasOptionMark (rest st) = true.
Proof. intros [pre ->]. apply hasOptionMark_app. Qed.

(** Each of the four patterns that classify a prompt needs an option
    mark. *)
Lemma mcqPattern_mark (pattern : RegExp) (text : string) :
  In pattern mcqPatterns -> test pattern text = true ->
  hasOptionMark text = true.
Proof.
  intros Hin Ht. apply test_search in Ht
    as (pre & s' & prev' & i' & out & -> & Hrun).
  apply hasOptionMark_app.
  change s' with (rest {| prev := prev'; rest := s'; pos := i';
                          captures := [] |}).
  revert Hrun.
  generalize {| prev := prev'; rest := s'; pos := i'; captures := [] |}.
  intros st Hrun.
  cbn [mcqPatterns In] in Hin.
  destruct Hin as [<-|[<-|[<-|[<-|[]]]]];
    cbn [source flags seq] in Hrun.
  - cbn [run] in Hrun.
    apply run_cont in Hrun as (st1 & Hp1 & Hrun).
    apply run_cont in Hrun as (st2 & Hp2 & Hrun).
    apply run_cont in Hrun as (st3 & Hp3 & Hrun).
    apply run_cont in Hrun as (st4 & Hp4 & Hrun).
    apply (cont_mark _ _ Hp1), (cont_mark _ _ Hp2), (cont_mark _ _ Hp3),
          (cont_mark _ _ Hp4).
    eapply (run_mark _ Empty). right.
    cbn [run]. exact Hrun.
  - cbn [run] in Hrun.
    apply run_cont in Hrun as (st1 & Hp1 & Hrun).
    apply run_cont in Hrun as (st2 & Hp2 & Hrun).
    apply (cont_mark _ _ Hp1), (cont_mark _ _ Hp2).
    eapply (run_mark _ Empty). right. cbn [run]. exact Hrun.
  - eapply run_mark. left. exact Hrun.
  - rewrite run_seq in Hrun.
    apply run_cont in Hrun as (st1 & Hp1 & Hrun).
    rewrite run_seq in Hrun.
    apply run_cont in Hrun as (st2 & Hp2 & Hrun).
    apply (cont_mark _ _ Hp1), (cont_mark _ _ Hp2).
    eapply run_mark. left. exact Hrun.
Qed.

(** X20. An answer is only rewritten for a prompt that has an option
    mark: a letter a-e or A-E followed at once by a closing parenthesis
    or a full stop. For any other prompt the answer comes back as it
    is, whatever the answer and the skill. *)
Theorem no_option_mark_unchanged (response : Js.value) (text : string)
    (activeSkill : Js.value) :
  hasOptionMark text = false ->
  extractMcqAnswer response (Js.Str text) activeSkill = Js.Ok response.
Proof.
  intros Hmark. unfold extractMcqAnswer.
  destruct (_ || _); [reflexivity|]. cbv zeta.
  cbn [Js.toString preview].
  destruct (_ || _); [reflexivity|].
  assert (Hnone : mcqMatches text = []).
  { unfold mcqMatches.
    assert (Hall : forall l, (forall p, In p l -> In p mcqPatterns) ->
              List.filter (fun pattern => test pattern text) l = []).
    { induction l as [|p l IHl]; intros Hl; [reflexivity|].
      cbn [List.filter]. destruct (test p text) eqn:Et.
      - apply mcqPattern_mark in Et; [congruence|]. apply Hl. now left.
      - apply IHl. intros q Hq. apply Hl. now right. }
    apply Hall. auto. }
  rewrite Hnone. reflexivity.
Qed.

Lemma no_option_mark_unchanged_witness :
  extractMcqAnswer (Js.Str "Answer: B") (Js.Str "Which sort is stable?")
    (Js.Str "dsa")
  = Js.Ok (Js.Str "Answer: B").
Proof.
  apply (no_option_mark_unchanged (Js.Str "Answer: B")
           "Which sort is stable?" (Js.Str "dsa")).
  reflexivity.
Defined.

(** ** The letter of the answer *)

Lemma upperChar_answer (c : ascii) :
  isOptionLetter c = true -> In (upperChar c) answerLetters.
Proof.
  destruct c as [[|] [|] [|] [|] [|] [|] [|] [|]];
    vm_compute; intros H; try discriminate; tauto.
Qed.

Lemma search_anyLetter (s : string) :
  forall prev from m,
    search anyLetter prev s from = Some m ->
    exists c, group 1 (groups m) = Some (String c EmptyString)
              /\ isOptionLetter c = true.
Proof.
  induction s as [|c s IH]; intros prev from m; cbn [search]; [discriminate|].
  cbn [run anyLetter source flags letterAE oneOf Regex.rest].
  destruct (classMatches _ false _ c) eqn:Ec.
  - intros [= <-]. exists c. split; [|exact (letterAE_isOptionLetter _ _ Ec)].
    cbn [groups captures capture step pos Regex.rest group Nat.eqb].
    replace (S from - from) with 1 by lia. reflexivity.
  - apply IH.
Qed.

Lemma letterOf_answer (s : string) (c : ascii) :
  letterOf s = Some c -> In c answerLetters.
Proof.
  unfold letterOf, exec.
  destruct (search anyLetter None s 0) as [m|] eqn:E; [|discriminate].
  apply search_anyLetter in E as (ch & -> & Hch).
  intros [= <-]. now apply upperChar_answer.
Qed.

Lemma firstLetter_answer (matches : list string) (c : ascii) :
  firstLetter matches = Some c -> In c answerLetters.
Proof.
  induction matches as [|m rest IH]; [discriminate|]. cbn [firstLetter].
  destruct (letterOf m) as [c'|] eqn:E; [|exact IH].
  intros [= <-]. now apply (letterOf_answer m).
Qed.

Lemma extractLetter_answer (patterns : list RegExp) (s : string) (c : ascii) :
  extractLetter patterns s = Some c -> In c answerLetters.
Proof.
  induction patterns as [|p rest IH]; [discriminate|]. cbn [extractLetter].
  destruct (matchGlobal p s) as [matches|]; [|exact IH].
  destruct (firstLetter matches) as [c'|] eqn:E; [|exact IH].
  intros [= <-]. now apply (firstLetter_answer matches).
Qed.

Lemma rewriteAnswer_shape (answer text : string) :
  rewriteAnswer answer text = answer
  \/ exists letter body,
       In letter answerLetters
       /\ rewriteAnswer answer text = heading letter ++ body.
Proof.
  unfold rewriteAnswer.
  destruct (extractLetter answerPatterns _) as [letter|] eqn:E; [|now left].
  right. exists letter. apply extractLetter_answer in E. cbv zeta.
  assert (Hshow : forall t, exists body, showOption letter t = heading letter ++ body).
  { intros t. unfold showOption. destruct (test codeSyntax t).
    - eexists. reflexivity.
    - eexists. reflexivity. }
  destruct (bestMatch _) as [[|c t]|].
  - destruct (lastResort _ _) as [extracted|]; [|eauto].
    destruct (Hshow extracted) as [body ->]. eauto.
  - destruct (Hshow (String c t)) as [body ->].
    eexists. split; [exact E|]. apply string_app_assoc.
  - destruct (lastResort _ _) as [extracted|]; [|eauto].
    destruct (Hshow extracted) as [body ->]. eauto.
Qed.

Lemma preview_ok (originalText : Js.value) (k : Js.res Js.value)
    (out : Js.value) :
  preview originalText k = Js.Ok out -> k = Js.Ok out.
Proof. now destruct originalText. Qed.

(** X21. What [extractMcqAnswer] returns is the answer as it was, or
    the answer under a heading [## Answer: X] followed by an empty
    line, where X is one of the capital letters A to E. *)
Theorem answer_heading_shape (response originalText activeSkill out : Js.value) :
  extractMcqAnswer response originalText activeSkill = Js.Ok out ->
  out = response
  \/ exists letter body,
       In letter answerLetters
       /\ out = Js.Str ("## Answer: " ++ String letter EmptyString
                          ++ nl ++ nl ++ body).
Proof.
  unfold extractMcqAnswer.
  destruct (_ || _); [intros [= <-]; now left|].
  cbv zeta.
  destruct (_ || _);
    [intros H; apply preview_ok in H; injection H as <-; now left|].
  destruct (_ <? _)%nat;
    [intros H; apply preview_ok in H; injection H as <-; now left|].
  destruct response as [| | | | |answer| |]; try discriminate.
  destruct (extractLetter answerPatterns (cleanForLetter answer));
    [|intros [= <-]; now left].
  intros H. apply preview_ok in H. injection H as <-.
  destruct (rewriteAnswer_shape answer (Js.toString originalText))
    as [->|(letter & body & Hin & ->)]; [now left|right].
  exists letter, body. split; [exact Hin|].
  unfold heading. now rewrite !string_app_assoc.
Qed.

Lemma answer_heading_shape_witness :
  exists letter body,
    In letter answerLetters
    /\ Js.Str ("## Answer: B" ++ nl ++ nl ++ "**MergeSort**" ++ nl ++ nl)
       = Js.Str ("## Answer: " ++ String letter EmptyString
                   ++ nl ++ nl ++ body).
Proof.
  assert (H : extractMcqAnswer (Js.Str "B") (Js.Str stableSortLines) Js.Null
              = Js.Ok (Js.Str ("## Answer: B" ++ nl ++ nl ++ "**MergeSort**"
                                 ++ nl ++ nl)))
    by (vm_compute; reflexivity).
  destruct (answer_heading_shape _ _ _ _ H) as [Hsame|Hheading];
    [discriminate Hsame|exact Hheading].
Defined.

(** A prompt that is not a string is tested as the string it prints
    as: an array holding two option lines is classified, and an answer
    without a letter a-e comes back as it is. *)
Remark array_prompt_no_letter :
  extractMcqAnswer (Js.Str "???")
    (Js.Arr [Js.Str ("A) Foo" ++ nl ++ "B) Bar")]) Js.Null
  = Js.Ok (Js.Str "???")
  /\ length (mcqMatches ("A) Foo" ++ nl ++ "B) Bar")) = 2.
Proof. split; vm_compute; reflexivity. Qed.

End McqMore.


(* ================================================================== *)
(** * The current key stays a key of the pool *)

Module ServiceInvariant.
Import JsString Classifier Pool PoolFacts PoolInvariants Orchestrator
       BudgetFacts.

Section Invariant.

Variable maxRetries : nat.
Variable timeout : Z.
Variable enableFallbackMethod : bool.
Variable apiKeys : list string.
Variable geminiRequest : Js.value.
Variable stringify : Js.value -> string.
Variable sdk : nat -> nat -> SdkOutcome.
Variable https : nat -> nat -> nat -> HttpsOutcome.
Variable random : nat -> Q.

(** The models of the service, one for each key. *)
Variable pool : list Model.
Hypothesis one_model_per_key : length pool = length apiKeys.

Local Abbreviation sound w :=
  (models (svc w) = pool /\ currentKeyIndex (svc w) < length pool).

Lemma mark_sound (k : nat) (w : World) : sound w -> sound (mark k w).
Proof.
  intros [Hm Hi]. cbn. rewrite Hm. split; [reflexivity|].
  apply Nat.mod_upper_bound. lia.
Qed.

Lemma keyAttempts_sound (m remaining : nat) :
  forall attempt k isLast lastError w step lastError' w',
    k < length pool -> sound w ->
    keyAttempts timeout stringify https m remaining attempt k isLast
      lastError w = (step, lastError', w') ->
    sound w'.
Proof.
  induction remaining as [|remaining IH];
    intros attempt k isLast lastError w step lastError' w' Hk Hw.
  - now intros [= _ _ <-].
  - cbn [keyAttempts].
    destruct (makeAlternativeRequest _ _ _ attempt k w) as [[result|error] w1]
      eqn:Em;
      apply makeAlternativeRequest_trace in Em as [_ Hs];
      assert (Hw1 : sound w1) by (now rewrite Hs).
    + intros [= _ _ <-]. cbn. destruct Hw1 as [Hm _]. now rewrite Hm.
    + cbv zeta.
      destruct (_ || _ || _ || _ || _);
        [intros [= _ _ <-]; now apply mark_sound|].
      destruct (_ || _); [destruct isLast; now intros [= _ _ <-]|].
      apply IH; assumption.
Qed.

Lemma tryKeys_sound (m : nat) (keys : list nat) :
  forall lastError w r w',
    Forall (fun k => k < length pool) keys -> sound w ->
    tryKeys timeout geminiRequest stringify https m keys lastError w
    = (r, w') ->
    sound w'.
Proof.
  induction keys as [|k rest IH]; intros lastError w r w' Hkeys Hw.
  - now intros [= _ <-].
  - inversion Hkeys as [|? ? Hk Hrest]; subst. cbn [tryKeys].
    destruct (Transport.transformRequestForHttpTransport geminiRequest);
      [|now intros [= _ <-]].
    destruct (keyAttempts _ _ _ m m 1 k _ lastError w) as [[step le] w1] eqn:Ek.
    apply keyAttempts_sound in Ek; [|assumption|assumption].
    destruct step; try (now intros [= _ <-]).
    now apply IH.
Qed.

Lemma executeAlternativeRequest_sound (m : nat) (keyIndex : option nat)
    (w w' : World) (r : Js.res string) :
  sound w ->
  executeAlternativeRequest timeout apiKeys geminiRequest stringify https
    m keyIndex w = (r, w') ->
  sound w'.
Proof.
  intros Hw. unfold executeAlternativeRequest. cbv zeta.
  destruct (length apiKeys =? 0)%nat eqn:En; [now intros [= _ <-]|].
  apply Nat.eqb_neq in En.
  set (currentKeyIdx := match keyIndex with Some _ => _ | None => _ end).
  assert (Hidx : currentKeyIdx < length pool).
  { rewrite one_model_per_key. subst currentKeyIdx.
    destruct keyIndex as [k|].
    - destruct (Nat.ltb_spec k (length apiKeys)); [assumption|].
      destruct (Nat.ltb_spec (currentKeyIndex (svc w)) (length apiKeys)); lia.
    - destruct (Nat.ltb_spec (currentKeyIndex (svc w)) (length apiKeys)); lia. }
  set (candidates := List.filter _ _).
  assert (Hcand : Forall (fun k => k < length pool) candidates).
  { subst candidates. apply List.Forall_forall. intros k Hin.
    apply filter_In in Hin as [Hin _].
    apply in_map_iff in Hin as [i [<- _]].
    rewrite one_model_per_key. now apply Nat.mod_upper_bound. }
  destruct candidates as [|c cs].
  - apply tryKeys_sound; [repeat constructor; exact Hidx|exact Hw].
  - apply tryKeys_sound; [exact Hcand|exact Hw].
Qed.

Lemma tryNative_sound (attempt : nat) (w w1 : World)
    (r : string + Js.error) :
  sound w -> tryNative sdk attempt w = (r, w1) -> sound w1.
Proof.
  intros [Hm Hi]. unfold tryNative.
  assert (Hsvc : svc (if (attempt =? 1)%nat then emit Preflight w else w)
                 = svc w) by (now destruct (attempt =? 1)%nat).
  rewrite Hsvc.
  pose proof (getNextModel_models (svc w)) as Hm'.
  pose proof (getNextModel_index (svc w)) as Hi'.
  rewrite Hm in Hm', Hi'. specialize (Hi' Hi).
  destruct (getNextModel (svc w)) as [currentModel s']. cbn [snd] in Hm', Hi'.
  destruct currentModel as [model|]; [|now intros [= _ <-]].
  cbv zeta.
  destruct (sdk _ _) as [e| | |[]]; try destruct (String.eqb _ _);
    now intros [= _ <-].
Qed.

Lemma pass_sound (attempt : nat) (w w' : World) (step : Step) :
  sound w ->
  pass maxRetries timeout enableFallbackMethod apiKeys geminiRequest
    stringify sdk https random attempt w = (step, w') ->
  sound w'.
Proof.
  intros Hw. unfold pass.
  destruct (tryNative sdk attempt w) as [[text|error] w1] eqn:Et;
    apply (tryNative_sound _ _ _ _ Hw) in Et; [now intros [= _ <-]|].
  unfold onFailure, currentKeyIndexInCatch. cbn [switchKeyOnQuota].
  destruct (negb (isRetryable (analyzeError error))); [now intros [= _ <-]|].
  cbn [tryNextKeyOnce].
  destruct (_ && _ && _).
  - unfold tryFallback.
    destruct (executeAlternativeRequest _ _ _ _ _ 3 None w1)
      as [[r|e] w2] eqn:Ea;
      apply (executeAlternativeRequest_sound _ _ _ _ _ Et) in Ea.
    + now intros [= _ <-].
    + destruct (attempt =? maxRetries)%nat; now intros [= _ <-].
  - destruct (attempt =? maxRetries)%nat; now intros [= _ <-].
Qed.

Lemma attempts_sound (remaining : nat) :
  forall attempt lastError w r w',
    sound w ->
    attempts maxRetries timeout enableFallbackMethod apiKeys geminiRequest
      stringify sdk https random remaining attempt lastError w = (r, w') ->
    sound w'.
Proof.
  induction remaining as [|remaining IH]; intros attempt lastError w r w' Hw.
  - now intros [= _ <-].
  - cbn [attempts].
    destruct (pass _ _ _ _ _ _ _ _ _ attempt w) as [step w1] eqn:Ep.
    apply (pass_sound _ _ _ _ Hw) in Ep.
    destruct step; try (now intros [= _ <-]).
    now apply IH.
Qed.

Lemma requestWithFallback_sound (w w' : World)
    (r : string * bool + Failure) :
  sound w ->
  requestWithFallback maxRetries timeout enableFallbackMethod apiKeys
    geminiRequest stringify sdk https random w = (r, w') ->
  sound w'.
Proof.
  intros Hw. unfold requestWithFallback, executeRequest.
  destruct (attempts _ _ _ _ _ _ _ _ _ maxRetries 1 None w)
    as [[response|error] w1] eqn:Ee;
    apply (attempts_sound _ _ _ _ _ _ Hw) in Ee; [now intros [= _ <-]|].
  destruct (_ && _); [|now intros [= _ <-]].
  destruct (executeAlternativeRequest _ _ _ _ _ 3 None w1)
    as [[response|altError] w2] eqn:E1;
    apply (executeAlternativeRequest_sound _ _ _ _ _ Ee) in E1;
    [now intros [= _ <-]|].
  cbv zeta. destruct (1 <? _)%nat; [|now intros [= _ <-]].
  destruct (executeAlternativeRequest _ _ _ _ _ 3 (Some _) w2)
    as [[response|nextKeyError] w3] eqn:E2;
    apply (executeAlternativeRequest_sound _ _ _ _ _ E1) in E2;
    [|now intros [= _ <-]].
  intros [= _ <-]. cbn. destruct E2 as [Hm3 _]. destruct E1 as [Hm2 Hi2].
  rewrite Hm3. split; [reflexivity|].
  rewrite Hm2. apply Nat.mod_upper_bound. lia.
Qed.

End Invariant.

(** X22. With one model for each key and the current index a valid one,
    a request leaves it so: after [executeRequest], after the request of
    [processTextWithSkill] with its fallback, and after
    [executeAlternativeRequest], the models are the same and
    [currentKeyIndex] is still the index of a key, whatever the network
    answers. *)
Theorem current_key_stays_valid (maxRetries : nat) (timeout : Z)
    (enableFallbackMethod : bool) (apiKeys : list string)
    (geminiRequest : Js.value) (stringify : Js.value -> string)
    (sdk : nat -> nat -> SdkOutcome) (https : nat -> nat -> nat -> HttpsOutcome)
    (random : nat -> Q) (w : World) :
  length (models (svc w)) = length apiKeys ->
  currentKeyIndex (svc w) < length apiKeys ->
  forall w',
    w' = snd (executeRequest maxRetries timeout enableFallbackMethod apiKeys
                geminiRequest stringify sdk https random w)
    \/ w' = snd (requestWithFallback maxRetries timeout enableFallbackMethod
                   apiKeys geminiRequest stringify sdk https random w)
    \/ (exists m keyIndex,
          w' = snd (executeAlternativeRequest timeout apiKeys geminiRequest
                      stringify https m keyIndex w)) ->
    models (svc w') = models (svc w)
    /\ currentKeyIndex (svc w') < length apiKeys.
Proof.
  intros Hlen Hidx w' Hw'.
  assert (Hw : models (svc w) = models (svc w)
               /\ currentKeyIndex (svc w) < length (models (svc w)))
    by (split; [reflexivity|lia]).
  rewrite <- Hlen.
  destruct Hw' as [->|[->|(m & keyIndex & ->)]].
  - unfold executeRequest.
    destruct (attempts _ _ _ _ _ _ _ _ _ maxRetries 1 None w) as [r w'] eqn:E.
    exact (attempts_sound maxRetries timeout enableFallbackMethod apiKeys
             geminiRequest stringify sdk https random _ Hlen _ _ _ _ _ _ Hw E).
  - destruct (requestWithFallback _ _ _ _ _ _ _ _ _ w) as [r w'] eqn:E.
    exact (requestWithFallback_sound maxRetries timeout enableFallbackMethod
             apiKeys geminiRequest stringify sdk https random _ Hlen _ _ _ Hw E).
  - destruct (executeAlternativeRequest _ _ _ _ _ m keyIndex w) as [r w'] eqn:E.
    exact (executeAlternativeRequest_sound timeout apiKeys geminiRequest
             stringify https _ Hlen _ _ _ _ _ Hw E).
Qed.

Lemma current_key_stays_valid_witness :
  currentKeyIndex
    (svc (snd (executeRequest 2 60000 true sampleKeys (Js.Obj [])
                 (fun _ => EmptyString)
                 (fun _ _ => SdkRejects quotaError)
                 (fun _ _ _ => HttpsTimeout) (fun _ => 0%Q) sampleWorld)))
  < length sampleKeys.
Proof.
  apply (current_key_stays_valid 2 60000 true sampleKeys (Js.Obj [])
           (fun _ => EmptyString)
           (fun _ _ => SdkRejects quotaError)
           (fun _ _ _ => HttpsTimeout) (fun _ => 0%Q) sampleWorld).
  - reflexivity.
  - simpl. lia.
  - left. reflexivity.
Defined.

End ServiceInvariant.

(* ================================================================== *)
(** * The raw transport under rate limiting *)

Module RateLimit.
Import JsString Pool Orchestrator Effects BudgetFacts.

Lemma shift_injective (n c x y : nat) :
  x < n -> y < n -> (c + x) mod n = (c + y) mod n -> x = y.
Proof.
  intros Hx Hy Heq.
  pose proof (Nat.div_mod_eq (c + x) n) as Ex.
  pose proof (Nat.div_mod_eq (c + y) n) as Ey.
  rewrite Heq in Ex.
  destruct (Nat.lt_trichotomy ((c + x) / n) ((c + y) / n)) as [H|[H|H]]; nia.
Qed.

Lemma candidates_NoDup (n c : nat) (keep : nat -> bool) :
  List.NoDup (List.filter keep (map (fun i => (c + i) mod n) (seq 0 n))).
Proof.
  apply List.NoDup_filter.
  apply List.NoDup_map_NoDup_ForallPairs; [|apply List.seq_NoDup].
  intros x y Hx Hy. apply List.in_seq in Hx, Hy.
  apply shift_injective; lia.
Qed.

Section Limited.

Variable timeout : Z.
Variable apiKeys : list string.
Variable geminiRequest : Js.value.
Variable stringify : Js.value -> string.
Variable https : nat -> nat -> nat -> HttpsOutcome.

(** Every request is answered with status 429, and the error carries
    that status. *)
Hypothesis rate_limited :
  forall c k a, exists r,
    https c k a = HttpsReply r /\ Transport.replyStatus r = 429%Z
    /\ Js.statusCode (Transport.statusError stringify r) = Js.Num 429.

Hypothesis transforms :
  exists payload,
    Transport.transformRequestForHttpTransport geminiRequest = Js.Ok payload.

Lemma keyAttempts_limited (m remaining attempt k : nat) (isLast : bool)
    (lastError : option Js.error) (w : World) :
  exists e,
    keyAttempts timeout stringify https m (S remaining) attempt k isLast
      lastError w
    = (KeyBreak, Some e,
       mark k (tick (emit (HttpsCall k attempt
                             (timeout + (Z.of_nat attempt - 1) * 10000)%Z) w))).
Proof.
  cbn [keyAttempts]. unfold makeAlternativeRequest.
  destruct (rate_limited (clock w) k attempt) as (r & -> & Hs & Hc).
  unfold Transport.handleResponse. rewrite Hs.
  change (negb (429 =? 200)%Z) with true. cbv iota zeta.
  rewrite Hc. cbn [Js.isNum Z.eqb Pos.eqb orb]. eauto.
Qed.

Lemma tryKeys_limited (m : nat) (keys : list nat) :
  forall lastError w,
    exists e w',
      tryKeys timeout geminiRequest stringify https (S m) keys lastError w
      = (Js.Throw e, w')
      /\ trace w'
         = (trace w
              ++ flat_map (fun k => [HttpsCall k 1 timeout; MarkedExhausted k])
                          keys)%list.
Proof.
  induction keys as [|k rest IH]; intros lastError w.
  - cbn. rewrite app_nil_r. eauto.
  - cbn [tryKeys]. destruct transforms as [payload ->].
    destruct (keyAttempts_limited (S m) m 1 k
                (match rest with [] => true | _ => false end) lastError w)
      as [e ->].
    destruct (IH (Some e)
                (mark k (tick (emit (HttpsCall k 1
                   (timeout + (Z.of_nat 1 - 1) * 10000)%Z) w))))
      as (e' & w' & -> & Htr).
    exists e', w'. split; [reflexivity|].
    rewrite Htr. cbn [mark emit tick setSvc trace flat_map].
    replace (timeout + (Z.of_nat 1 - 1) * 10000)%Z with timeout by lia.
    rewrite <- !app_assoc. reflexivity.
Qed.

(** X23. When every reply is a 429, the raw transport asks once with
    each key it set out to try, marks it exhausted and moves on to the
    next without a pause; no key is asked twice, and the call fails
    after the last one. *)
Theorem rate_limited_keys_tried_once (m : nat) (keyIndex : option nat)
    (w : World) :
  apiKeys <> [] ->
  let run :=
    executeAlternativeRequest timeout apiKeys geminiRequest stringify https
      (S m) keyIndex w in
  exists (keys : list nat) e,
    keys <> [] /\ List.NoDup keys
    /\ Forall (fun k => k < length apiKeys) keys
    /\ fst run = Js.Throw e
    /\ trace (snd run)
       = (trace w
            ++ flat_map (fun k => [HttpsCall k 1 timeout; MarkedExhausted k])
                        keys)%list.
Proof.
  intros Hkeys. cbv zeta. unfold executeAlternativeRequest. cbv zeta.
  destruct (length apiKeys =? 0)%nat eqn:En.
  { apply Nat.eqb_eq in En. destruct apiKeys; [congruence|discriminate]. }
  apply Nat.eqb_neq in En.
  set (currentKeyIdx := match keyIndex with Some _ => _ | None => _ end).
  assert (Hidx : currentKeyIdx < length apiKeys).
  { subst currentKeyIdx. destruct keyIndex as [k|].
    - destruct (Nat.ltb_spec k (length apiKeys)); [assumption|].
      destruct (Nat.ltb_spec (currentKeyIndex (svc w)) (length apiKeys)); lia.
    - destruct (Nat.ltb_spec (currentKeyIndex (svc w)) (length apiKeys)); lia. }
  pose proof (candidates_NoDup (length apiKeys) currentKeyIdx
                (fun idx => negb (has idx (svc w)))) as Hnd.
  set (candidates := List.filter _ _) in *.
  assert (Hcand : Forall (fun k => k < length apiKeys) candidates).
  { subst candidates. apply List.Forall_forall. intros k Hin.
    apply filter_In in Hin as [Hin _].
    apply in_map_iff in Hin as [i [<- _]].
    now apply Nat.mod_upper_bound. }
  destruct candidates as [|c cs] eqn:Ec.
  - destruct (tryKeys_limited m [currentKeyIdx] None
                (setSvc (setExhaustedKeys ∅ (svc w)) w))
      as (e & w' & -> & Htr).
    exists [currentKeyIdx], e.
    split; [discriminate|]. split; [repeat constructor; intros []|].
    split; [repeat constructor; exact Hidx|].
    split; [reflexivity|exact Htr].
  - destruct (tryKeys_limited m (c :: cs) None w) as (e & w' & -> & Htr).
    exists (c :: cs), e.
    split; [discriminate|]. split; [exact Hnd|].
    split; [exact Hcand|]. split; [reflexivity|exact Htr].
Qed.

End Limited.

Lemma rate_limited_keys_tried_once_witness :
  exists (keys : list nat) e,
    keys <> [] /\ List.NoDup keys
    /\ fst (executeAlternativeRequest 60000 sampleKeys (Js.Obj [])
              (fun _ => EmptyString)
              (fun _ _ _ =>
                 HttpsReply {| Transport.replyStatus := 429;
                               Transport.data := "Too Many Requests";
                               Transport.parsed :=
                                 Js.Throw (Js.Error "Unexpected token T") |})
              3 None sampleWorld)
       = Js.Throw e.
Proof.
  destruct (rate_limited_keys_tried_once 60000 sampleKeys (Js.Obj [])
              (fun _ => EmptyString)
              (fun _ _ _ =>
                 HttpsReply {| Transport.replyStatus := 429;
                               Transport.data := "Too Many Requests";
                               Transport.parsed :=
                                 Js.Throw (Js.Error "Unexpected token T") |})
              (fun _ _ _ => ex_intro _ _ (conj eq_refl (conj eq_refl eq_refl)))
              (ex_intro _ _ eq_refl) 2 None sampleWorld)
    as (keys & e & Hne & Hnd & _ & He & _).
  - discriminate.
  - exists keys, e. auto.
Defined.

End RateLimit.

(* ================================================================== *)
(** * The pauses of the retry loop *)

Module Schedule.
Import JsString Classifier Pool PoolFacts PoolInvariants Orchestrator
       OrchestratorFacts Effects BudgetFacts Binary64 Binary64Facts.
Local Open Scope Q_scope.

(** Once [getNextModel] has settled on a model, it stays with it. *)
Lemma getNextModel_settled (s : LLMService) (model : Model) :
  fst (getNextModel s) = Some model ->
  getNextModel s = (Some model, snd (getNextModel s))
  /\ getNextModel (snd (getNextModel s)) = (Some model, snd (getNextModel s)).
Proof.
  intros Hm.
  assert (Hfirst : getNextModel s = (Some model, snd (getNextModel s)))
    by (rewrite <- Hm; now destruct (getNextModel s)).
  split; [exact Hfirst|].
  assert (Hagain : getNextModel (snd (getNextModel s)) = getNextModel s).
  { unfold getNextModel at 2 3.
    destruct (models s) as [|m [|m' l]] eqn:E.
    - simpl. unfold getNextModel. now rewrite E.
    - simpl. unfold getNextModel. now rewrite E.
    - pose proof (rotate_post (length (m :: m' :: l)) s) as H.
      destruct (rotate _ s) as [[x|] s'] eqn:Er; simpl.
      + destruct H as [-> [Hfree [Hmod _]]].
        unfold getNextModel. rewrite Hmod, E. simpl.
        apply has_false in Hfree. rewrite Hfree, Hmod, E. reflexivity.
      + destruct H as [Hmod _].
        assert (H0 : has 0 (setCurrentKeyIndex 0 (setExhaustedKeys ∅ s'))
                     = false)
          by (apply has_false, not_elem_of_empty).
        unfold getNextModel. simpl. rewrite Hmod, E. simpl.
        rewrite H0, Hmod, E. reflexivity. }
  now rewrite Hagain.
Qed.

Lemma retried_ext (key : nat) (d d' : nat -> Q) (count : nat) :
  forall first,
    (forall a, (first <= a < first + count)%nat -> d a = d' a) ->
    retried key d first count = retried key d' first count.
Proof.
  induction count as [|count IH]; intros first H; [reflexivity|].
  cbn [retried]. rewrite (H first) by lia.
  rewrite (IH (S first)); [reflexivity|]. intros a Ha. apply H. lia.
Qed.

Section Loop.

Variable maxRetries : nat.
Variable timeout : Z.
Variable enableFallbackMethod : bool.
Variable apiKeys : list string.
Variable geminiRequest : Js.value.
Variable stringify : Js.value -> string.
Variable sdk : nat -> nat -> SdkOutcome.
Variable https : nat -> nat -> nat -> HttpsOutcome.
Variable random : nat -> Q.

Local Abbreviation pass :=
  (pass maxRetries timeout enableFallbackMethod apiKeys geminiRequest
        stringify sdk https random).
Local Abbreviation attempts :=
  (attempts maxRetries timeout enableFallbackMethod apiKeys geminiRequest
            stringify sdk https random).
Local Abbreviation onFailure :=
  (onFailure maxRetries timeout enableFallbackMethod apiKeys geminiRequest
             stringify sdk https random).
Local Abbreviation executeRequest :=
  (executeRequest maxRetries timeout enableFallbackMethod apiKeys
                  geminiRequest stringify sdk https random).

(** The world a request through the client leaves. *)
Local Abbreviation requested a key s v :=
  (tick (emit (SdkCall key)
           (setSvc s (if (a =? 1)%nat then emit Preflight v else v)))).

Lemma tryNative_requests (a : nat) (v : World) (model : Model)
    (s1 : LLMService) :
  getNextModel (svc v) = (Some model, s1) ->
  snd (tryNative sdk a v) = requested a (currentKeyIndex s1) s1 v
  /\ (forall e,
        failure (sdk (clock v) (currentKeyIndex s1)) = Some e ->
        fst (tryNative sdk a v) = inr e).
Proof.
  intros Hg. unfold tryNative.
  assert (Hsvc : svc (if (a =? 1)%nat then emit Preflight v else v) = svc v)
    by (now destruct (a =? 1)%nat).
  assert (Hclock : clock (if (a =? 1)%nat then emit Preflight v else v)
                   = clock v)
    by (now destruct (a =? 1)%nat).
  rewrite Hsvc, Hg. cbv zeta. cbn [setSvc clock]. rewrite Hclock.
  unfold failure.
  destruct (sdk (clock v) (currentKeyIndex s1)) as [e'| | |[]];
    try destruct (String.eqb _ _); (split; [reflexivity|]);
    intros e He; try discriminate; now injection He as <-.
Qed.

Lemma onFailure_extends (a : nat) (e : Js.error) (v v' : World) (step : Step) :
  onFailure currentKeyIndexInCatch a e v = (step, v') ->
  exists evs, trace v' = (trace v ++ evs)%list.
Proof.
  unfold Orchestrator.onFailure, currentKeyIndexInCatch.
  cbn [switchKeyOnQuota].
  destruct (negb (isRetryable (analyzeError e)));
    [intros [= _ <-]; exists []; now rewrite app_nil_r|].
  cbn [tryNextKeyOnce].
  assert (Hfallback : exists evs2 (fallback : option string) (w2 : World),
            (if String.eqb (type (analyzeError e)) "NETWORK_ERROR"
                && enableFallbackMethod && (a <=? 2)%nat
             then tryFallback timeout apiKeys geminiRequest stringify https
                    None v
             else (None, v)) = (fallback, w2)
            /\ trace w2 = (trace v ++ evs2)%list).
  { destruct (_ && _ && _).
    - unfold tryFallback.
      destruct (executeAlternativeRequest _ _ _ _ _ 3 None v)
        as [[r|e'] w2] eqn:Ea;
        apply executeAlternativeRequest_effects in Ea as (evs2 & Htr2 & _);
        eauto.
    - exists [], None, v. now rewrite app_nil_r. }
  destruct Hfallback as (evs2 & fallback & w2 & -> & Htr2).
  destruct fallback as [text|]; [intros [= _ <-]; eauto|].
  destruct (a =? maxRetries)%nat; [intros [= _ <-]; eauto|].
  intros [= _ <-]. eexists (evs2 ++ [Sleep _])%list.
  cbn [emit drawn trace]. now rewrite Htr2, app_assoc.
Qed.

Lemma attempts_extends (remaining : nat) :
  forall a lastError v,
    exists evs,
      trace (snd (attempts remaining a lastError v)) = (trace v ++ evs)%list.
Proof.
  induction remaining as [|remaining IH]; intros a lastError v.
  - exists []. cbn. now rewrite app_nil_r.
  - cbn [Orchestrator.attempts].
    destruct (pass a v) as [step v1] eqn:Ep.
    apply pass_effects in Ep as (evs & Htr & _).
    destruct step as [text|e|e]; cbn [snd]; eauto.
    destruct (IH (S a) (Some e) v1) as [evs' Htr'].
    exists (evs ++ evs')%list. now rewrite Htr', Htr, app_assoc.
Qed.

(** An attempt goes out with the key of the model, whatever comes of
    it. *)
Lemma attempts_requests (remaining a : nat) (lastError : option Js.error)
    (v : World) (model : Model) (s1 : LLMService) :
  getNextModel (svc v) = (Some model, s1) ->
  exists rest,
    trace (snd (attempts (S remaining) a lastError v))
    = (trace v ++ preflight a ++ SdkCall (currentKeyIndex s1) :: rest)%list.
Proof.
  intros Hg. cbn [Orchestrator.attempts]. unfold Orchestrator.pass.
  destruct (tryNative_requests a v model s1 Hg) as [Hw _].
  assert (Htr : trace (requested a (currentKeyIndex s1) s1 v)
                = (trace v ++ preflight a ++ [SdkCall (currentKeyIndex s1)])%list).
  { unfold preflight. destruct (a =? 1)%nat; cbn; [|reflexivity].
    now rewrite <- app_assoc. }
  destruct (tryNative sdk a v) as [[text|e] v1]; cbn [snd] in Hw; subst v1.
  - exists []. cbn [snd]. exact Htr.
  - destruct (onFailure currentKeyIndexInCatch a e _) as [step v2] eqn:Eo.
    apply onFailure_extends in Eo as [evs Hevs].
    assert (Hv2 : trace v2
                  = (trace v ++ preflight a
                       ++ SdkCall (currentKeyIndex s1) :: evs)%list).
    { rewrite Hevs, Htr. now rewrite <- !app_assoc. }
    destruct step as [text|e'|e']; cbn [snd]; eauto.
    destruct (attempts_extends remaining (S a) (Some e') v2) as [evs' Htr'].
    exists (evs ++ evs')%list. rewrite Htr', Hv2.
    now rewrite <- !app_assoc.
Qed.

(** A pass whose request fails with an error that is retried, the raw
    transport out of the way, ends with the pause of its attempt
    number. *)
Lemma pass_retried (a : nat) (v : World) (model : Model) (s1 : LLMService)
    (e : Js.error) :
  getNextModel (svc v) = (Some model, s1) ->
  failure (sdk (clock v) (currentKeyIndex s1)) = Some e ->
  isRetryable (analyzeError e) = true ->
  enableFallbackMethod = false
  \/ type (analyzeError e) <> "NETWORK_ERROR" \/ (2 < a)%nat ->
  a <> maxRetries ->
  pass a v
  = (Next e,
     emit (Sleep (backoffDelay (isNetworkError (analyzeError e)) a
                    (round (random (draws v) * 1000))))
          (drawn (requested a (currentKeyIndex s1) s1 v))).
Proof.
  intros Hg Hf Hretry Hraw Hlast. unfold Orchestrator.pass.
  destruct (tryNative_requests a v model s1 Hg) as [Hw He].
  specialize (He e Hf).
  destruct (tryNative sdk a v) as [res v1]. cbn [fst snd] in Hw, He.
  subst res v1.
  unfold Orchestrator.onFailure, currentKeyIndexInCatch.
  cbn [switchKeyOnQuota]. rewrite Hretry. cbn [negb].
  assert (Hoff : String.eqb (type (analyzeError e)) "NETWORK_ERROR"
                 && enableFallbackMethod && (a <=? 2)%nat = false).
  { destruct Hraw as [->|[Hkind|Ha]].
    - now rewrite andb_false_r.
    - destruct (String.eqb_spec (type (analyzeError e)) "NETWORK_ERROR");
        [contradiction|reflexivity].
    - apply Nat.leb_gt in Ha. rewrite Ha. apply andb_false_r. }
  rewrite Hoff. apply Nat.eqb_neq in Hlast. rewrite Hlast.
  assert (Hd : draws (requested a (currentKeyIndex s1) s1 v) = draws v)
    by (now destruct (a =? 1)%nat).
  now rewrite Hd.
Qed.

Lemma attempts_retried (model : Model) (s1 : LLMService)
    (errors : nat -> Js.error) (count : nat) :
  getNextModel s1 = (Some model, s1) ->
  forall a v lastError remaining,
    (1 <= a)%nat -> (a + count <= maxRetries)%nat ->
    getNextModel (svc v) = (Some model, s1) ->
    (forall i, (i < count)%nat ->
       failure (sdk (clock v + i)%nat (currentKeyIndex s1))
       = Some (errors (a + i)%nat)
       /\ isRetryable (analyzeError (errors (a + i)%nat)) = true
       /\ (enableFallbackMethod = false
           \/ type (analyzeError (errors (a + i)%nat)) <> "NETWORK_ERROR"
           \/ (2 < a + i)%nat)) ->
    exists v' lastError',
      attempts (count + remaining) a lastError v
      = attempts remaining (a + count) lastError' v'
      /\ trace v'
         = (trace v
              ++ (if (count =? 0)%nat then []
                  else preflight a
                         ++ retried (currentKeyIndex s1)
                              (fun b =>
                                 backoffDelay
                                   (isNetworkError (analyzeError (errors b)))
                                   b
                                   (round (random (draws v + (b - a))%nat
                                           * 1000)))
                              a count))%list
      /\ getNextModel (svc v') = (Some model, s1).
Proof.
  intros Hs1. induction count as [|count IH];
    intros a v lastError remaining Ha Hmax Hg Hfail.
  - exists v, lastError. rewrite Nat.add_0_r, app_nil_r. auto.
  - destruct (Hfail 0%nat ltac:(lia)) as (Hf & Hretry & Hraw).
    rewrite ?Nat.add_0_r in Hf, Hretry, Hraw.
    replace (a + 0)%nat with a in Hf by lia.
    pose proof (pass_retried a v model s1 (errors a) Hg Hf Hretry Hraw
                  ltac:(lia)) as Hpass.
    set (v1 := emit _ _) in Hpass.
    destruct (IH (S a) v1 (Some (errors a)) remaining ltac:(lia) ltac:(lia))
      as (v' & lastError' & Hloop & Htr & Hg').
    { exact Hs1. }
    { intros i Hi. destruct (Hfail (S i) ltac:(lia)) as (Hf' & Hr' & Hraw').
      replace (clock v1 + i)%nat with (clock v + S i)%nat
        by (subst v1; destruct (a =? 1)%nat; cbn; lia).
      replace (S a + i)%nat with (a + S i)%nat by lia. auto. }
    exists v', lastError'.
    split.
    { cbn [Nat.add Orchestrator.attempts]. rewrite Hpass.
      rewrite Hloop. now replace (S a + count)%nat with (a + S count)%nat by lia. }
    split; [|exact Hg'].
    rewrite Htr. cbn [Nat.eqb retried].
    assert (Hd1 : draws v1 = S (draws v))
      by (subst v1; destruct (a =? 1)%nat; reflexivity).
    assert (Htr1 : trace v1
              = (trace v ++ preflight a
                   ++ [SdkCall (currentKeyIndex s1);
                       Sleep (backoffDelay
                                (isNetworkError (analyzeError (errors a))) a
                                (round (random (draws v) * 1000)))])%list).
    { subst v1. unfold preflight. destruct (a =? 1)%nat; cbn;
        now rewrite <- ?app_assoc. }
    rewrite Htr1, Nat.sub_diag, Nat.add_0_r.
    assert (Hrest : retried (currentKeyIndex s1)
                      (fun b =>
                         backoffDelay
                           (isNetworkError (analyzeError (errors b))) b
                           (round (random (draws v1 + (b - S a))%nat * 1000)))
                      (S a) count
                    = retried (currentKeyIndex s1)
                        (fun b =>
                           backoffDelay
                             (isNetworkError (analyzeError (errors b))) b
                             (round (random (draws v + (b - a))%nat * 1000)))
                        (S a) count).
    { apply retried_ext. intros b Hb. rewrite Hd1.
      now replace (S (draws v) + (b - S a))%nat
        with (draws v + (b - a))%nat by lia. }
    rewrite Hrest.
    destruct (count =? 0)%nat eqn:Ec.
    + apply Nat.eqb_eq in Ec. subst count. cbn [retried].
      rewrite app_nil_r. reflexivity.
    + assert (Hpre : preflight (S a) = [])
        by (unfold preflight; destruct a; [lia|reflexivity]).
      rewrite Hpre. cbn [app]. now rewrite <- !app_assoc.
Qed.

(** C7, as the code has it. When the first attempts of a request fail
    with errors that are retried (the raw transport not being tried),
    the loop sends the request of attempt a = 1, 2, ... with the same
    key and pauses after the a-th for the delay of attempt a, computed
    in binary64: the jitter is the a-th draw times 1000, rounded, and
    the delay is the rounded sum of base * 2^(a-1) and the jitter,
    capped at 10000, with base 2000 for a network-classified error and
    1000 otherwise. In any state, a pass of attempt a that gives way to
    another (the raw transport tried or not) ends with that pause, and
    the loop goes on with attempt a + 1. The jitter is in [0, 1000); the
    delay lies between the capped exponential delay and the capped
    exponential delay plus 1000 and never exceeds 10000; without jitter
    it is the capped exponential delay, which does not decrease with the
    attempt number. *)
Theorem backoff_schedule (w : World) (model : Model)
    (errors : nat -> Js.error) (retries : nat) :
  (retries < maxRetries)%nat ->
  fst (getNextModel (svc w)) = Some model ->
  let key := currentKeyIndex (snd (getNextModel (svc w))) in
  let jitter n := round (random n * 1000) in
  let delay a :=
    backoffDelay (isNetworkError (analyzeError (errors a))) a
      (jitter (draws w + (a - 1))%nat) in
  (forall a, (1 <= a <= retries)%nat ->
     failure (sdk (clock w + (a - 1))%nat key) = Some (errors a)
     /\ isRetryable (analyzeError (errors a)) = true
     /\ (enableFallbackMethod = false
         \/ type (analyzeError (errors a)) <> "NETWORK_ERROR"
         \/ (2 < a)%nat)) ->
  (forall n, 0 <= random n /\ random n <= belowOne) ->
  (exists rest,
     trace (snd (executeRequest w))
     = (trace w ++ Preflight :: retried key delay 1 retries
          ++ SdkCall key :: rest)%list)
  /\ (forall (remaining a : nat) (lastError : option Js.error)
             (v v' : World) (e : Js.error),
        pass a v = (Next e, v') ->
        attempts (S remaining) a lastError v
        = attempts remaining (S a) (Some e) v'
        /\ exists v0 evs,
             trace v0 = (trace v ++ evs)%list
             /\ v' = emit (Sleep (backoffDelay
                                    (isNetworkError (analyzeError e)) a
                                    (jitter (draws v0))))
                          (drawn v0))
  /\ (forall (net : bool) (a n : nat), (1 <= a)%nat ->
        let exponentialDelay :=
          (if net then 2000 else 1000) * 2 ^ (Z.of_nat a - 1) in
        0 <= jitter n /\ jitter n < 1000
        /\ backoffDelay net a (jitter n)
           == Qmin (round (exponentialDelay + jitter n)) 10000
        /\ Qmin exponentialDelay 10000 <= backoffDelay net a (jitter n)
        /\ backoffDelay net a (jitter n)
           <= Qmin (exponentialDelay + 1000) 10000
        /\ backoffDelay net a (jitter n) <= 10000)
  /\ (forall (net : bool) (a b : nat), (1 <= a <= b)%nat ->
        backoffDelay net a 0
        == Qmin ((if net then 2000 else 1000) * 2 ^ (Z.of_nat a - 1)) 10000
        /\ backoffDelay net a 0 <= backoffDelay net b 0).
Proof.
  intros Hretries Hmodel key jitter delay Hfail Hrandom.
  destruct (getNextModel_settled (svc w) model Hmodel) as [Hfirst Hagain].
  set (s1 := snd (getNextModel (svc w))) in *.
  split; [|split; [|split]].
  - unfold Orchestrator.executeRequest.
    destruct (attempts_retried model s1 errors retries Hagain 1%nat w None
                (S (maxRetries - retries - 1)) ltac:(lia) ltac:(lia) Hfirst)
      as (v2 & lastError2 & Hloop2 & Htr2 & Hg2).
    { intros i Hi. destruct (Hfail (1 + i)%nat ltac:(lia)) as (Hf & Hr & Hraw).
      replace (1 + i - 1)%nat with i in Hf by lia. auto. }
    replace (retries + S (maxRetries - retries - 1))%nat with maxRetries
      in Hloop2 by lia.
    rewrite Hloop2.
    destruct (attempts_requests (maxRetries - retries - 1) (1 + retries)
                lastError2 v2 model s1 Hg2) as [rest Hrest].
    exists rest. rewrite Hrest, Htr2. fold key.
    destruct (retries =? 0)%nat eqn:Ez.
    + apply Nat.eqb_eq in Ez. subst retries. cbn. now rewrite <- app_assoc.
    + assert (Hpre : preflight (1 + retries) = [])
        by (unfold preflight; destruct retries; [discriminate|reflexivity]).
      rewrite Hpre. cbn [app preflight Nat.eqb].
      rewrite <- !app_assoc. reflexivity.
  - intros remaining a lastError v v' e Hpass.
    split; [cbn [Orchestrator.attempts]; now rewrite Hpass|].
    unfold Orchestrator.pass in Hpass.
    destruct (tryNative sdk a v) as [[text|error] v1] eqn:Et;
      [discriminate|].
    apply tryNative_effects in Et as (_ & evs1 & Htr1 & _).
    unfold Orchestrator.onFailure, currentKeyIndexInCatch in Hpass.
    cbn [switchKeyOnQuota tryNextKeyOnce] in Hpass.
    destruct (negb (isRetryable (analyzeError error))); [discriminate|].
    destruct (String.eqb (type (analyzeError error)) "NETWORK_ERROR"
              && enableFallbackMethod && (a <=? 2)%nat).
    + unfold tryFallback in Hpass.
      destruct (executeAlternativeRequest _ _ _ _ _ 3 None v1)
        as [[r|e'] v0] eqn:Ea; [discriminate|].
      apply executeAlternativeRequest_effects in Ea as (evs2 & Htr2 & _).
      destruct (a =? maxRetries)%nat; [discriminate|].
      injection Hpass as <- <-. exists v0, (evs1 ++ evs2)%list.
      split; [|reflexivity]. now rewrite Htr2, Htr1, app_assoc.
    + destruct (a =? maxRetries)%nat; [discriminate|].
      injection Hpass as <- <-. exists v1, evs1. now split.
  - intros net a n Ha exponentialDelay.
    destruct (Hrandom n) as [H0 H1].
    destruct (round_jitter _ H0 H1) as [Hj0 Hj1]. fold (jitter n) in Hj0, Hj1.
    split; [exact Hj0|]. split; [exact Hj1|].
    split; [apply backoffDelay_rounded; exact Hj0|].
    destruct (backoffDelay_envelope net a (jitter n) Ha Hj0
                (Qlt_le_weak _ _ Hj1)) as [Hlow Hup].
    split; [exact Hlow|]. split; [exact Hup|]. apply backoffDelay_cap.
  - intros net a b Hab. split.
    + apply backoffDelay_no_jitter. lia.
    + now apply backoffDelay_monotone.
Qed.

End Loop.

Lemma backoff_schedule_witness :
  exists rest,
    trace (snd (jitterRun sampleWorld))
    = ([Preflight; SdkCall 0;
        Sleep (8796093022207999 # 4398046511104); SdkCall 0;
        Sleep 3000; SdkCall 0; Sleep 5000; SdkCall 0; Sleep 9000; SdkCall 0]
         ++ rest)%list.
Proof.
  destruct (backoff_schedule 5 60000 true sampleKeys (Js.Obj [])
              (fun _ => EmptyString) (fun _ _ => SdkRejects quotaError)
              (fun _ _ _ => HttpsTimeout) (fun _ => lateDraw)
              sampleWorld "AIzaKey1" (fun _ => quotaError) 4)
    as [[rest Hrest] _].
  - lia.
  - reflexivity.
  - intros a Ha. split; [reflexivity|]. split; [reflexivity|].
    right; left. vm_compute. discriminate.
  - intros n. vm_compute. split; discriminate.
  - exists rest. unfold jitterRun. etransitivity; [exact Hrest|].
    vm_compute. reflexivity.
Defined.

(** C7 as the specification words it fails: in a run whose draws are
    all 1 - 2^-52, the pause after the fourth request, for an error
    that is not network-classified, is 9000 ms; the jitter of the code
    is below 1000, and no jitter of [0, 1000) added to 1000 * 2^3 and
    capped at 10000 gives 9000. *)
Lemma backoff_sum_rounds_up :
  let jitter := round (lateDraw * 1000) in
  (0 <= lateDraw /\ lateDraw < 1)
  /\ isNetworkError (analyzeError quotaError) = false
  /\ nth_error (trace (snd (jitterRun sampleWorld))) 8 = Some (Sleep 9000)
  /\ backoffDelay false 4 jitter = 9000
  /\ jitter < 1000
  /\ ~ 9000 == Qmin (1000 * 2 ^ (Z.of_nat 4 - 1) + jitter) 10000
  /\ (forall j, 0 <= j -> j < 1000 ->
        ~ 9000 == Qmin (1000 * 2 ^ (Z.of_nat 4 - 1) + j) 10000).
Proof.
  cbv zeta.
  assert (Hnone : forall j, j < 1000 ->
            ~ 9000 == Qmin (1000 * 2 ^ (Z.of_nat 4 - 1) + j) 10000).
  { intros j Hj H.
    change (2 ^ (Z.of_nat 4 - 1)) with 8 in H.
    destruct (Q.min_spec (1000 * 8 + j) 10000) as [[_ Hmin]|[_ Hmin]];
      rewrite Hmin in H; lra. }
  assert (Hjitter : round (lateDraw * 1000) < 1000)
    by (vm_compute; reflexivity).
  split; [split; vm_compute; [discriminate|reflexivity]|].
  split; [reflexivity|]. split; [vm_compute; reflexivity|].
  split; [vm_compute; reflexivity|]. split; [exact Hjitter|].
  split; [now apply Hnone|]. intros j _. apply Hnone.
Qed.

End Schedule.
